(** * marker: renderers, provider outputs and box utilities

    A shallow embedding of the parts of [marker] that resolve content
    references, rebuild table grids, fuse provider outputs and match
    boxes, together with the properties the specification states about
    them.

    Conventions of the embedding.
    - Python [float] coordinates are exact rationals ([Q]); rounding,
      infinities and NaN are outside the model.
    - Python [str] is [string]; the whitespace class is the one
      [str.isspace] gives on the ASCII range.
    - An exception is a value of [exn]; a function that can raise returns
      a [result]. *)

From Stdlib Require Import List ZArith QArith Qminmax Qround Lia Lqa.
From Stdlib Require Import String Ascii Bool.
From stdpp Require Import base list sorting gmap.
From Equations Require Import Equations.
Import ListNotations.

Set Default Proof Using "Type".
Set Warnings "-register-all".

(** ** Exceptions *)

Inductive exn : Type :=
| AttributeError
| IndexError
| ZeroDivisionError
| UnboundLocalError.

Inductive result (A : Type) : Type :=
| Ok (a : A)
| Raise (e : exn).

Arguments Ok {A} a.
Arguments Raise {A} e.

#[global] Instance result_ret : MRet result := fun A a => Ok a.

#[global] Instance result_bind : MBind result := fun A B k r =>
  match r with
  | Ok a => k a
  | Raise e => Raise e
  end.

(** ** marker/schema/polygon.py *)

Module Polygon.

Local Open Scope Q_scope.

(** A bounding box [x1, y1, x2, y2]; also a row of the (N, 4) array
    that [np.array] builds from a list of boxes. *)
Record Box : Type := mkBox { bx1 : Q; by1 : Q; bx2 : Q; by2 : Q }.

Definition axis_aligned (b : Box) : Prop :=
  bx1 b <= bx2 b /\ by1 b <= by2 b.

Definition box_area (b : Box) : Q :=
  (bx2 b - bx1 b) * (by2 b - by1 b).

(** Modelled from the spec: the class [PolygonBox] of
    marker/schema/polygon.py is not among the sources. The specification
    gives a polygon a derived bounding box [x1, y1, x2, y2]; a polygon is
    represented here by that box. *)
Record PolygonBox : Type := mkPolygonBox { bbox : Box }.

Definition bbox_union (a b : Box) : Box :=
  mkBox (Qmin (bx1 a) (bx1 b)) (Qmin (by1 a) (by1 b))
        (Qmax (bx2 a) (bx2 b)) (Qmax (by2 a) (by2 b)).

(** Modelled from the spec: [PolygonBox.merge(others)] is missing with
    its class; the specification says it is the bbox union of self and
    all others, returned as a new polygon with the inputs untouched. *)
Definition merge (self : PolygonBox) (others : list PolygonBox) : PolygonBox :=
  mkPolygonBox (foldl bbox_union (bbox self) (bbox <$> others)).

End Polygon.

(** ** marker/util.py *)

Module Util.

Import Polygon.
Local Open Scope Q_scope.

(** A two-dimensional [np.ndarray]: the shape is kept next to the rows,
    since an array of shape (0, M) has no row to read M from. *)
Record ndarray : Type := mkArr { shape : nat * nat; data : list (list Q) }.

Definition np_zeros (n m : nat) : ndarray :=
  mkArr (n, m) (repeat (repeat 0 m) n).

(** [f(a[:, np.newaxis], b[np.newaxis, :])]: broadcasting a column
    against a row. *)
Definition broadcast (f : Q -> Q -> Q) (col row : list Q) : list (list Q) :=
  (fun a : Q => (fun b : Q => f a b) <$> row) <$> col.

(** Elementwise operation on two arrays of one shape. *)
Definition elementwise (f : Q -> Q -> Q) (a b : list (list Q)) : list (list Q) :=
  zip_with (zip_with f) a b.

(** Operation of a scalar with every entry, as in [np.maximum(0, a)]. *)
Definition scalar_op (f : Q -> Q) (a : list (list Q)) : list (list Q) :=
  (fun row : list Q => f <$> row) <$> a.

Definition matrix_intersection_area (boxes1 boxes2 : list Box) : ndarray :=
  if (Nat.eqb (length boxes1) 0 || Nat.eqb (length boxes2) 0)%bool then
    np_zeros (length boxes1) (length boxes2)
  else
    let min_x := broadcast Qmax (bx1 <$> boxes1) (bx1 <$> boxes2) in
    let min_y := broadcast Qmax (by1 <$> boxes1) (by1 <$> boxes2) in
    let max_x := broadcast Qmin (bx2 <$> boxes1) (bx2 <$> boxes2) in
    let max_y := broadcast Qmin (by2 <$> boxes1) (by2 <$> boxes2) in
    let width := scalar_op (Qmax 0) (elementwise Qminus max_x min_x) in
    let height := scalar_op (Qmax 0) (elementwise Qminus max_y min_y) in
    mkArr (length boxes1, length boxes2) (elementwise Qmult width height).

(** The entry the specification gives for a pair of boxes. *)
Definition intersection_area (a b : Box) : Q :=
  Qmax 0 (Qmin (bx2 a) (bx2 b) - Qmax (bx1 a) (bx1 b))
  * Qmax 0 (Qmin (by2 a) (by2 b) - Qmax (by1 a) (by1 b)).

(** Reading entry (i, j) of an array. *)
Definition entry (m : ndarray) (i j : nat) : option Q :=
  match data m !! i with
  | Some row => row !! j
  | None => None
  end.

(** *** Reading-order sort *)

(** Python's [round] on a float: to the nearest integer, ties to the
    even one. *)
Definition py_round (q : Q) : Z :=
  let f := Qfloor q in
  match Qcompare (q - inject_Z f) (1 # 2) with
  | Lt => f
  | Gt => (f + 1)%Z
  | Eq => if Z.even f then f else (f + 1)%Z
  end.

(** [sorted(l, key=key)]: a stable sort that compares keys with [<]. An
    element is put in front of the first later element whose key is not
    smaller than its own. *)
Fixpoint insert_sorted {B : Type} (key : B -> Q) (x : B) (l : list B) : list B :=
  match l with
  | [] => [x]
  | y :: l' =>
      if Qle_bool (key x) (key y) then x :: y :: l'
      else y :: insert_sorted key x l'
  end.

Definition sorted {B : Type} (key : B -> Q) (l : list B) : list B :=
  foldr (insert_sorted key) [] l.

(** A [dict] with float keys and list values, in insertion order. *)
Definition dict (A : Type) : Type := list (Q * list A).

(** [if k not in d: d[k] = []] followed by [d[k].append(x)]. *)
Fixpoint dict_append {A : Type} (k : Q) (x : A) (d : dict A) : dict A :=
  match d with
  | [] => [(k, [x])]
  | (k', g) :: d' =>
      if Qeq_bool k' k then (k', g ++ [x]) :: d'
      else (k', g) :: dict_append k x d'
  end.

(** [round(line.bbox[1] / tolerance) * tolerance] *)
Definition group_key (tolerance : Q) (line : PolygonBox) : result Q :=
  if Qeq_bool tolerance 0 then Raise ZeroDivisionError
  else Ok (inject_Z (py_round (by1 (bbox line) / tolerance)) * tolerance).

(** The first loop of [sort_text_lines]. *)
Fixpoint group_lines (tolerance : Q) (lines : list PolygonBox)
    (vertical_groups : dict PolygonBox) : result (dict PolygonBox) :=
  match lines with
  | [] => Ok vertical_groups
  | line :: rest =>
      k ← group_key tolerance line;
      group_lines tolerance rest (dict_append k line vertical_groups)
  end.

(** [sorted(vertical_groups.items())] compares (key, group) pairs; the
    keys of a dict are pairwise different, so the first components
    decide. *)
Definition sort_text_lines (lines : list PolygonBox) (tolerance : Q)
    : result (list PolygonBox) :=
  vertical_groups ← group_lines tolerance lines [];
  Ok (concat ((fun kg : Q * list PolygonBox =>
                 sorted (fun x => bx1 (bbox x)) kg.2)
              <$> sorted fst vertical_groups)).

Definition line_at (x y : Q) : PolygonBox :=
  mkPolygonBox (mkBox x y (x + 10) (y + 10)).

(** *** Properties of the intersection-area matrix *)

Lemma entry_broadcast f col row i j a b :
  col !! i = Some a -> row !! j = Some b ->
  (broadcast f col row !! i) ≫= (.!! j) = Some (f a b).
Proof.
  intros Hi Hj. unfold broadcast.
  rewrite list_lookup_fmap, Hi. simpl.
  rewrite list_lookup_fmap, Hj. reflexivity.
Qed.

Lemma entry_elementwise f (m1 m2 : list (list Q)) i j x y :
  (m1 !! i) ≫= (.!! j) = Some x ->
  (m2 !! i) ≫= (.!! j) = Some y ->
  (elementwise f m1 m2 !! i) ≫= (.!! j) = Some (f x y).
Proof.
  unfold elementwise. intros H1 H2.
  rewrite lookup_zip_with.
  destruct (m1 !! i) as [r1|]; [|discriminate].
  destruct (m2 !! i) as [r2|]; [|discriminate].
  simpl in *. rewrite lookup_zip_with, H1. simpl. rewrite H2. reflexivity.
Qed.

Lemma entry_scalar_op f (m : list (list Q)) i j x :
  (m !! i) ≫= (.!! j) = Some x ->
  (scalar_op f m !! i) ≫= (.!! j) = Some (f x).
Proof.
  intros H. unfold scalar_op. rewrite list_lookup_fmap.
  destruct (m !! i) as [r|]; [|discriminate].
  simpl in *. rewrite list_lookup_fmap, H. reflexivity.
Qed.

Lemma intersection_area_nonneg a b : 0 <= intersection_area a b.
Proof.
  unfold intersection_area.
  apply Qmult_le_0_compat; apply Q.le_max_l.
Qed.

Lemma clipped_overlap_le lo1 hi1 lo2 hi2 :
  lo1 <= hi1 -> Qmax 0 (Qmin hi1 hi2 - Qmax lo1 lo2) <= hi1 - lo1.
Proof.
  intros H.
  apply Q.max_lub; [lra|].
  pose proof (Q.le_min_l hi1 hi2). pose proof (Q.le_max_l lo1 lo2). lra.
Qed.

Lemma Qmult_le_compat_nonneg (w h W H : Q) :
  0 <= w -> w <= W -> 0 <= h -> h <= H -> w * h <= W * H.
Proof.
  intros Hw HwW Hh HhH.
  apply Qle_trans with (W * h).
  - apply Qmult_le_compat_r; assumption.
  - rewrite (Qmult_comm W h), (Qmult_comm W H).
    apply Qmult_le_compat_r; [assumption|lra].
Qed.

Lemma intersection_area_le_l a b :
  axis_aligned a -> intersection_area a b <= box_area a.
Proof.
  intros [Hx Hy]. unfold intersection_area, box_area.
  apply Qmult_le_compat_nonneg;
    auto using Q.le_max_l, clipped_overlap_le.
Qed.

Lemma intersection_area_sym a b :
  intersection_area a b == intersection_area b a.
Proof.
  unfold intersection_area.
  rewrite (Q.min_comm (bx2 a)), (Q.max_comm (bx1 a)).
  rewrite (Q.min_comm (by2 a)), (Q.max_comm (by1 a)). reflexivity.
Qed.

Lemma matrix_shape boxes1 boxes2 :
  shape (matrix_intersection_area boxes1 boxes2)
  = (length boxes1, length boxes2).
Proof.
  unfold matrix_intersection_area.
  destruct (_ || _)%bool; reflexivity.
Qed.

Lemma matrix_rows boxes1 boxes2 :
  length (data (matrix_intersection_area boxes1 boxes2)) = length boxes1
  /\ Forall (fun row => length row = length boxes2)
       (data (matrix_intersection_area boxes1 boxes2)).
Proof.
  unfold matrix_intersection_area.
  destruct (_ || _)%bool; simpl.
  - split; [apply repeat_length|].
    apply Forall_forall. intros row Hin%list_elem_of_In.
    apply repeat_spec in Hin. subst. apply repeat_length.
  - unfold elementwise, broadcast, scalar_op.
    split.
    + rewrite length_zip_with, !length_fmap, !length_zip_with, !length_fmap. lia.
    + apply Forall_forall. intros row Hin.
      apply list_elem_of_lookup in Hin as [i Hi].
      rewrite lookup_zip_with in Hi.
      rewrite !list_lookup_fmap, !lookup_zip_with, !list_lookup_fmap in Hi.
      destruct (boxes1 !! i) as [a|]; simpl in Hi; [|discriminate].
      injection Hi as <-.
      rewrite length_zip_with, !length_fmap, !length_zip_with, !length_fmap. lia.
Qed.

Lemma matrix_entry boxes1 boxes2 i j a b :
  boxes1 !! i = Some a -> boxes2 !! j = Some b ->
  entry (matrix_intersection_area boxes1 boxes2) i j
  = Some (intersection_area a b).
Proof.
  intros Hi Hj. unfold matrix_intersection_area.
  destruct boxes1 as [|a0 l1]; [discriminate|].
  destruct boxes2 as [|b0 l2]; [discriminate|].
  cbn [length Nat.eqb orb]. unfold entry. cbn [data].
  set (B1 := a0 :: l1) in *. set (B2 := b0 :: l2) in *.
  assert (Hf : forall (g : Box -> Q), (g <$> B1) !! i = Some (g a)).
  { intros g. rewrite list_lookup_fmap, Hi. reflexivity. }
  assert (Hg : forall (g : Box -> Q), (g <$> B2) !! j = Some (g b)).
  { intros g. rewrite list_lookup_fmap, Hj. reflexivity. }
  match goal with
  | |- match ?m !! i with _ => _ end = _ =>
      change (m !! i ≫= (.!! j) = Some (intersection_area a b))
  end.
  unfold intersection_area.
  apply entry_elementwise; apply entry_scalar_op; apply entry_elementwise;
    apply entry_broadcast; auto.
Qed.

(** C7. The intersection-area matrix has shape N x M; entry (i, j) is
    [max(0, min(x2) - max(x1)) * max(0, min(y2) - max(y1))] and is not
    negative; for boxes with [x2 >= x1] and [y2 >= y1] it is at most the
    smaller of the two box areas; an empty input list gives an array with
    the matching dimension 0 and no entry. *)
Theorem matrix_intersection_area_spec (boxes1 boxes2 : list Box) :
  shape (matrix_intersection_area boxes1 boxes2)
  = (length boxes1, length boxes2)
  /\ length (data (matrix_intersection_area boxes1 boxes2)) = length boxes1
  /\ Forall (fun row => length row = length boxes2)
       (data (matrix_intersection_area boxes1 boxes2))
  /\ (forall i j a b,
        boxes1 !! i = Some a -> boxes2 !! j = Some b ->
        entry (matrix_intersection_area boxes1 boxes2) i j
        = Some (intersection_area a b)
        /\ 0 <= intersection_area a b
        /\ (axis_aligned a -> axis_aligned b ->
            intersection_area a b <= Qmin (box_area a) (box_area b)))
  /\ (boxes1 = [] \/ boxes2 = [] ->
      concat (data (matrix_intersection_area boxes1 boxes2)) = []).
Proof.
  split; [apply matrix_shape|].
  split; [apply (proj1 (matrix_rows boxes1 boxes2))|].
  split; [apply (proj2 (matrix_rows boxes1 boxes2))|].
  split.
  - intros i j a b Hi Hj.
    split; [apply matrix_entry; assumption|].
    split; [apply intersection_area_nonneg|].
    intros Ha Hb. apply Q.min_glb.
    + apply intersection_area_le_l, Ha.
    + rewrite intersection_area_sym. apply intersection_area_le_l, Hb.
  - intros [-> | ->]; unfold matrix_intersection_area; simpl.
    + reflexivity.
    + rewrite orb_true_r. simpl.
      induction (length boxes1); simpl; auto.
Qed.

Definition boxes_ex1 : list Box := [mkBox 0 0 2 2; mkBox 5 5 6 6].
Definition boxes_ex2 : list Box := [mkBox 1 1 3 3].

(** The matrix of a 2-box list against a 1-box list. *)
Lemma matrix_intersection_area_witness :
  shape (matrix_intersection_area boxes_ex1 boxes_ex2) = (2%nat, 1%nat)
  /\ entry (matrix_intersection_area boxes_ex1 boxes_ex2) 0 0
     = Some (intersection_area (mkBox 0 0 2 2) (mkBox 1 1 3 3))
  /\ intersection_area (mkBox 0 0 2 2) (mkBox 1 1 3 3) == 1
  /\ intersection_area (mkBox 0 0 2 2) (mkBox 1 1 3 3)
     <= Qmin (box_area (mkBox 0 0 2 2)) (box_area (mkBox 1 1 3 3)).
Proof.
  destruct (matrix_intersection_area_spec boxes_ex1 boxes_ex2)
    as (Hs & _ & _ & He & _).
  destruct (He 0%nat 0%nat _ _ eq_refl eq_refl) as (Hentry & _ & Hle).
  split; [exact Hs|].
  split; [exact Hentry|].
  split; [reflexivity|].
  apply Hle; split; simpl; discriminate.
Defined.

(** *** Properties of the reading-order sort *)

Section sorted_props.
Context {B : Type} (key : B -> Q).

Definition key_le (x y : B) : Prop := key x <= key y.
Definition key_lt (x y : B) : Prop := key x < key y.

Lemma insert_sorted_Forall (P : B -> Prop) x l :
  P x -> Forall P l -> Forall P (insert_sorted key x l).
Proof.
  intros Hx Hl. induction Hl as [|y l Hy Hl IH]; simpl.
  - repeat constructor; assumption.
  - destruct (Qle_bool (key x) (key y)); repeat constructor; assumption.
Qed.

Lemma sorted_Forall (P : B -> Prop) l :
  Forall P l -> Forall P (sorted key l).
Proof.
  induction 1 as [|x l Hx Hl IH]; simpl; [constructor|].
  apply insert_sorted_Forall; assumption.
Qed.

Lemma insert_sorted_key_le x l :
  StronglySorted key_le l -> StronglySorted key_le (insert_sorted key x l).
Proof.
  induction 1 as [|y l Hl IH Hy]; simpl.
  - repeat constructor.
  - destruct (Qle_bool (key x) (key y)) eqn:E.
    + apply Qle_bool_iff in E.
      constructor; [constructor; assumption|].
      constructor; [exact E|].
      eapply Forall_impl; [exact Hy|].
      unfold key_le. intros z Hz. simpl in Hz. lra.
    + constructor; [assumption|].
      apply insert_sorted_Forall; [|assumption].
      unfold key_le.
      destruct (Qlt_le_dec (key y) (key x)) as [Hlt|Hle]; [lra|].
      apply Qle_bool_iff in Hle. congruence.
Qed.

Lemma sorted_key_le l : StronglySorted key_le (sorted key l).
Proof.
  induction l as [|x l IH]; simpl; [constructor|].
  apply insert_sorted_key_le, IH.
Qed.

(** Inserting a key that the list does not hold keeps a strictly
    increasing list strictly increasing. *)
Lemma insert_sorted_key_lt x l :
  Forall (fun y => ~ key y == key x) l ->
  StronglySorted key_lt l -> StronglySorted key_lt (insert_sorted key x l).
Proof.
  intros Hne Hl. induction Hl as [|y l Hl IH Hy]; simpl.
  - repeat constructor.
  - apply Forall_cons in Hne as [Hyx Hne].
    destruct (Qle_bool (key x) (key y)) eqn:E.
    + apply Qle_bool_iff in E.
      assert (Hxy : key x < key y).
      { destruct (Qlt_le_dec (key x) (key y)) as [?|Hge]; [assumption|].
        exfalso. apply Hyx. lra. }
      constructor; [constructor; assumption|].
      constructor; [exact Hxy|].
      eapply Forall_impl; [exact Hy|].
      unfold key_lt. intros z Hz. simpl in Hz. lra.
    + constructor; [auto|].
      apply insert_sorted_Forall; [|assumption].
      unfold key_lt.
      destruct (Qlt_le_dec (key y) (key x)) as [Hlt|Hle]; [lra|].
      apply Qle_bool_iff in Hle. congruence.
Qed.

Lemma sorted_key_lt l :
  StronglySorted (fun x y => ~ key x == key y) l ->
  StronglySorted key_lt (sorted key l).
Proof.
  induction 1 as [|x l Hl IH Hx]; simpl; [constructor|].
  apply insert_sorted_key_lt; [|assumption].
  apply sorted_Forall.
  eapply Forall_impl; [exact Hx|].
  intros y Hy Heq. simpl in Hy. apply Hy. lra.
Qed.

(** A list in non-decreasing key order is left as it is. *)
Lemma sorted_id l : StronglySorted key_le l -> sorted key l = l.
Proof.
  induction 1 as [|x l Hl IH Hx]; simpl; [reflexivity|].
  rewrite IH. destruct Hx as [|y l' Hy _]; simpl; [reflexivity|].
  apply Qle_bool_iff in Hy. rewrite Hy. reflexivity.
Qed.

End sorted_props.

Section reading_order.
Context {A : Type} (k1 k2 : A -> Q).

(** The two loops of [sort_text_lines] once the group key is known to
    be computed without an exception. *)
Definition group_pure (d : dict A) (l : list A) : dict A :=
  foldl (fun d x => dict_append (k1 x) x d) d l.

Definition reading_order (l : list A) : list A :=
  concat ((fun kg : Q * list A => sorted k2 kg.2)
          <$> sorted fst (group_pure [] l)).

(** Order of the output: by group key, then by left edge. *)
Definition lex (x y : A) : Prop :=
  k1 x < k1 y \/ (k1 x == k1 y /\ k2 x <= k2 y).

Definition keys_distinct (d : dict A) : Prop :=
  StronglySorted (fun p q : Q * list A => ~ p.1 == q.1) d.

Definition group_ok (d : dict A) : Prop :=
  Forall (fun kg : Q * list A => Forall (fun x => k1 x == kg.1) kg.2) d.

Lemma dict_append_keys (P : Q -> Prop) k (x : A) d :
  P k -> Forall (fun kg : Q * list A => P kg.1) d ->
  Forall (fun kg : Q * list A => P kg.1) (dict_append k x d).
Proof.
  intros Hk Hd. induction Hd as [|[k' g] d Hkg Hd IH]; simpl.
  - repeat constructor. exact Hk.
  - destruct (Qeq_bool k' k); constructor; assumption.
Qed.

Lemma dict_append_distinct k (x : A) d :
  keys_distinct d -> keys_distinct (dict_append k x d).
Proof.
  unfold keys_distinct.
  induction 1 as [|[k' g] d Hd IH Hk]; simpl.
  - repeat constructor.
  - destruct (Qeq_bool k' k) eqn:E.
    + constructor; assumption.
    + constructor; [exact IH|].
      apply (dict_append_keys (fun q => ~ k' == q)); [|exact Hk].
      intros Heq. apply Qeq_bool_iff in Heq. simpl in *. congruence.
Qed.

Lemma dict_append_ok (x : A) d :
  group_ok d -> group_ok (dict_append (k1 x) x d).
Proof.
  unfold group_ok.
  induction 1 as [|[k' g] d Hg Hd IH]; simpl.
  - repeat constructor.
  - destruct (Qeq_bool k' (k1 x)) eqn:E.
    + constructor; [|assumption]. simpl in *.
      apply Forall_app. split; [assumption|].
      repeat constructor. apply Qeq_bool_iff in E. symmetry. exact E.
    + constructor; assumption.
Qed.

Lemma group_pure_inv l : forall d,
  keys_distinct d -> group_ok d ->
  keys_distinct (group_pure d l) /\ group_ok (group_pure d l).
Proof.
  induction l as [|x l IH]; intros d Hd Hok; simpl; [auto|].
  apply IH; [apply dict_append_distinct|apply dict_append_ok]; assumption.
Qed.

Lemma same_group_lex k l :
  Forall (fun x => k1 x == k) l ->
  StronglySorted (key_le k2) l -> StronglySorted lex l.
Proof.
  intros Hk. induction 1 as [|x l Hl IH Hx]; [constructor|].
  apply Forall_cons in Hk as [Hxk Hk].
  constructor; [auto|].
  apply Forall_forall. intros y Hy.
  rewrite Forall_forall in Hx, Hk.
  right. split; [rewrite Hxk, (Hk y Hy); reflexivity|exact (Hx y Hy)].
Qed.

Lemma lex_same_group k l :
  Forall (fun x => k1 x == k) l ->
  StronglySorted lex l -> StronglySorted (key_le k2) l.
Proof.
  intros Hk. induction 1 as [|x l Hl IH Hx]; [constructor|].
  apply Forall_cons in Hk as [Hxk Hk].
  constructor; [auto|].
  apply Forall_forall. intros y Hy.
  rewrite Forall_forall in Hx, Hk.
  destruct (Hx y Hy) as [Hlt|[_ Hle]]; [|exact Hle].
  exfalso. rewrite Hxk, (Hk y Hy) in Hlt. lra.
Qed.

Lemma concat_groups_lex (D : dict A) :
  StronglySorted (key_lt fst) D -> group_ok D ->
  StronglySorted lex
    (concat ((fun kg : Q * list A => sorted k2 kg.2) <$> D)).
Proof.
  unfold group_ok.
  induction 1 as [|[k g] D HD IH Hk]; intros Hok; simpl; [constructor|].
  apply Forall_cons in Hok as [Hg Hok]. simpl in Hg.
  assert (Hg' : Forall (fun x => k1 x == k) (sorted k2 g))
    by (apply sorted_Forall; exact Hg).
  assert (Hrest : Forall (fun y => k < k1 y)
            (concat ((fun kg : Q * list A => sorted k2 kg.2) <$> D))).
  { apply Forall_concat, Forall_fmap, Forall_forall.
    intros [k' g'] Hin. simpl.
    rewrite Forall_forall in Hk, Hok.
    specialize (Hk _ Hin). specialize (Hok _ Hin).
    unfold key_lt in Hk. simpl in Hk, Hok.
    apply sorted_Forall.
    eapply Forall_impl; [exact Hok|].
    intros y Hy. simpl in Hy. rewrite Hy. exact Hk. }
  apply StronglySorted_app_2.
  - intros x1 x2 H1 H2.
    rewrite Forall_forall in Hg', Hrest.
    left. rewrite (Hg' _ H1). exact (Hrest _ H2).
  - apply (same_group_lex k); [exact Hg'|apply sorted_key_le].
  - apply IH, Hok.
Qed.

(** The output is ordered by group key, then by left edge. *)
Lemma reading_order_sorted l : StronglySorted lex (reading_order l).
Proof.
  unfold reading_order.
  destruct (group_pure_inv l []) as [Hd Hok];
    [constructor|constructor|].
  apply concat_groups_lex.
  - apply sorted_key_lt. exact Hd.
  - apply sorted_Forall. exact Hok.
Qed.

(** Appending to a dict whose keys increase strictly and do not exceed
    the new key: the element joins the last group or opens a new last
    group. *)
Lemma dict_append_last k (x : A) (d : dict A) :
  StronglySorted (key_lt fst) d ->
  Forall (fun kg : Q * list A => kg.1 <= k) d ->
  (exists d' k' g, d = d' ++ [(k', g)] /\ k' == k
                   /\ dict_append k x d = d' ++ [(k', g ++ [x])])
  \/ (Forall (fun kg : Q * list A => kg.1 < k) d
      /\ dict_append k x d = d ++ [(k, [x])]).
Proof.
  induction 1 as [|[k' g] d Hd IH Hk]; intros Hle; simpl.
  - right. split; [constructor|reflexivity].
  - apply Forall_cons in Hle as [Hk' Hle]. simpl in Hk'.
    destruct (Qeq_bool k' k) eqn:E.
    + apply Qeq_bool_iff in E. left.
      destruct d as [|[k'' g''] d].
      * exists [], k', g. auto.
      * exfalso.
        apply Forall_cons in Hk as [Hk _].
        apply Forall_cons in Hle as [Hle _].
        unfold key_lt in Hk. simpl in *. lra.
    + assert (Hlt : k' < k).
      { destruct (Qlt_le_dec k' k) as [?|Hge]; [assumption|].
        assert (Heq : k' == k) by lra.
        apply Qeq_bool_iff in Heq. congruence. }
      destruct (IH Hle) as [(d' & k'' & g'' & -> & Heq & ->)|[Hall ->]].
      * left. exists ((k', g) :: d'), k'', g''. auto.
      * right. split; [|reflexivity]. constructor; assumption.
Qed.

(** On a list that is already in output order the first loop cuts the
    list into its runs of equal group key. *)
Definition runs_of (l : list A) (d : dict A) : Prop :=
  concat (snd <$> d) = l
  /\ StronglySorted (key_lt fst) d
  /\ group_ok d
  /\ Forall (fun kg : Q * list A => exists y, y ∈ l /\ k1 y == kg.1) d.

Lemma group_pure_snoc d l x :
  group_pure d (l ++ [x]) = dict_append (k1 x) x (group_pure d l).
Proof. unfold group_pure. rewrite foldl_app. reflexivity. Qed.

Lemma strict_keys_snoc (d : dict A) k g g' :
  StronglySorted (key_lt fst) (d ++ [(k, g)]) ->
  StronglySorted (key_lt fst) (d ++ [(k, g')]).
Proof.
  rewrite !StronglySorted_app. intros (Hc & Hd & _).
  split; [|split; [exact Hd|repeat constructor]].
  intros p q Hp Hq. apply list_elem_of_singleton in Hq. subst q.
  apply (Hc p (k, g) Hp). apply list_elem_of_singleton. reflexivity.
Qed.

Lemma group_pure_runs l :
  StronglySorted lex l -> runs_of l (group_pure [] l).
Proof.
  induction l as [|x l IH] using rev_ind; intros Hl.
  - repeat split; constructor.
  - apply StronglySorted_app in Hl as (Hcross & Hl & _).
    destruct (IH Hl) as (Hcat & Hkeys & Hok & Hwit).
    rewrite group_pure_snoc.
    set (d := group_pure [] l) in *.
    assert (Hle : Forall (fun kg : Q * list A => kg.1 <= k1 x) d).
    { eapply Forall_impl; [exact Hwit|].
      intros kg (y & Hy & Hyk). simpl.
      destruct (Hcross y x Hy) as [Hlt|[Heq _]];
        [apply list_elem_of_singleton; reflexivity|lra|lra]. }
    destruct (dict_append_last (k1 x) x d Hkeys Hle)
      as [(d' & k' & g & Hd & Heq & ->)|[Hall ->]].
    + rewrite Hd in Hcat, Hkeys, Hok, Hwit.
      unfold group_ok in *.
      rewrite Forall_app, Forall_singleton in Hok, Hwit.
      destruct Hok as [Hok Hg]. destruct Hwit as [Hwit (y & Hy & Hyk)].
      simpl in Hg, Hyk.
      rewrite fmap_app, concat_app in Hcat. simpl in Hcat.
      rewrite app_nil_r in Hcat.
      repeat split.
      * rewrite fmap_app, concat_app. simpl.
        rewrite app_nil_r, app_assoc, Hcat. reflexivity.
      * eapply strict_keys_snoc, Hkeys.
      * apply Forall_app. split; [exact Hok|].
        apply Forall_singleton. simpl.
        apply Forall_app. split; [exact Hg|].
        apply Forall_singleton. symmetry. exact Heq.
      * apply Forall_app. split.
        -- eapply Forall_impl; [exact Hwit|].
           intros kg (z & Hz & Hzk). exists z.
           split; [apply elem_of_app; left|]; assumption.
        -- apply Forall_singleton. exists y.
           split; [apply elem_of_app; left|]; assumption.
    + repeat split.
      * rewrite fmap_app, concat_app, Hcat. reflexivity.
      * apply StronglySorted_app_2; [|exact Hkeys|repeat constructor].
        intros p q Hp Hq. apply list_elem_of_singleton in Hq. subst q.
        rewrite Forall_forall in Hall. exact (Hall p Hp).
      * apply Forall_app. split; [exact Hok|]. repeat constructor.
      * apply Forall_app. split.
        -- eapply Forall_impl; [exact Hwit|].
           intros kg (z & Hz & Hzk). exists z.
           split; [apply elem_of_app; left|]; assumption.
        -- apply Forall_singleton. exists x.
           split; [apply elem_of_app; right; constructor|reflexivity].
Qed.

Lemma StronglySorted_concat (R : A -> A -> Prop) (L : list (list A)) :
  StronglySorted R (concat L) -> Forall (StronglySorted R) L.
Proof.
  induction L as [|g L IH]; simpl; intros H; [constructor|].
  apply StronglySorted_app in H as (_ & Hg & HL).
  constructor; auto.
Qed.

Lemma StronglySorted_weaken {B : Type} (R R' : B -> B -> Prop) l :
  (forall x y, R x y -> R' x y) ->
  StronglySorted R l -> StronglySorted R' l.
Proof.
  intros HR. induction 1 as [|x l Hl IH Hx]; constructor; [exact IH|].
  eapply Forall_impl; [exact Hx|]. apply HR.
Qed.

(** A list in output order is left as it is. *)
Lemma reading_order_id l : StronglySorted lex l -> reading_order l = l.
Proof.
  intros Hl. unfold reading_order.
  destruct (group_pure_runs l Hl) as (Hcat & Hkeys & Hok & _).
  set (d := group_pure [] l) in *.
  rewrite sorted_id.
  2:{ eapply StronglySorted_weaken; [|exact Hkeys].
      unfold key_lt, key_le. intros p q Hpq. lra. }
  rewrite <- Hcat at 1. f_equal.
  apply Forall_fmap_ext_1.
  rewrite <- Hcat in Hl. apply StronglySorted_concat in Hl.
  rewrite Forall_fmap in Hl.
  unfold group_ok in Hok. rewrite Forall_forall in Hl, Hok.
  apply Forall_forall. intros kg Hin.
  apply sorted_id, (lex_same_group kg.1); [exact (Hok kg Hin)|].
  exact (Hl kg Hin).
Qed.

Lemma reading_order_idempotent l :
  reading_order (reading_order l) = reading_order l.
Proof. apply reading_order_id, reading_order_sorted. Qed.

End reading_order.

Definition line_key (tolerance : Q) (line : PolygonBox) : Q :=
  inject_Z (py_round (by1 (bbox line) / tolerance)) * tolerance.

Definition left_edge (line : PolygonBox) : Q := bx1 (bbox line).

Lemma group_lines_pure tolerance lines : forall d,
  Qeq_bool tolerance 0 = false ->
  group_lines tolerance lines d
  = Ok (group_pure (line_key tolerance) d lines).
Proof.
  induction lines as [|line rest IH]; intros d Htol; simpl; [reflexivity|].
  unfold group_key. rewrite Htol. simpl. apply IH, Htol.
Qed.

Lemma sort_text_lines_pure lines tolerance :
  Qeq_bool tolerance 0 = false ->
  sort_text_lines lines tolerance
  = Ok (reading_order (line_key tolerance) left_edge lines).
Proof.
  intros Htol. unfold sort_text_lines.
  rewrite group_lines_pure by exact Htol. reflexivity.
Qed.

(** With tolerance 0 the division raises on the first line. *)
Lemma sort_text_lines_zero lines tolerance :
  Qeq_bool tolerance 0 = true ->
  sort_text_lines lines tolerance
  = match lines with [] => Ok [] | _ :: _ => Raise ZeroDivisionError end.
Proof.
  intros Htol. unfold sort_text_lines.
  destruct lines as [|line rest]; simpl; [reflexivity|].
  unfold group_key. rewrite Htol. reflexivity.
Qed.

(** C9. The reading-order sort is idempotent: whatever list a call
    returns, a second call with the same tolerance returns that list in
    the same order; and a call returns a list whenever the tolerance is
    not 0. *)
Theorem sort_text_lines_idempotent (lines : list PolygonBox) (tolerance : Q) :
  (forall sorted_lines,
     sort_text_lines lines tolerance = Ok sorted_lines ->
     sort_text_lines sorted_lines tolerance = Ok sorted_lines)
  /\ (~ tolerance == 0 ->
      exists sorted_lines, sort_text_lines lines tolerance = Ok sorted_lines).
Proof.
  destruct (Qeq_bool tolerance 0) eqn:Htol.
  - split.
    + intros sorted_lines. rewrite !sort_text_lines_zero by exact Htol.
      destruct lines; [|discriminate].
      intros [= <-]. reflexivity.
    + intros Hne. exfalso. apply Hne, Qeq_bool_iff, Htol.
  - split.
    + intros sorted_lines. rewrite !sort_text_lines_pure by exact Htol.
      intros [= <-]. rewrite reading_order_idempotent. reflexivity.
    + intros _. eexists. apply sort_text_lines_pure, Htol.
Qed.

Definition lines_ex : list PolygonBox :=
  [line_at 50 100; line_at 30 0; line_at 0 101; line_at 10 (1 # 2)].

Definition lines_ex_sorted : list PolygonBox :=
  [line_at 10 (1 # 2); line_at 30 0; line_at 50 100; line_at 0 101].

(** Four lines in two rows, with the default tolerance 1.25. *)
Lemma sort_text_lines_idempotent_witness :
  sort_text_lines lines_ex (5 # 4) = Ok lines_ex_sorted
  /\ sort_text_lines lines_ex_sorted (5 # 4) = Ok lines_ex_sorted.
Proof.
  assert (H : sort_text_lines lines_ex (5 # 4) = Ok lines_ex_sorted)
    by (vm_compute; reflexivity).
  split; [exact H|].
  exact (proj1 (sort_text_lines_idempotent lines_ex (5 # 4)) lines_ex_sorted H).
Defined.

(** *** More on the reading-order sort and the intersection matrix *)

Lemma insert_sorted_perm {B : Type} (key : B -> Q) x l :
  insert_sorted key x l ≡ₚ x :: l.
Proof.
  induction l as [|y l IH]; simpl; [reflexivity|].
  destruct (Qle_bool (key x) (key y)); [reflexivity|].
  rewrite IH. apply Permutation_swap.
Qed.

Lemma sorted_perm {B : Type} (key : B -> Q) l : sorted key l ≡ₚ l.
Proof.
  induction l as [|x l IH]; simpl; [reflexivity|].
  rewrite insert_sorted_perm, IH. reflexivity.
Qed.

Lemma dict_append_perm {A : Type} k (x : A) d :
  concat (snd <$> dict_append k x d) ≡ₚ concat (snd <$> d) ++ [x].
Proof.
  induction d as [|[k' g] d IH]; simpl; [reflexivity|].
  destruct (Qeq_bool k' k); simpl.
  - rewrite <- !app_assoc. apply Permutation_app_head, Permutation_app_comm.
  - rewrite IH, app_assoc. reflexivity.
Qed.

Lemma group_pure_perm {A : Type} (k1 : A -> Q) l : forall d,
  concat (snd <$> group_pure k1 d l) ≡ₚ concat (snd <$> d) ++ l.
Proof.
  induction l as [|x l IH]; intros d; simpl.
  - rewrite app_nil_r. reflexivity.
  - rewrite IH, dict_append_perm, <- app_assoc. reflexivity.
Qed.

Lemma concat_sorted_groups_perm {A : Type} (k2 : A -> Q) (d : dict A) :
  concat ((fun kg : Q * list A => sorted k2 kg.2) <$> d) ≡ₚ concat (snd <$> d).
Proof.
  induction d as [|[k g] d IH]; simpl; [reflexivity|].
  rewrite IH, sorted_perm. reflexivity.
Qed.

Lemma concat_groups_perm {A : Type} (d d' : dict A) :
  d ≡ₚ d' -> concat (snd <$> d) ≡ₚ concat (snd <$> d').
Proof.
  induction 1 as [|x l l' _ IH|x y l|l l' l'' _ IH1 _ IH2]; simpl.
  - reflexivity.
  - rewrite IH. reflexivity.
  - rewrite !app_assoc. apply Permutation_app_tail, Permutation_app_comm.
  - etransitivity; eassumption.
Qed.

Lemma reading_order_perm {A : Type} (k1 k2 : A -> Q) l :
  reading_order k1 k2 l ≡ₚ l.
Proof.
  unfold reading_order.
  rewrite concat_sorted_groups_perm.
  rewrite (concat_groups_perm _ _ (sorted_perm fst _)).
  rewrite group_pure_perm. reflexivity.
Qed.

(** X1. Whatever list [sort_text_lines] returns is a permutation of its
    input: no line is lost and none is repeated. *)
Theorem sort_text_lines_permutation (lines sorted_lines : list PolygonBox)
    (tolerance : Q) :
  sort_text_lines lines tolerance = Ok sorted_lines ->
  sorted_lines ≡ₚ lines.
Proof.
  destruct (Qeq_bool tolerance 0) eqn:Htol.
  - rewrite sort_text_lines_zero by exact Htol.
    destruct lines; [|discriminate]. intros [= <-]. reflexivity.
  - rewrite sort_text_lines_pure by exact Htol.
    intros [= <-]. apply reading_order_perm.
Qed.

Lemma sort_text_lines_permutation_witness : lines_ex_sorted ≡ₚ lines_ex.
Proof.
  apply (sort_text_lines_permutation lines_ex lines_ex_sorted (5 # 4)).
  vm_compute. reflexivity.
Defined.

Lemma StronglySorted_lookup_lt {B : Type} (R : B -> B -> Prop) l :
  StronglySorted R l ->
  forall (i j : nat) a b,
    (i < j)%nat -> l !! i = Some a -> l !! j = Some b -> R a b.
Proof.
  induction 1 as [|x l Hl IH Hx]; intros i j a b Hij Ha Hb.
  - discriminate.
  - destruct j as [|j]; [lia|]. destruct i as [|i]; simpl in Ha, Hb.
    + injection Ha as <-.
      rewrite Forall_forall in Hx. eapply Hx, list_elem_of_lookup_2, Hb.
    + apply (IH i j); [lia|assumption|assumption].
Qed.

(** X2. In the list that [sort_text_lines] returns, a line that comes
    before another has a smaller group key
    [round(y1 / tolerance) * tolerance], or the same group key and a
    left edge that is not larger. *)
Theorem sort_text_lines_ordered (lines sorted_lines : list PolygonBox)
    (tolerance : Q) (i j : nat) (a b : PolygonBox) :
  sort_text_lines lines tolerance = Ok sorted_lines ->
  (i < j)%nat ->
  sorted_lines !! i = Some a ->
  sorted_lines !! j = Some b ->
  line_key tolerance a < line_key tolerance b
  \/ (line_key tolerance a == line_key tolerance b
      /\ left_edge a <= left_edge b).
Proof.
  intros Hsort Hij Ha Hb.
  assert (Hs : StronglySorted (lex (line_key tolerance) left_edge) sorted_lines).
  { destruct (Qeq_bool tolerance 0) eqn:Htol.
    - rewrite sort_text_lines_zero in Hsort by exact Htol.
      destruct lines; [|discriminate]. injection Hsort as <-. constructor.
    - rewrite sort_text_lines_pure in Hsort by exact Htol.
      injection Hsort as <-. apply reading_order_sorted. }
  exact (StronglySorted_lookup_lt _ _ Hs i j a b Hij Ha Hb).
Qed.

Lemma sort_text_lines_ordered_witness :
  line_key (5 # 4) (line_at 30 0) < line_key (5 # 4) (line_at 50 100)
  \/ (line_key (5 # 4) (line_at 30 0) == line_key (5 # 4) (line_at 50 100)
      /\ left_edge (line_at 30 0) <= left_edge (line_at 50 100)).
Proof.
  apply (sort_text_lines_ordered lines_ex lines_ex_sorted (5 # 4) 1 2).
  - vm_compute. reflexivity.
  - lia.
  - reflexivity.
  - reflexivity.
Defined.

(** X3. Swapping the two box lists transposes the intersection-area
    matrix: entry (i, j) of one is entry (j, i) of the other. *)
Theorem matrix_intersection_area_transpose (boxes1 boxes2 : list Box)
    (i j : nat) (a b : Box) :
  boxes1 !! i = Some a ->
  boxes2 !! j = Some b ->
  exists x y,
    entry (matrix_intersection_area boxes1 boxes2) i j = Some x
    /\ entry (matrix_intersection_area boxes2 boxes1) j i = Some y
    /\ x == y.
Proof.
  intros Hi Hj.
  exists (intersection_area a b), (intersection_area b a).
  split; [apply matrix_entry; assumption|].
  split; [apply matrix_entry; assumption|].
  apply intersection_area_sym.
Qed.

Lemma matrix_intersection_area_transpose_witness :
  exists x y,
    entry (matrix_intersection_area boxes_ex1 boxes_ex2) 0 0 = Some x
    /\ entry (matrix_intersection_area boxes_ex2 boxes_ex1) 0 0 = Some y
    /\ x == y.
Proof.
  exact (matrix_intersection_area_transpose boxes_ex1 boxes_ex2 0 0 _ _
           eq_refl eq_refl).
Defined.

Lemma Qmax_zero_nonpos q : q <= 0 -> Qmax 0 q == 0.
Proof. intros H. apply Q.max_l, H. Qed.

Lemma Qmax_zero_nonneg q : 0 <= q -> Qmax 0 q == q.
Proof. intros H. apply Q.max_r, H. Qed.

(** X4. The entry for two boxes that do not overlap on the x axis or on
    the y axis is 0, and the entry for an axis-aligned box that lies
    inside the other box is the area of the inner box. *)
Theorem matrix_intersection_area_disjoint_inside (boxes1 boxes2 : list Box)
    (i j : nat) (a b : Box) :
  boxes1 !! i = Some a ->
  boxes2 !! j = Some b ->
  exists x,
    entry (matrix_intersection_area boxes1 boxes2) i j = Some x
    /\ (bx2 a <= bx1 b \/ bx2 b <= bx1 a \/ by2 a <= by1 b \/ by2 b <= by1 a ->
        x == 0)
    /\ (axis_aligned a ->
        bx1 b <= bx1 a -> bx2 a <= bx2 b ->
        by1 b <= by1 a -> by2 a <= by2 b ->
        x == box_area a).
Proof.
  intros Hi Hj. exists (intersection_area a b).
  split; [apply matrix_entry; assumption|].
  unfold intersection_area, box_area.
  pose proof (Q.le_min_l (bx2 a) (bx2 b)). pose proof (Q.le_min_r (bx2 a) (bx2 b)).
  pose proof (Q.le_max_l (bx1 a) (bx1 b)). pose proof (Q.le_max_r (bx1 a) (bx1 b)).
  pose proof (Q.le_min_l (by2 a) (by2 b)). pose proof (Q.le_min_r (by2 a) (by2 b)).
  pose proof (Q.le_max_l (by1 a) (by1 b)). pose proof (Q.le_max_r (by1 a) (by1 b)).
  split.
  - intros [Hd|[Hd|[Hd|Hd]]].
    1,2: rewrite (Qmax_zero_nonpos (Qmin (bx2 a) (bx2 b) - Qmax (bx1 a) (bx1 b)))
           by lra; ring.
    1,2: rewrite (Qmax_zero_nonpos (Qmin (by2 a) (by2 b) - Qmax (by1 a) (by1 b)))
           by lra; ring.
  - intros [Hx Hy] Hx1 Hx2 Hy1 Hy2.
    rewrite (Q.min_l (bx2 a) (bx2 b)), (Q.max_l (bx1 a) (bx1 b)) by assumption.
    rewrite (Q.min_l (by2 a) (by2 b)), (Q.max_l (by1 a) (by1 b)) by assumption.
    rewrite !Qmax_zero_nonneg by lra. reflexivity.
Qed.

Lemma matrix_intersection_area_disjoint_inside_witness :
  exists x,
    entry (matrix_intersection_area boxes_ex1 boxes_ex2) 1 0 = Some x
    /\ x == 0.
Proof.
  destruct (matrix_intersection_area_disjoint_inside boxes_ex1 boxes_ex2 1 0 _ _
              eq_refl eq_refl) as (x & Hx & Hzero & _).
  exists x. split; [exact Hx|].
  apply Hzero. right. left. simpl. discriminate.
Defined.

End Util.

(** ** Python lists and strings *)

Module Py.

Definition list_get {A : Type} (l : list A) (i : nat) : result A :=
  match l !! i with
  | Some x => Ok x
  | None => Raise IndexError
  end.

Definition list_set {A : Type} (l : list A) (i : nat) (x : A) : result (list A) :=
  if decide (i < length l) then Ok (<[i := x]> l) else Raise IndexError.

(** The position a list of length [len] gives to the index [i]: negative
    indices count from the end, anything else out of range raises. *)
Definition index (len : nat) (i : Z) : result nat :=
  if (0 <=? i)%Z then
    if (i <? Z.of_nat len)%Z then Ok (Z.to_nat i) else Raise IndexError
  else
    if (- Z.of_nat len <=? i)%Z then Ok (Z.to_nat (Z.of_nat len + i))
    else Raise IndexError.

(** [foldM]: a [for] loop whose body may raise. *)
Fixpoint for_each {A S : Type} (body : S -> A -> result S) (s : S) (l : list A)
    : result S :=
  match l with
  | [] => Ok s
  | x :: rest => s' ← body s x; for_each body s' rest
  end.

(** [enumerate(l)] *)
Definition enumerate {A : Type} (l : list A) : list (nat * A) :=
  imap (fun i x => (i, x)) l.

(** [str.isspace] on one ASCII character. *)
Definition is_space (c : ascii) : bool :=
  let n := nat_of_ascii c in
  ((9 <=? n) && (n <=? 13) || (28 <=? n) && (n <=? 32))%nat.

Fixpoint lstrip (s : string) : string :=
  match s with
  | EmptyString => EmptyString
  | String c s' => if is_space c then lstrip s' else s
  end.

Fixpoint rstrip (s : string) : string :=
  match s with
  | EmptyString => EmptyString
  | String c s' =>
      match rstrip s' with
      | EmptyString => if is_space c then EmptyString else String c EmptyString
      | r => String c r
      end
  end.

Definition strip (s : string) : string := rstrip (lstrip s).

(** [s.replace(old, new)] for one-character [old] and [new]. *)
Fixpoint replace_char (old new : ascii) (s : string) : string :=
  match s with
  | EmptyString => EmptyString
  | String c s' =>
      String (if Ascii.eqb c old then new else c) (replace_char old new s')
  end.

(** [c * n] for a one-character string [c]. *)
Fixpoint repeat_char (c : ascii) (n : nat) : string :=
  match n with
  | O => EmptyString
  | S n' => String c (repeat_char c n')
  end.

(** [sep.join(l)] *)
Definition join (sep : string) (l : list string) : string :=
  String.concat sep l.

(** Truth value of a string: the empty string is false. *)
Definition truthy (s : string) : bool :=
  match s with
  | EmptyString => false
  | String _ _ => true
  end.

End Py.

(** ** marker/renderers/markdown.py *)

Module Markdown.

Import Py.
Local Open Scope string_scope.

(** A [td] or [th] element: the text [get_formatted_table_text] gives
    for it and its span attributes, [None] for an attribute that is not
    set. Only integer attribute values are modelled. *)
Record Cell : Type := mkCell {
  formatted_text : string;
  rowspan : option Z;
  colspan : option Z
}.

(** A [table] element: its markup, [str(el)], and the cells of its [tr]
    rows. Tables nested in cells are not modelled. *)
Record Table : Type := mkTable {
  el_str : string;
  find_all_tr : list (list Cell)
}.

(** [int(cell.get(name, 1))] *)
Definition int_attr (a : option Z) : Z := default 1%Z a.

Abbreviation Grid := (list (list (option string))).

(** *** Column count *)

(** [rowspan_cols[k]] of a [defaultdict(int)]. *)
Definition dd_get (rowspan_cols : gmap nat Z) (k : nat) : Z :=
  default 0%Z (rowspan_cols !! k).

(** [for r in range(rowspan - 1): rowspan_cols[i + r] += colspan] *)
Definition push_down (i : nat) (rowspan_ colspan_ : Z)
    (rowspan_cols : gmap nat Z) : gmap nat Z :=
  foldl (fun m r => <[(i + r)%nat := (dd_get m (i + r) + colspan_)%Z]> m)
        rowspan_cols (seq 0 (Z.to_nat (rowspan_ - 1))).

(** The loop over the cells of row [i]. *)
Definition count_row (i : nat) (row : list Cell) (rowspan_cols : gmap nat Z)
    : Z * gmap nat Z :=
  foldl (fun (st : Z * gmap nat Z) cell =>
           let colspan_ := int_attr (colspan cell) in
           ((st.1 + colspan_)%Z,
            push_down i (int_attr (rowspan cell)) colspan_ st.2))
        (dd_get rowspan_cols i, rowspan_cols) row.

(** The loop over the rows; returns the list [colspans]. *)
Fixpoint count_rows (i : nat) (rows : list (list Cell))
    (rowspan_cols : gmap nat Z) (colspans : list Z) : list Z :=
  match rows with
  | [] => colspans
  | row :: rest =>
      let st := count_row i row rowspan_cols in
      count_rows (S i) rest st.2 (colspans ++ [st.1])
  end.

(** [max(colspans) if colspans else 0] *)
Definition max_or_zero (colspans : list Z) : Z :=
  match colspans with
  | [] => 0%Z
  | c :: rest => foldl Z.max c rest
  end.

Definition total_cols_of (rows : list (list Cell)) : Z :=
  max_or_zero (count_rows 0 rows ∅ []).

(** *** Grid fill *)

(** Reading [grid[row][col]]. *)
Definition grid_get (grid : Grid) (row : nat) (col : Z) : result (option string) :=
  cells ← list_get grid row;
  j ← index (length cells) col;
  list_get cells j.

(** The assignment [grid[row][col] = v]. *)
Definition grid_set (grid : Grid) (row : nat) (col : Z) (v : option string)
    : result Grid :=
  cells ← list_get grid row;
  j ← index (length cells) col;
  cells' ← list_set cells j v;
  list_set grid row cells'.

(** [while col_idx < total_cols and grid[row_idx][col_idx] is not None:
    col_idx += 1]. Each turn moves [col_idx] one step towards
    [total_cols], so [total_cols - col_idx] turns are enough; [fuel] is
    that number. *)
Fixpoint skip_filled_loop (fuel : nat) (total_cols : Z) (grid : Grid)
    (row_idx : nat) (col_idx : Z) : result Z :=
  match fuel with
  | O => Ok col_idx
  | S fuel' =>
      if (col_idx <? total_cols)%Z then
        v ← grid_get grid row_idx col_idx;
        match v with
        | Some _ => skip_filled_loop fuel' total_cols grid row_idx (col_idx + 1)
        | None => Ok col_idx
        end
      else Ok col_idx
  end.

Definition skip_filled (total_cols : Z) (grid : Grid) (row_idx : nat)
    (col_idx : Z) : result Z :=
  skip_filled_loop (Z.to_nat (total_cols - col_idx)) total_cols grid
                   row_idx col_idx.

(** The cell text as it is written into the grid. *)
Definition cell_value (cell : Cell) : string :=
  strip (replace_char "|" " " (replace_char "010" " " (formatted_text cell))).

(** The body of the two [range] loops: one write under [try]; an
    [IndexError] is logged and the position is left as it was. *)
Definition write_span (row_idx : nat) (col_idx : Z) (value : string)
    (r c : nat) (grid : Grid) : Grid :=
  let v := if (Nat.eqb r 0 && Nat.eqb c 0)%bool then value else "" in
  match grid_set grid (row_idx + r) (col_idx + Z.of_nat c) (Some v) with
  | Ok grid' => grid'
  | Raise _ => grid
  end.

Definition fill_span (row_idx : nat) (col_idx : Z) (value : string)
    (rowspan_ colspan_ : Z) (grid : Grid) : Grid :=
  foldl (fun g r =>
           foldl (fun g c => write_span row_idx col_idx value r c g)
                 g (seq 0 (Z.to_nat colspan_)))
        grid (seq 0 (Z.to_nat rowspan_)).

(** The body of the loop over the cells of a row; the state is the grid
    and [col_idx]. *)
Definition place_cell (total_cols : Z) (row_idx : nat) (st : Grid * Z)
    (cell : Cell) : result (Grid * Z) :=
  col_idx ← skip_filled total_cols st.1 row_idx st.2;
  let value := cell_value cell in
  let rowspan_ := int_attr (rowspan cell) in
  let colspan_ := int_attr (colspan cell) in
  if (total_cols <=? col_idx)%Z then Ok (st.1, col_idx)
  else Ok (fill_span row_idx col_idx value rowspan_ colspan_ st.1,
           (col_idx + colspan_)%Z).

Definition fill_row (total_cols : Z) (grid : Grid) (tr : nat * list Cell)
    : result Grid :=
  st ← for_each (place_cell total_cols tr.1) (grid, 0%Z) tr.2;
  Ok st.1.

(** [[[None for _ in range(total_cols)] for _ in range(total_rows)]] *)
Definition empty_grid (total_rows : nat) (total_cols : Z) : Grid :=
  replicate total_rows (replicate (Z.to_nat total_cols) None).

Definition fill_grid (total_cols : Z) (rows : list (list Cell)) : result Grid :=
  for_each (fill_row total_cols) (empty_grid (length rows) total_cols)
           (enumerate rows).

(** *** Text table *)

(** [len(str(cell))] for a grid entry that is not [None]. *)
Definition widen (col_widths : list nat) (entry : nat * option string)
    : result (list nat) :=
  match entry.2 with
  | Some cell =>
      w ← list_get col_widths entry.1;
      list_set col_widths entry.1 (Nat.max w (String.length cell))
  | None => Ok col_widths
  end.

Definition compute_col_widths (total_cols : Z) (grid : Grid) : result (list nat) :=
  for_each (fun w row => for_each widen w (enumerate row))
           (replicate (Z.to_nat total_cols) 0%nat) grid.

(** [add_header_line]: the line it appends. *)
Definition header_line (col_widths : list nat) : string :=
  "|" ++ join "|" ((fun width => repeat_char "-" (width + 2)) <$> col_widths)
      ++ "|".

(** [all(not cell for cell in row)] *)
Definition is_empty_line (row : list (option string)) : bool :=
  forallb (fun cell => negb (truthy (default "" cell))) row.

Definition format_cell (col_widths : list nat) (entry : nat * option string)
    : result string :=
  let cell := default "" entry.2 in
  w ← list_get col_widths entry.1;
  let padding := (w - String.length cell)%nat in
  Ok (" " ++ cell ++ repeat_char " " padding ++ " ").

Fixpoint format_cells (col_widths : list nat) (entries : list (nat * option string))
    : result (list string) :=
  match entries with
  | [] => Ok []
  | e :: rest =>
      s ← format_cell col_widths e;
      line ← format_cells col_widths rest;
      Ok (s :: line)
  end.

Definition row_line (col_widths : list nat) (row : list (option string))
    : result string :=
  line ← format_cells col_widths (enumerate row);
  Ok ("|" ++ join "|" line ++ "|").

(** The body of the loop that generates the rows; the state is
    [markdown_lines] and [added_header]. *)
Definition emit_row (col_widths : list nat) (st : list string * bool)
    (row : list (option string)) : result (list string * bool) :=
  if (is_empty_line row && negb st.2)%bool then Ok st
  else
    s ← row_line col_widths row;
    let markdown_lines := (st.1 ++ [s])%list in
    if negb st.2 then Ok ((markdown_lines ++ [header_line col_widths])%list, true)
    else Ok (markdown_lines, st.2).

Definition markdown_lines_of (total_rows : nat) (total_cols : Z) (grid : Grid)
    : result (list string) :=
  col_widths ← compute_col_widths total_cols grid;
  st ← for_each (emit_row col_widths) ([], false) grid;
  if Nat.eqb total_rows 1 then Ok (st.1 ++ [header_line col_widths])%list
  else Ok st.1.

Definition nl : string := String "010" EmptyString.

Definition convert_table (html_tables_in_markdown : bool) (el : Table)
    : result string :=
  if html_tables_in_markdown then Ok (nl ++ nl ++ el_str el ++ nl ++ nl)
  else
    let total_rows := length (find_all_tr el) in
    let total_cols := total_cols_of (find_all_tr el) in
    grid ← fill_grid total_cols (find_all_tr el);
    markdown_lines ← markdown_lines_of total_rows total_cols grid;
    Ok (nl ++ nl ++ join nl markdown_lines ++ nl ++ nl).

(** A cell without span attributes, and one with both set. *)
Definition td (text : string) : Cell := mkCell text None None.
Definition td_span (text : string) (rs cs : Z) : Cell :=
  mkCell text (Some rs) (Some cs).

(** *** The column count the specification describes *)

(** Sum of the colspans of the cells of a row. *)
Definition own_cols (row : list Cell) : Z :=
  foldr (fun cell acc => (int_attr (colspan cell) + acc)%Z) 0%Z row.

(** Colspans that the cells of row [i] push down onto row [j]: a cell
    with rowspan [s] reaches the rows [i+1 .. i+s-1]. *)
Definition pushed_from (i j : nat) (row : list Cell) : Z :=
  foldr (fun cell acc =>
           if ((Z.of_nat i <? Z.of_nat j)
               && (Z.of_nat j <=? Z.of_nat i + int_attr (rowspan cell) - 1))%Z%bool
           then (int_attr (colspan cell) + acc)%Z else acc)
        0%Z row.

Definition spec_row_cols (rows : list (list Cell)) (j : nat) (row : list Cell) : Z :=
  (own_cols row
   + foldr Z.add 0 (imap (fun i earlier => pushed_from i j earlier) rows))%Z.

(** The maximum over the rows, 0 for a table without rows. *)
Definition spec_total_cols (rows : list (list Cell)) : Z :=
  max_or_zero (imap (spec_row_cols rows) rows).

(** A spanning cell over a row of two cells. *)
Definition rows_pushdown : list (list Cell) :=
  [[td_span "A" 2 1]; [td "B"; td "C"]].

(** A table of one row and one cell. *)
Definition rows_single : list (list Cell) := [[td "a"]].

(** *** Evaluation of the column count and of the text table *)

(** C2. On a table whose first row is one cell of rowspan 2 and whose
    second row has two cells, the code counts 2 columns where the
    maximum over rows of own plus pushed-down colspans is 3: the loop
    [for r in range(rowspan - 1)] adds to the rows [i .. i+s-2], not to
    [i+1 .. i+s-1]. With 2 columns the last cell of the second row is
    dropped. *)
Theorem total_cols_rowspan_off_by_one :
  total_cols_of rows_pushdown = 2%Z
  /\ spec_total_cols rows_pushdown = 3%Z
  /\ fill_grid (total_cols_of rows_pushdown) rows_pushdown
     = Ok [[Some "A"; None]; [Some ""; Some "B"]].
Proof. repeat split; vm_compute; reflexivity. Qed.

(** C3. For a table of one non-blank row the emitted text has two
    header separator rows: one from the loop, after the first non-blank
    row, and one more from the branch for one-row tables. *)
Theorem single_row_two_header_lines :
  fill_grid (total_cols_of rows_single) rows_single = Ok [[Some "a"]]
  /\ markdown_lines_of 1 1 [[Some "a"]]
     = Ok ["| a |"; header_line [1%nat]; header_line [1%nat]]
  /\ header_line [1%nat] = "|---|"
  /\ convert_table false (mkTable "" rows_single)
     = Ok (nl ++ nl ++ "| a |" ++ nl ++ "|---|" ++ nl ++ "|---|" ++ nl ++ nl).
Proof. repeat split; vm_compute; reflexivity. Qed.

(** The 2 x 2 table with a cell of rowspan 2 in its first row, as first
    or as second cell of that row. *)
Definition rows_span_left (a b c : string) : list (list Cell) :=
  [[td_span a 2 1; td b]; [td c]].

Definition rows_span_right (a b c : string) : list (list Cell) :=
  [[td b; td_span a 2 1]; [td c]].

Example rowspan_two_by_two_text :
  convert_table false (mkTable "" (rows_span_left "A" "B" "C"))
  = Ok (nl ++ nl ++ "| A | B |" ++ nl ++ "|---|---|" ++ nl ++ "|   | C |"
        ++ nl ++ nl).
Proof. vm_compute. reflexivity. Qed.

(** *** Grid fill: shape, frame and anchors *)

(** Entry [(r, c)] of a grid, [None] outside of it. *)
Definition lookup2 (g : Grid) (r c : nat) : option (option string) :=
  g !! r ≫= (.!! c).

Definition shape_ok (n m : nat) (g : Grid) : Prop :=
  length g = n /\ Forall (fun row : list (option string) => length row = m) g.

(** A write that does nothing outside of the grid. *)
Definition set2 (g : Grid) (r c : nat) (v : option string) : Grid :=
  match g !! r with
  | Some cells => <[r := <[c := v]> cells]> g
  | None => g
  end.

Definition wf_cell (cell : Cell) : Prop :=
  (1 <= int_attr (rowspan cell))%Z /\ (1 <= int_attr (colspan cell))%Z.

Lemma index_nonneg len i :
  (0 <= i)%Z ->
  index len i
  = if decide (Z.to_nat i < len) then Ok (Z.to_nat i) else Raise IndexError.
Proof.
  intros Hi. unfold index.
  destruct (Z.leb_spec 0 i); [|lia].
  destruct (Z.ltb_spec i (Z.of_nat len)); destruct (decide _);
    try reflexivity; lia.
Qed.

Lemma write_span_set2 row_idx col_idx value r c g :
  (0 <= col_idx)%Z ->
  write_span row_idx col_idx value r c g
  = set2 g (row_idx + r) (Z.to_nat (col_idx + Z.of_nat c))
         (Some (if (Nat.eqb r 0 && Nat.eqb c 0)%bool then value else "")).
Proof.
  intros Hcol. unfold write_span, grid_set, set2, list_get.
  destruct (g !! (row_idx + r)) as [cells|] eqn:Hrow; simpl; [|reflexivity].
  rewrite index_nonneg by lia.
  destruct (decide (Z.to_nat (col_idx + Z.of_nat c) < length cells)) as [Hlt|Hge];
    simpl.
  - unfold list_set.
    rewrite decide_True by exact Hlt. simpl.
    rewrite decide_True by (eapply lookup_lt_Some, Hrow). reflexivity.
  - rewrite (list_insert_ge cells) by lia.
    rewrite list_insert_id by exact Hrow. reflexivity.
Qed.

Lemma set2_shape n m g r c v : shape_ok n m g -> shape_ok n m (set2 g r c v).
Proof.
  intros [Hn Hm]. unfold set2.
  destruct (g !! r) as [cells|] eqn:Hrow; [|split; assumption].
  split; [rewrite length_insert; exact Hn|].
  apply Forall_insert; [exact Hm|].
  rewrite length_insert.
  exact (Forall_lookup_1 _ _ _ _ Hm Hrow).
Qed.

Lemma lookup2_set2_ne g r c v r' c' :
  (r, c) <> (r', c') -> lookup2 (set2 g r c v) r' c' = lookup2 g r' c'.
Proof.
  intros Hne. unfold lookup2, set2.
  destruct (g !! r) as [cells|] eqn:Hrow; [|reflexivity].
  destruct (decide (r = r')) as [<-|Hr].
  - rewrite list_lookup_insert_eq by (eapply lookup_lt_Some, Hrow).
    rewrite Hrow. simpl.
    apply list_lookup_insert_ne. congruence.
  - rewrite list_lookup_insert_ne by exact Hr. reflexivity.
Qed.

Lemma lookup2_set2_eq n m g r c v :
  shape_ok n m g -> r < n -> c < m ->
  lookup2 (set2 g r c v) r c = Some v.
Proof.
  intros [Hn Hm] Hr Hc. unfold lookup2, set2.
  destruct (g !! r) as [cells|] eqn:Hrow.
  - rewrite list_lookup_insert_eq by (eapply lookup_lt_Some, Hrow). simpl.
    apply list_lookup_insert_eq.
    rewrite (Forall_lookup_1 _ _ _ _ Hm Hrow). exact Hc.
  - apply lookup_ge_None in Hrow. lia.
Qed.

(** The writes of [fill_span], one position at a time. *)
Definition span_writes (row_idx : nat) (col_idx : Z) (value : string)
    (r : nat) (cs : list nat) (g : Grid) : Grid :=
  foldl (fun g c => write_span row_idx col_idx value r c g) g cs.

Lemma span_writes_shape n m row_idx col_idx value r cs : forall g,
  (0 <= col_idx)%Z -> shape_ok n m g ->
  shape_ok n m (span_writes row_idx col_idx value r cs g).
Proof.
  induction cs as [|c cs IH]; intros g Hcol Hg; simpl; [exact Hg|].
  apply IH; [exact Hcol|].
  rewrite write_span_set2 by exact Hcol. apply set2_shape, Hg.
Qed.

Lemma span_writes_other row_idx col_idx value r cs r' c' : forall g,
  (0 <= col_idx)%Z ->
  Forall (fun c => (row_idx + r, Z.to_nat (col_idx + Z.of_nat c)) <> (r', c')) cs ->
  lookup2 (span_writes row_idx col_idx value r cs g) r' c' = lookup2 g r' c'.
Proof.
  induction cs as [|c cs IH]; intros g Hcol Hne; simpl; [reflexivity|].
  apply Forall_cons in Hne as [Hc Hne].
  rewrite IH by assumption.
  rewrite write_span_set2 by exact Hcol.
  apply lookup2_set2_ne, Hc.
Qed.

Lemma fill_span_unfold row_idx col_idx value rowspan_ colspan_ g :
  fill_span row_idx col_idx value rowspan_ colspan_ g
  = foldl (fun g r =>
             span_writes row_idx col_idx value r (seq 0 (Z.to_nat colspan_)) g)
          g (seq 0 (Z.to_nat rowspan_)).
Proof. reflexivity. Qed.

Lemma fill_rows_shape n m row_idx col_idx value cs rs : forall g,
  (0 <= col_idx)%Z -> shape_ok n m g ->
  shape_ok n m
    (foldl (fun g r => span_writes row_idx col_idx value r cs g) g rs).
Proof.
  induction rs as [|r rs IH]; intros g Hcol Hg; simpl; [exact Hg|].
  apply IH; [exact Hcol|]. apply span_writes_shape; assumption.
Qed.

Lemma fill_rows_other row_idx col_idx value cs rs r' c' : forall g,
  (0 <= col_idx)%Z ->
  Forall (fun r =>
    Forall (fun c => (row_idx + r, Z.to_nat (col_idx + Z.of_nat c)) <> (r', c')) cs)
    rs ->
  lookup2 (foldl (fun g r => span_writes row_idx col_idx value r cs g) g rs) r' c'
  = lookup2 g r' c'.
Proof.
  induction rs as [|r rs IH]; intros g Hcol Hne; simpl; [reflexivity|].
  apply Forall_cons in Hne as [Hr Hne].
  rewrite IH by assumption.
  apply span_writes_other; assumption.
Qed.

Lemma fill_span_shape n m row_idx col_idx value rowspan_ colspan_ g :
  (0 <= col_idx)%Z -> shape_ok n m g ->
  shape_ok n m (fill_span row_idx col_idx value rowspan_ colspan_ g).
Proof. intros. rewrite fill_span_unfold. apply fill_rows_shape; assumption. Qed.

(** [fill_span] changes no entry above its row or left of its column. *)
Lemma fill_span_frame row_idx col_idx value rowspan_ colspan_ g r' c' :
  (0 <= col_idx)%Z ->
  r' < row_idx \/ c' < Z.to_nat col_idx ->
  lookup2 (fill_span row_idx col_idx value rowspan_ colspan_ g) r' c'
  = lookup2 g r' c'.
Proof.
  intros Hcol Hout. rewrite fill_span_unfold.
  apply fill_rows_other; [exact Hcol|].
  apply Forall_forall. intros r _. apply Forall_forall. intros c _.
  intros [= Hr Hc]. lia.
Qed.

(** With rowspan and colspan at least 1 the first write puts the value
    at the anchor, and no later write of the span reaches the anchor. *)
Lemma fill_span_anchor n m row_idx col_idx value rowspan_ colspan_ g :
  shape_ok n m g -> (0 <= col_idx)%Z ->
  row_idx < n -> Z.to_nat col_idx < m ->
  (1 <= rowspan_)%Z -> (1 <= colspan_)%Z ->
  lookup2 (fill_span row_idx col_idx value rowspan_ colspan_ g)
          row_idx (Z.to_nat col_idx)
  = Some (Some value).
Proof.
  intros Hg Hcol Hrow Hc Hrs Hcs. rewrite fill_span_unfold.
  destruct (Z.to_nat rowspan_) as [|rs] eqn:Ers; [lia|].
  destruct (Z.to_nat colspan_) as [|cs] eqn:Ecs; [lia|].
  cbn [seq foldl].
  rewrite fill_rows_other; [|exact Hcol|].
  2:{ apply Forall_forall. intros r Hr%elem_of_seq.
      apply Forall_forall. intros c _. intros [= Hr' _]. lia. }
  unfold span_writes at 1. cbn [foldl].
  fold (span_writes row_idx col_idx value 0 (seq 1 cs)
          (write_span row_idx col_idx value 0 0 g)).
  rewrite span_writes_other; [|exact Hcol|].
  2:{ apply Forall_forall. intros c Hc'%elem_of_seq. intros [= _ Hc'']. lia. }
  rewrite write_span_set2 by exact Hcol. cbn [Nat.eqb andb].
  replace (row_idx + 0)%nat with row_idx by lia.
  replace (col_idx + Z.of_nat 0)%Z with col_idx by lia.
  eapply lookup2_set2_eq; eassumption.
Qed.

Section fill.
Context (total_cols : Z) (n : nat).

Let m : nat := Z.to_nat total_cols.

Lemma grid_get_in_range g row_idx col_idx :
  shape_ok n m g -> row_idx < n -> (0 <= col_idx < total_cols)%Z ->
  exists v, grid_get g row_idx col_idx = Ok v.
Proof.
  intros [Hn Hm] Hrow Hcol. unfold grid_get, list_get.
  destruct (g !! row_idx) as [cells|] eqn:Hcells.
  2:{ apply lookup_ge_None in Hcells. lia. }
  pose proof (Forall_lookup_1 _ _ _ _ Hm Hcells) as Hlen. simpl in Hlen.
  simpl. rewrite index_nonneg by lia.
  rewrite decide_True by (subst m; lia). simpl.
  destruct (cells !! Z.to_nat col_idx) as [v|] eqn:Hv; [eauto|].
  apply lookup_ge_None in Hv. subst m. lia.
Qed.

(** The loop that skips filled positions does not raise and does not
    move [col_idx] to the left. *)
Lemma skip_filled_loop_ok g row_idx fuel : forall col_idx,
  shape_ok n m g -> row_idx < n -> (0 <= col_idx)%Z ->
  exists col', skip_filled_loop fuel total_cols g row_idx col_idx = Ok col'
               /\ (col_idx <= col')%Z.
Proof.
  induction fuel as [|fuel IH]; intros col_idx Hg Hrow Hcol; simpl.
  - exists col_idx. split; [reflexivity|lia].
  - destruct (Z.ltb_spec col_idx total_cols) as [Hlt|Hge].
    2:{ exists col_idx. split; [reflexivity|lia]. }
    destruct (grid_get_in_range g row_idx col_idx Hg Hrow) as [v ->]; [lia|].
    simpl. destruct v as [s|].
    + destruct (IH (col_idx + 1)%Z Hg Hrow) as (col' & -> & Hle); [lia|].
      exists col'. split; [reflexivity|lia].
    + exists col_idx. split; [reflexivity|lia].
Qed.

Lemma skip_filled_ok g row_idx col_idx :
  shape_ok n m g -> row_idx < n -> (0 <= col_idx)%Z ->
  exists col', skip_filled total_cols g row_idx col_idx = Ok col'
               /\ (col_idx <= col')%Z.
Proof. apply skip_filled_loop_ok. Qed.

(** One cell: no exception, the shape is kept, [col_idx] does not move
    to the left, and nothing above the row or left of the old [col_idx]
    changes. *)
Lemma place_cell_ok g row_idx col_idx cell :
  shape_ok n m g -> row_idx < n -> (0 <= col_idx)%Z -> wf_cell cell ->
  exists g' col',
    place_cell total_cols row_idx (g, col_idx) cell = Ok (g', col')
    /\ shape_ok n m g' /\ (col_idx <= col')%Z
    /\ forall r c, r < row_idx \/ c < Z.to_nat col_idx ->
                   lookup2 g' r c = lookup2 g r c.
Proof.
  intros Hg Hrow Hcol [Hrs Hcs]. unfold place_cell. cbn [fst snd].
  destruct (skip_filled_ok g row_idx col_idx Hg Hrow Hcol) as (a & -> & Ha).
  simpl.
  destruct (Z.leb_spec total_cols a) as [Hout|Hin].
  - exists g, a. split; [reflexivity|]. split; [exact Hg|].
    split; [exact Ha|reflexivity].
  - eexists _, _. split; [reflexivity|].
    split; [apply fill_span_shape; [lia|exact Hg]|].
    split; [lia|].
    intros r c Hrc. apply fill_span_frame; lia.
Qed.

(** A cell whose anchor column is inside the grid has its value at the
    anchor once it is placed. *)
Lemma place_cell_anchor g row_idx col_idx cell a :
  shape_ok n m g -> row_idx < n -> (0 <= col_idx)%Z -> wf_cell cell ->
  skip_filled total_cols g row_idx col_idx = Ok a ->
  (a < total_cols)%Z ->
  exists g',
    place_cell total_cols row_idx (g, col_idx) cell
    = Ok (g', (a + int_attr (colspan cell))%Z)
    /\ lookup2 g' row_idx (Z.to_nat a) = Some (Some (cell_value cell)).
Proof.
  intros Hg Hrow Hcol [Hrs Hcs] Hskip Hin.
  destruct (skip_filled_ok g row_idx col_idx Hg Hrow Hcol) as (a' & Ha' & Hle).
  rewrite Hskip in Ha'. injection Ha' as <-.
  unfold place_cell. cbn [fst snd]. rewrite Hskip. simpl.
  destruct (Z.leb_spec total_cols a) as [Hout|_]; [lia|].
  eexists. split; [reflexivity|].
  eapply fill_span_anchor; try eassumption; subst m; lia.
Qed.

(** A cell whose anchor column is outside the grid is skipped. *)
Lemma place_cell_skipped g row_idx col_idx cell a :
  skip_filled total_cols g row_idx col_idx = Ok a ->
  (total_cols <= a)%Z ->
  place_cell total_cols row_idx (g, col_idx) cell = Ok (g, a).
Proof.
  intros Hskip Hout. unfold place_cell. cbn [fst snd]. rewrite Hskip. simpl.
  destruct (Z.leb_spec total_cols a); [reflexivity|lia].
Qed.

Lemma place_cells_ok row_idx cells : forall g col_idx,
  shape_ok n m g -> row_idx < n -> (0 <= col_idx)%Z ->
  Forall wf_cell cells ->
  exists g' col',
    for_each (place_cell total_cols row_idx) (g, col_idx) cells = Ok (g', col')
    /\ shape_ok n m g' /\ (col_idx <= col')%Z
    /\ forall r c, r < row_idx \/ c < Z.to_nat col_idx ->
                   lookup2 g' r c = lookup2 g r c.
Proof.
  induction cells as [|cell cells IH]; intros g col_idx Hg Hrow Hcol Hwf; simpl.
  - exists g, col_idx. split; [reflexivity|]. split; [exact Hg|].
    split; [lia|reflexivity].
  - apply Forall_cons in Hwf as [Hcell Hwf].
    destruct (place_cell_ok g row_idx col_idx cell Hg Hrow Hcol Hcell)
      as (g1 & col1 & -> & Hg1 & Hle1 & Hframe1).
    simpl.
    destruct (IH g1 col1 Hg1 Hrow ltac:(lia) Hwf)
      as (g2 & col2 & -> & Hg2 & Hle2 & Hframe2).
    exists g2, col2. split; [reflexivity|].
    split; [exact Hg2|]. split; [lia|].
    intros r c Hrc. rewrite Hframe2 by lia. apply Hframe1, Hrc.
Qed.

Lemma fill_row_ok g row_idx cells :
  shape_ok n m g -> row_idx < n -> Forall wf_cell cells ->
  exists g', fill_row total_cols g (row_idx, cells) = Ok g'
             /\ shape_ok n m g'
             /\ forall r c, r < row_idx -> lookup2 g' r c = lookup2 g r c.
Proof.
  intros Hg Hrow Hwf. unfold fill_row. cbn [fst snd].
  destruct (place_cells_ok row_idx cells g 0%Z Hg Hrow ltac:(lia) Hwf)
    as (g' & col' & -> & Hg' & _ & Hframe).
  exists g'. split; [reflexivity|]. split; [exact Hg'|].
  intros r c Hr. apply Hframe. left. exact Hr.
Qed.

(** The rows from index [k0] on: no exception, the shape is kept, and
    the rows above [k0] do not change. *)
Lemma fill_rows_ok rows : forall k0 g,
  shape_ok n m g -> k0 + length rows <= n ->
  Forall (Forall wf_cell) rows ->
  exists g',
    for_each (fill_row total_cols) g (imap (fun j row => ((k0 + j)%nat, row)) rows)
    = Ok g'
    /\ shape_ok n m g'
    /\ forall r c, r < k0 -> lookup2 g' r c = lookup2 g r c.
Proof.
  induction rows as [|row rows IH]; intros k0 g Hg Hlen Hwf; simpl.
  - exists g. split; [reflexivity|]. split; [exact Hg|reflexivity].
  - apply Forall_cons in Hwf as [Hrow Hwf]. simpl in Hlen.
    replace (k0 + 0)%nat with k0 by lia.
    destruct (fill_row_ok g k0 row Hg ltac:(lia) Hrow) as (g1 & -> & Hg1 & Hf1).
    simpl.
    rewrite (imap_ext _ (fun j row => ((S k0 + j)%nat, row))).
    2:{ intros j x _. simpl. f_equal. lia. }
    destruct (IH (S k0) g1 Hg1 ltac:(lia) Hwf) as (g2 & -> & Hg2 & Hf2).
    exists g2. split; [reflexivity|]. split; [exact Hg2|].
    intros r c Hr. rewrite Hf2 by lia. apply Hf1, Hr.
Qed.

End fill.

Local Close Scope string_scope.

Lemma for_each_app {A S : Type} (body : S -> A -> result S) l1 l2 : forall s,
  for_each body s (l1 ++ l2) = (s' ← for_each body s l1; for_each body s' l2).
Proof.
  induction l1 as [|x l1 IH]; intros s; simpl; [reflexivity|].
  destruct (body s x) as [s1|e]; simpl; [apply IH|reflexivity].
Qed.

Lemma bind_Ok {A B : Type} (a : A) (k : A -> result B) : (Ok a ≫= k) = k a.
Proof. reflexivity. Qed.

Lemma for_each_cons {A S : Type} (body : S -> A -> result S) s x l :
  for_each body s (x :: l) = (s' ← body s x; for_each body s' l).
Proof. reflexivity. Qed.

Lemma fill_row_unfold total_cols g i cells :
  fill_row total_cols g (i, cells)
  = (st ← for_each (place_cell total_cols i) (g, 0%Z) cells; Ok st.1).
Proof. reflexivity. Qed.

Lemma empty_grid_shape total_rows total_cols :
  shape_ok total_rows (Z.to_nat total_cols) (empty_grid total_rows total_cols).
Proof.
  unfold empty_grid. split; [apply length_replicate|].
  apply Forall_replicate, length_replicate.
Qed.

Lemma enumerate_from_zero {A : Type} (l : list A) :
  enumerate l = imap (fun j x => ((0 + j)%nat, x)) l.
Proof. reflexivity. Qed.

Lemma enumerate_middle {A : Type} (l1 l2 : list A) x :
  enumerate (l1 ++ x :: l2)
  = enumerate l1 ++ (length l1, x)
    :: imap (fun j y => ((S (length l1) + j)%nat, y)) l2.
Proof.
  unfold enumerate. rewrite imap_app, imap_cons. f_equal.
  f_equal; [f_equal; lia|].
  apply imap_ext. intros j y _. simpl. f_equal. lia.
Qed.

(** The cells of row [i] in front of a cell, and the grid and [col_idx]
    the loop has reached when it gets to that cell. *)
Definition state_before (total_cols : Z) (rows : list (list Cell)) (i : nat)
    (before : list Cell) : result (Grid * Z) :=
  g0 ← for_each (fill_row total_cols) (empty_grid (length rows) total_cols)
                (enumerate (take i rows));
  for_each (place_cell total_cols i) (g0, 0%Z) before.

(** The grid fill for cells with spans of at least 1: the fill returns a
    grid of the allocated shape; a cell whose anchor column is outside
    the grid is skipped as a whole; a cell whose anchor is inside has its
    value at the anchor in the final grid, whether or not its span
    reaches outside. *)
Lemma fill_grid_total total_cols rows :
  Forall (Forall wf_cell) rows ->
  exists grid,
    fill_grid total_cols rows = Ok grid
    /\ shape_ok (length rows) (Z.to_nat total_cols) grid
    /\ forall i before cell after,
         rows !! i = Some (before ++ cell :: after) ->
         exists g col a,
           state_before total_cols rows i before = Ok (g, col)
           /\ skip_filled total_cols g i col = Ok a
           /\ ((total_cols <= a)%Z ->
               place_cell total_cols i (g, col) cell = Ok (g, a))
           /\ ((a < total_cols)%Z ->
               lookup2 grid i (Z.to_nat a) = Some (Some (cell_value cell))).
Proof.
  intros Hwf.
  set (n := length rows). set (m := Z.to_nat total_cols).
  pose proof (empty_grid_shape n total_cols) as Hempty.
  destruct (fill_rows_ok total_cols n rows 0 _ Hempty ltac:(subst n; lia) Hwf)
    as (grid & Hgrid & Hshape & _).
  rewrite <- enumerate_from_zero in Hgrid.
  exists grid. split; [exact Hgrid|]. split; [exact Hshape|].
  intros i before cell after Hrow.
  pose proof (lookup_lt_Some _ _ _ Hrow) as Hi. fold n in Hi.
  pose proof (take_drop_middle _ _ _ Hrow) as Hsplit.
  assert (Hlen1 : length (take i rows) = i) by (rewrite length_take; lia).
  rewrite <- Hsplit in Hwf.
  apply Forall_app in Hwf as [Hwf1 Hwf2].
  apply Forall_cons in Hwf2 as [Hwfrow Hwf2].
  apply Forall_app in Hwfrow as [Hwfb Hwfc].
  apply Forall_cons in Hwfc as [Hwfcell Hwfa].
  (* the rows above row i *)
  destruct (fill_rows_ok total_cols n (take i rows) 0 _ Hempty
              ltac:(lia) Hwf1) as (g0 & Hg0 & Hs0 & _).
  rewrite <- enumerate_from_zero in Hg0.
  (* the cells in front of the cell *)
  destruct (place_cells_ok total_cols n i before g0 0%Z Hs0 Hi ltac:(lia) Hwfb)
    as (g & col & Hbefore & Hs & Hcol & _).
  destruct (skip_filled_ok total_cols n g i col Hs Hi Hcol) as (a & Hskip & Ha).
  exists g, col, a.
  split; [unfold state_before; fold n; rewrite Hg0; exact Hbefore|].
  split; [exact Hskip|].
  split; [apply place_cell_skipped, Hskip|].
  intros Hin.
  destruct (place_cell_anchor total_cols n g i col cell a Hs Hi Hcol Hwfcell
              Hskip Hin) as (g1 & Hplace & Hanchor).
  destruct (place_cell_ok total_cols n g i col cell Hs Hi Hcol Hwfcell)
    as (g1' & col1 & Hplace' & Hs1 & _ & _).
  rewrite Hplace in Hplace'. injection Hplace' as <- <-.
  destruct Hwfcell as [_ Hcs].
  (* the cells behind the cell *)
  destruct (place_cells_ok total_cols n i after g1
              (a + int_attr (colspan cell))%Z Hs1 Hi ltac:(lia) Hwfa)
    as (g2 & col2 & Hafter & Hs2 & _ & Hframe2).
  (* the rows below row i *)
  destruct (fill_rows_ok total_cols n (drop (S i) rows) (S i) g2 Hs2)
    as (g3 & Hbelow & _ & Hframe3); [|exact Hwf2|].
  { rewrite length_drop. lia. }
  assert (Hall : fill_grid total_cols rows = Ok g3).
  { unfold fill_grid. fold n. rewrite <- Hsplit at 1.
    rewrite enumerate_middle, Hlen1, for_each_app, Hg0, bind_Ok.
    rewrite for_each_cons, fill_row_unfold.
    rewrite for_each_app, Hbefore, bind_Ok.
    rewrite for_each_cons, Hplace, bind_Ok, Hafter, !bind_Ok.
    exact Hbelow. }
  unfold fill_grid in Hall. fold n in Hall.
  rewrite Hgrid in Hall. injection Hall as ->.
  rewrite Hframe3 by lia. rewrite Hframe2 by lia. exact Hanchor.
Qed.

(** *** Grid fill: the positions a span covers *)



















(** *** The emitted lines *)

(** The text of one cell and of one row, when the row is not longer than
    [col_widths]. *)
Definition cell_text (col_widths : list nat) (i : nat) (entry : option string)
    : string :=
  let cell := default ""%string entry in
  (" " ++ cell
   ++ repeat_char " " (default 0 (col_widths !! i) - String.length cell)
   ++ " ")%string.

Definition row_text (col_widths : list nat) (row : list (option string)) : string :=
  ("|" ++ join "|" (imap (cell_text col_widths) row) ++ "|")%string.

(** The rows after the leading blank rows. *)
Fixpoint skip_blank (grid : Grid) : Grid :=
  match grid with
  | [] => []
  | row :: rest => if is_empty_line row then skip_blank rest else grid
  end.

(** The lines of the row loop: the first non-blank row, the header
    separator, the rows after it. *)
Definition emitted_lines (col_widths : list nat) (grid : Grid) : list string :=
  match skip_blank grid with
  | [] => []
  | row :: rest =>
      row_text col_widths row :: header_line col_widths
      :: (row_text col_widths <$> rest)
  end.

Lemma format_cells_ok col_widths row : forall k,
  k + length row <= length col_widths ->
  format_cells col_widths (imap (fun i x => ((k + i)%nat, x)) row)
  = Ok (imap (fun i x => cell_text col_widths (k + i) x) row).
Proof.
  induction row as [|x row IH]; intros k Hk; [reflexivity|].
  simpl in Hk. rewrite !imap_cons. cbn [format_cells].
  unfold format_cell at 1. cbn [fst snd]. unfold list_get.
  destruct (col_widths !! (k + 0)%nat) as [w|] eqn:Hw.
  2:{ apply lookup_ge_None in Hw. lia. }
  rewrite bind_Ok.
  rewrite (imap_ext _ (fun i x => ((S k + i)%nat, x)))
    by (intros; simpl; f_equal; lia).
  rewrite IH by lia. rewrite !bind_Ok.
  unfold cell_text at 2. rewrite Hw. do 2 f_equal.
  apply imap_ext. intros i y _. simpl. f_equal. lia.
Qed.

Lemma row_line_ok col_widths row :
  length row <= length col_widths ->
  row_line col_widths row = Ok (row_text col_widths row).
Proof.
  intros Hlen. unfold row_line. rewrite enumerate_from_zero.
  rewrite (format_cells_ok col_widths row 0) by lia. reflexivity.
Qed.

(** After the header is added every row becomes one line. *)
Lemma emit_row_after_header col_widths lines row :
  length row <= length col_widths ->
  emit_row col_widths (lines, true) row
  = Ok (lines ++ [row_text col_widths row], true).
Proof.
  intros Hrow. unfold emit_row. cbn [fst snd negb].
  rewrite andb_false_r, (row_line_ok _ _ Hrow). reflexivity.
Qed.

Lemma emit_row_before_header col_widths row :
  length row <= length col_widths ->
  emit_row col_widths ([], false) row
  = if is_empty_line row then Ok ([], false)
    else Ok ([row_text col_widths row; header_line col_widths], true).
Proof.
  intros Hrow. unfold emit_row. cbn [fst snd negb].
  rewrite andb_true_r.
  destruct (is_empty_line row); [reflexivity|].
  rewrite (row_line_ok _ _ Hrow). reflexivity.
Qed.

(** After the header is added every row becomes one line. *)
Lemma emit_rows_after_header col_widths grid : forall lines,
  Forall (fun row : list (option string) => length row <= length col_widths) grid ->
  for_each (emit_row col_widths) (lines, true) grid
  = Ok (lines ++ (row_text col_widths <$> grid), true).
Proof.
  induction grid as [|row grid IH]; intros lines Hlen.
  - cbn [for_each fmap list_fmap]. rewrite app_nil_r. reflexivity.
  - apply Forall_cons in Hlen as [Hrow Hlen].
    rewrite for_each_cons, (emit_row_after_header _ _ _ Hrow), bind_Ok.
    rewrite (IH _ Hlen), fmap_cons, <- app_assoc. reflexivity.
Qed.

Lemma emit_rows_ok col_widths grid :
  Forall (fun row : list (option string) => length row <= length col_widths) grid ->
  exists added,
    for_each (emit_row col_widths) ([], false) grid
    = Ok (emitted_lines col_widths grid, added).
Proof.
  unfold emitted_lines.
  induction grid as [|row grid IH]; intros Hlen.
  - exists false. reflexivity.
  - apply Forall_cons in Hlen as [Hrow Hlen].
    rewrite for_each_cons, (emit_row_before_header _ _ Hrow).
    cbn [skip_blank].
    destruct (is_empty_line row).
    + rewrite bind_Ok. apply IH, Hlen.
    + rewrite bind_Ok, (emit_rows_after_header _ _ _ Hlen).
      exists true. reflexivity.
Qed.

Lemma widen_in_range col_widths i entry :
  i < length col_widths ->
  exists w, widen col_widths (i, entry) = Ok w
            /\ length w = length col_widths.
Proof.
  intros Hi. unfold widen. cbn [fst snd].
  destruct entry as [cell|]; [|eauto].
  unfold list_get, list_set.
  destruct (col_widths !! i) as [w0|] eqn:Hw.
  2:{ apply lookup_ge_None in Hw. lia. }
  rewrite bind_Ok, decide_True by lia.
  eexists. split; [reflexivity|apply length_insert].
Qed.

Lemma widen_ok row : forall col_widths k,
  k + length row <= length col_widths ->
  exists w, for_each widen col_widths (imap (fun i x => ((k + i)%nat, x)) row)
            = Ok w
            /\ length w = length col_widths.
Proof.
  induction row as [|x row IH]; intros col_widths k Hk.
  - exists col_widths. split; reflexivity.
  - simpl in Hk. rewrite imap_cons, for_each_cons.
    rewrite (imap_ext _ (fun i x => ((S k + i)%nat, x)))
      by (intros; simpl; f_equal; lia).
    destruct (widen_in_range col_widths (k + 0) x) as (w1 & -> & Hlen1); [lia|].
    rewrite bind_Ok.
    destruct (IH w1 (S k)) as (w & Hw & Hlen); [lia|].
    exists w. split; [exact Hw|lia].
Qed.

Lemma compute_col_widths_ok total_cols n grid :
  shape_ok n (Z.to_nat total_cols) grid ->
  exists col_widths,
    compute_col_widths total_cols grid = Ok col_widths
    /\ length col_widths = Z.to_nat total_cols.
Proof.
  intros [_ Hm]. unfold compute_col_widths.
  assert (Hgen : forall w0, length w0 = Z.to_nat total_cols ->
            exists w, for_each (fun w row => for_each widen w (enumerate row))
                               w0 grid = Ok w
                      /\ length w = Z.to_nat total_cols).
  { induction Hm as [|row grid Hrow Hm IH]; intros w0 Hw0.
    - exists w0. split; [reflexivity|exact Hw0].
    - rewrite for_each_cons, enumerate_from_zero.
      destruct (widen_ok row w0 0) as (w1 & Hw1 & Hlen1); [lia|].
      rewrite Hw1, bind_Ok.
      apply IH. lia. }
  apply Hgen, length_replicate.
Qed.

(** The lines of the text table for a grid of the allocated shape: the
    lines of the row loop, and for a table of one row the header
    separator once more. *)
Lemma markdown_lines_spec total_rows total_cols grid :
  shape_ok total_rows (Z.to_nat total_cols) grid ->
  exists col_widths,
    compute_col_widths total_cols grid = Ok col_widths
    /\ length col_widths = Z.to_nat total_cols
    /\ markdown_lines_of total_rows total_cols grid
       = Ok (emitted_lines col_widths grid
             ++ if Nat.eqb total_rows 1 then [header_line col_widths] else []).
Proof.
  intros Hshape.
  destruct (compute_col_widths_ok _ _ _ Hshape) as (w & Hw & Hlen).
  exists w. split; [exact Hw|]. split; [exact Hlen|].
  unfold markdown_lines_of. rewrite Hw, bind_Ok.
  destruct (emit_rows_ok w grid) as [added ->].
  { destruct Hshape as [_ Hm]. eapply Forall_impl; [exact Hm|].
    intros row Hrow. simpl in Hrow. lia. }
  rewrite bind_Ok. cbn [fst].
  destruct (Nat.eqb total_rows 1); [reflexivity|].
  rewrite app_nil_r. reflexivity.
Qed.

(** A table with more or fewer rows than one: the header separator is
    emitted once, right after the first non-blank row. *)
Lemma header_once_unless_one_row total_rows total_cols grid :
  shape_ok total_rows (Z.to_nat total_cols) grid ->
  total_rows <> 1 ->
  exists col_widths,
    compute_col_widths total_cols grid = Ok col_widths
    /\ markdown_lines_of total_rows total_cols grid
       = Ok (emitted_lines col_widths grid).
Proof.
  intros Hshape Hrows.
  destruct (markdown_lines_spec _ _ _ Hshape) as (w & Hw & _ & Hlines).
  exists w. split; [exact Hw|]. rewrite Hlines.
  destruct (Nat.eqb_spec total_rows 1); [contradiction|].
  rewrite app_nil_r. reflexivity.
Qed.

(** A table of one non-blank row: the header separator is emitted
    twice. *)
Lemma header_twice_for_one_row total_cols row :
  length row = Z.to_nat total_cols ->
  is_empty_line row = false ->
  exists col_widths,
    compute_col_widths total_cols [row] = Ok col_widths
    /\ markdown_lines_of 1 total_cols [row]
       = Ok [row_text col_widths row; header_line col_widths;
             header_line col_widths].
Proof.
  intros Hlen Hrow.
  destruct (markdown_lines_spec 1 total_cols [row]) as (w & Hw & _ & Hlines).
  { split; [reflexivity|]. repeat constructor. exact Hlen. }
  exists w. split; [exact Hw|]. rewrite Hlines.
  unfold emitted_lines. cbn [skip_blank]. rewrite Hrow. reflexivity.
Qed.

(** *** The 2 x 2 table with a rowspan, written out *)

(** The table text as the specification describes it, written with
    string operations only, to compare with what the code builds. *)

(** [n] times the character [c]. *)
Fixpoint run (c : ascii) (n : nat) : string :=
  match n with
  | O => EmptyString
  | S n' => String c (run c n')
  end.

(** The value of a cell: newlines and bars become spaces, then the text
    is stripped. *)
Definition spec_value (text : string) : string :=
  strip (replace_char "|" " " (replace_char "010" " " text)).

(** A cell padded to the width of its column, between two spaces. *)
Definition spec_padded (width : nat) (text : string) : string :=
  (" " ++ text ++ run " " (width - String.length text) ++ " ")%string.

Definition spec_row (w0 w1 : nat) (x y : string) : string :=
  ("|" ++ spec_padded w0 x ++ "|" ++ spec_padded w1 y ++ "|")%string.

Definition spec_separator (w0 w1 : nat) : string :=
  ("|" ++ run "-" (w0 + 2) ++ "|" ++ run "-" (w1 + 2) ++ "|")%string.

Definition blank (x : string) : bool :=
  match x with
  | EmptyString => true
  | String _ _ => false
  end.

(** The lines for the grid [[x00, x01], [x10, x11]]: leading rows
    without text are left out, the separator follows the first row that
    is written. *)
Definition spec_lines (x00 x01 x10 x11 : string) : list string :=
  let w0 := Nat.max (String.length x00) (String.length x10) in
  let w1 := Nat.max (String.length x01) (String.length x11) in
  if (blank x00 && blank x01)%bool then
    if (blank x10 && blank x11)%bool then []
    else [spec_row w0 w1 x10 x11; spec_separator w0 w1]
  else [spec_row w0 w1 x00 x01; spec_separator w0 w1; spec_row w0 w1 x10 x11].

Lemma repeat_char_run c n : repeat_char c n = run c n.
Proof. induction n as [|n IH]; simpl; [reflexivity|]. rewrite IH. reflexivity. Qed.

Lemma string_app_assoc (a b c : string) :
  ((a ++ b) ++ c)%string = (a ++ b ++ c)%string.
Proof.
  induction a as [|x a IH]; [reflexivity|].
  change (String x ((a ++ b) ++ c)%string = String x (a ++ b ++ c)%string).
  rewrite IH. reflexivity.
Qed.

Lemma row_text_two (w0 w1 : nat) (x y : string) :
  row_text [w0; w1] [Some x; Some y] = spec_row w0 w1 x y.
Proof.
  unfold row_text.
  change (imap (cell_text [w0; w1]) [Some x; Some y])
    with [cell_text [w0; w1] 0 (Some x); cell_text [w0; w1] 1 (Some y)].
  change (cell_text [w0; w1] 0 (Some x))
    with (" " ++ x ++ repeat_char " " (w0 - String.length x) ++ " ")%string.
  change (cell_text [w0; w1] 1 (Some y))
    with (" " ++ y ++ repeat_char " " (w1 - String.length y) ++ " ")%string.
  match goal with
  | |- context [join ?sep [?u; ?v]] =>
      change (join sep [u; v]) with (u ++ sep ++ v)%string
  end.
  unfold spec_row, spec_padded.
  rewrite (repeat_char_run " " (w0 - String.length x)),
    (repeat_char_run " " (w1 - String.length y)), !string_app_assoc.
  reflexivity.
Qed.

Lemma header_line_two (w0 w1 : nat) :
  header_line [w0; w1] = spec_separator w0 w1.
Proof.
  unfold header_line.
  change ((fun width => repeat_char "-" (width + 2)) <$> [w0; w1])
    with [repeat_char "-" (w0 + 2); repeat_char "-" (w1 + 2)].
  match goal with
  | |- context [join ?sep [?u; ?v]] =>
      change (join sep [u; v]) with (u ++ sep ++ v)%string
  end.
  unfold spec_separator.
  rewrite (repeat_char_run "-" (w0 + 2)), (repeat_char_run "-" (w1 + 2)),
    !string_app_assoc.
  reflexivity.
Qed.

Lemma is_empty_line_two (x y : string) :
  is_empty_line [Some x; Some y] = (blank x && blank y)%bool.
Proof. destruct x, y; reflexivity. Qed.

(** The lines of a grid of two rows and two columns with no [None]. *)
Lemma markdown_lines_two_by_two (x00 x01 x10 x11 : string) :
  markdown_lines_of 2 2 [[Some x00; Some x01]; [Some x10; Some x11]]
  = Ok (spec_lines x00 x01 x10 x11).
Proof.
  destruct (header_once_unless_one_row 2 2
              [[Some x00; Some x01]; [Some x10; Some x11]])
    as (w & Hw & ->).
  { split; [reflexivity|]. repeat constructor. }
  { discriminate. }
  assert (Hw' : compute_col_widths 2 [[Some x00; Some x01]; [Some x10; Some x11]]
                = Ok [Nat.max (String.length x00) (String.length x10);
                      Nat.max (String.length x01) (String.length x11)])
    by reflexivity.
  rewrite Hw' in Hw. injection Hw as <-.
  unfold emitted_lines, spec_lines. cbn [skip_blank].
  rewrite !is_empty_line_two.
  destruct (blank x00 && blank x01)%bool.
  - destruct (blank x10 && blank x11)%bool; [reflexivity|].
    cbn [fmap list_fmap]. rewrite row_text_two, header_line_two. reflexivity.
  - cbn [fmap list_fmap]. rewrite !row_text_two, header_line_two. reflexivity.
Qed.

(** C4. In the 2 x 2 table whose first row has a cell of rowspan 2 and
    colspan 1, as first or as second cell of that row, for all cell
    texts: the column count is 2; the value of the spanning cell is
    written once, at its anchor, and the position under it holds the
    empty string; the emitted lines are the first row that has text,
    the header separator right after it, and the other row; and the
    table text is these lines between blank lines. *)
Theorem rowspan_two_by_two (a b c markup : string) :
  (total_cols_of (rows_span_left a b c) = 2%Z
   /\ fill_grid 2 (rows_span_left a b c)
      = Ok [[Some (spec_value a); Some (spec_value b)];
            [Some ""%string; Some (spec_value c)]]
   /\ markdown_lines_of 2 2
        [[Some (spec_value a); Some (spec_value b)];
         [Some ""%string; Some (spec_value c)]]
      = Ok (spec_lines (spec_value a) (spec_value b) "" (spec_value c))
   /\ convert_table false (mkTable markup (rows_span_left a b c))
      = Ok (nl ++ nl
            ++ join nl (spec_lines (spec_value a) (spec_value b) ""
                          (spec_value c))
            ++ nl ++ nl)%string)
  /\ (total_cols_of (rows_span_right a b c) = 2%Z
      /\ fill_grid 2 (rows_span_right a b c)
         = Ok [[Some (spec_value b); Some (spec_value a)];
               [Some (spec_value c); Some ""%string]]
      /\ markdown_lines_of 2 2
           [[Some (spec_value b); Some (spec_value a)];
            [Some (spec_value c); Some ""%string]]
         = Ok (spec_lines (spec_value b) (spec_value a) (spec_value c) "")
      /\ convert_table false (mkTable markup (rows_span_right a b c))
         = Ok (nl ++ nl
               ++ join nl (spec_lines (spec_value b) (spec_value a)
                             (spec_value c) "")
               ++ nl ++ nl)%string).
Proof.
  assert (Hcl : total_cols_of (rows_span_left a b c) = 2%Z) by reflexivity.
  assert (Hcr : total_cols_of (rows_span_right a b c) = 2%Z) by reflexivity.
  assert (Hgl : fill_grid 2 (rows_span_left a b c)
                = Ok [[Some (spec_value a); Some (spec_value b)];
                      [Some ""%string; Some (spec_value c)]])
    by (vm_compute; reflexivity).
  assert (Hgr : fill_grid 2 (rows_span_right a b c)
                = Ok [[Some (spec_value b); Some (spec_value a)];
                      [Some (spec_value c); Some ""%string]])
    by (vm_compute; reflexivity).
  split.
  - split; [exact Hcl|]. split; [exact Hgl|].
    split; [apply markdown_lines_two_by_two|].
    unfold convert_table. cbn [find_all_tr]. rewrite Hcl, Hgl, bind_Ok.
    change (length (rows_span_left a b c)) with 2.
    rewrite markdown_lines_two_by_two, bind_Ok. reflexivity.
  - split; [exact Hcr|]. split; [exact Hgr|].
    split; [apply markdown_lines_two_by_two|].
    unfold convert_table. cbn [find_all_tr]. rewrite Hcr, Hgr, bind_Ok.
    change (length (rows_span_right a b c)) with 2.
    rewrite markdown_lines_two_by_two, bind_Ok. reflexivity.
Qed.

(** *** The column count of the code in closed form *)

(** What the cells of row [i] add to [rowspan_cols[k]]: the loop
    [for r in range(rowspan - 1)] reaches the keys [i .. i+s-2]. *)
Definition code_pushed_from (i k : nat) (row : list Cell) : Z :=
  foldr (fun cell acc =>
           if bool_decide (Z.of_nat i <= Z.of_nat k
                           <= Z.of_nat i + int_attr (rowspan cell) - 2)%Z
           then (int_attr (colspan cell) + acc)%Z else acc)
        0%Z row.

(** The list [colspans] for the rows from index [i] on, when
    [rowspan_cols[k]] is [pushed k] at the start. *)
Fixpoint rows_cols (i : nat) (rows : list (list Cell)) (pushed : nat -> Z)
    : list Z :=
  match rows with
  | [] => []
  | row :: rest =>
      (pushed i + own_cols row)%Z
      :: rows_cols (S i) rest (fun k => (pushed k + code_pushed_from i k row)%Z)
  end.

Lemma dd_get_insert (m : gmap nat Z) j v k :
  dd_get (<[j := v]> m) k = if decide (j = k) then v else dd_get m k.
Proof.
  unfold dd_get. rewrite lookup_insert.
  destruct (decide (j = k)); reflexivity.
Qed.

Lemma push_down_loop i c n : forall a (m : gmap nat Z) k,
  dd_get (foldl (fun m r => <[(i + r)%nat := (dd_get m (i + r) + c)%Z]> m)
                m (seq a n)) k
  = (dd_get m k + if bool_decide (i + a <= k < i + a + n)%nat then c else 0)%Z.
Proof.
  induction n as [|n IH]; intros a m k; simpl.
  - rewrite bool_decide_eq_false_2 by lia. lia.
  - rewrite IH, dd_get_insert.
    destruct (decide (i + a = k)) as [<-|Hne];
      repeat case_bool_decide; lia.
Qed.

Lemma push_down_get i s c (m : gmap nat Z) k :
  dd_get (push_down i s c m) k
  = (dd_get m k
     + if bool_decide (Z.of_nat i <= Z.of_nat k <= Z.of_nat i + s - 2)%Z
       then c else 0)%Z.
Proof.
  unfold push_down. rewrite push_down_loop.
  repeat case_bool_decide; lia.
Qed.

Lemma count_row_spec i row : forall (acc : Z) (m : gmap nat Z),
  let st :=
    foldl (fun (st : Z * gmap nat Z) cell =>
             ((st.1 + int_attr (colspan cell))%Z,
              push_down i (int_attr (rowspan cell)) (int_attr (colspan cell)) st.2))
          (acc, m) row in
  st.1 = (acc + own_cols row)%Z
  /\ forall k, dd_get st.2 k = (dd_get m k + code_pushed_from i k row)%Z.
Proof.
  induction row as [|cell row IH]; intros acc m; simpl.
  - split; [lia|intros k; lia].
  - destruct (IH (acc + int_attr (colspan cell))%Z
                (push_down i (int_attr (rowspan cell)) (int_attr (colspan cell)) m))
      as [H1 H2].
    split; [rewrite H1; lia|].
    intros k. rewrite H2, push_down_get.
    case_bool_decide; lia.
Qed.

Lemma count_rows_spec rows : forall i (m : gmap nat Z) pushed colspans,
  (forall k, dd_get m k = pushed k) ->
  count_rows i rows m colspans = colspans ++ rows_cols i rows pushed.
Proof.
  induction rows as [|row rows IH]; intros i m pushed colspans Hm; simpl.
  - rewrite app_nil_r. reflexivity.
  - destruct (count_row_spec i row (dd_get m i) m) as [H1 H2].
    unfold count_row.
    rewrite (IH (S i) _ (fun k => (pushed k + code_pushed_from i k row)%Z)).
    + rewrite <- app_assoc. simpl. rewrite H1, Hm. reflexivity.
    + intros k. rewrite H2, Hm. reflexivity.
Qed.

(** The column count of the code: the maximum over the rows of the
    row's own colspans plus the colspans of the cells in earlier rows
    [i] whose rowspan [s] satisfies [j <= i + s - 2]. *)
Lemma total_cols_of_closed_form rows :
  total_cols_of rows = max_or_zero (rows_cols 0 rows (fun _ => 0%Z)).
Proof.
  unfold total_cols_of.
  rewrite (count_rows_spec rows 0 ∅ (fun _ => 0%Z) []); reflexivity.
Qed.

End Markdown.

(** ** marker/providers/__init__.py *)

Module Providers.

Import Polygon.

(** *** The object store *)

(** [Span] and [Char] blocks (marker/schema/text) are never changed by
    the code below; they are kept as values. *)
Record Span : Type := mkSpan { span_text : string }.
Record Char : Type := mkChar { char_text : string; char_idx : Z }.

Definition loc : Type := nat.

(** The objects that [merge] reads or changes: a [Line] with its
    [polygon] attribute, the list behind [spans], the list behind
    [chars], and a [ProviderOutput] with its three attributes. *)
Inductive object : Type :=
| OLine (polygon : PolygonBox) (page_id : Z)
| OSpans (items : list Span)
| OChars (items : list (list Char))
| OProviderOutput (line : loc) (spans : loc) (chars : option loc).

(** The heap: an object lives at its index, a new object goes to the
    end. *)
Definition heap : Type := list object.

(** Heap computations; [None] is a reference that does not point to an
    object of the expected class, which a well-typed heap excludes. *)
Definition M (A : Type) : Type := heap -> option (A * heap).

Definition ret {A : Type} (a : A) : M A := fun h => Some (a, h).

Definition bind {A B : Type} (m : M A) (k : A -> M B) : M B :=
  fun h => match m h with
           | Some (a, h') => k a h'
           | None => None
           end.

Notation "'let*' x := m 'in' k" := (bind m (fun x => k))
  (at level 10, x pattern, m at level 100, k at level 200).

Definition fail {A : Type} : M A := fun _ => None.

Definition alloc (o : object) : M loc :=
  fun h => Some (length h, h ++ [o]).

Definition read (l : loc) : M object :=
  fun h => match h !! l with
           | Some o => Some (o, h)
           | None => None
           end.

Definition write (l : loc) (o : object) : M unit :=
  fun h => if decide (l < length h) then Some (tt, <[l := o]> h) else None.

Definition read_line (l : loc) : M (PolygonBox * Z) :=
  let* o := read l in
  match o with OLine polygon page_id => ret (polygon, page_id) | _ => fail end.

Definition read_spans (l : loc) : M (list Span) :=
  let* o := read l in
  match o with OSpans items => ret items | _ => fail end.

Definition read_chars (l : loc) : M (list (list Char)) :=
  let* o := read l in
  match o with OChars items => ret items | _ => fail end.

Definition read_output (l : loc) : M (loc * loc * option loc) :=
  let* o := read l in
  match o with
  | OProviderOutput line spans chars => ret (line, spans, chars)
  | _ => fail
  end.

(** [deepcopy(p)] for a [ProviderOutput]: new objects for the output,
    its line, its span list and its char list. *)
Definition deepcopy (p : loc) : M loc :=
  let* (line, spans, chars) := read_output p in
  let* (polygon, page_id) := read_line line in
  let* line' := alloc (OLine polygon page_id) in
  let* items := read_spans spans in
  let* spans' := alloc (OSpans items) in
  let* chars' :=
    match chars with
    | Some cl =>
        let* citems := read_chars cl in
        let* cl' := alloc (OChars citems) in
        ret (Some cl')
    | None => ret None
    end in
  alloc (OProviderOutput line' spans' chars').

(** [xs.extend(ys)] on two span lists, in place. *)
Definition extend_spans (xs ys : loc) : M unit :=
  let* a := read_spans xs in
  let* b := read_spans ys in
  write xs (OSpans (a ++ b)).

Definition extend_chars (xs ys : loc) : M unit :=
  let* a := read_chars xs in
  let* b := read_chars ys in
  write xs (OChars (a ++ b)).

Definition merge (self other : loc) : M loc :=
  let* new_output := deepcopy self in
  let* other_copy := deepcopy other in
  let* (line, spans, chars) := read_output new_output in
  let* (oline, ospans, ochars) := read_output other_copy in
  let* _ := extend_spans spans ospans in
  let* _ :=
    match chars, ochars with
    | Some cl, Some ocl => extend_chars cl ocl
    | None, Some ocl => write new_output (OProviderOutput line spans (Some ocl))
    | _, None => ret tt
    end in
  let* (polygon, page_id) := read_line line in
  let* (opolygon, _) := read_line oline in
  let* _ := write line (OLine (Polygon.merge polygon [opolygon]) page_id) in
  ret new_output.

(** *** What a reference to a [ProviderOutput] stands for *)

Record ProviderOutput : Type := mkProviderOutput {
  po_polygon : PolygonBox;
  po_page_id : Z;
  po_spans : list Span;
  po_chars : option (list (list Char))
}.

Definition view (h : heap) (p : loc) : option ProviderOutput :=
  match h !! p with
  | Some (OProviderOutput line spans chars) =>
      match h !! line, h !! spans with
      | Some (OLine polygon page_id), Some (OSpans items) =>
          match chars with
          | None => Some (mkProviderOutput polygon page_id items None)
          | Some cl =>
              match h !! cl with
              | Some (OChars citems) =>
                  Some (mkProviderOutput polygon page_id items (Some citems))
              | _ => None
              end
          end
      | _, _ => None
      end
  | _ => None
  end.

(** [len(spans) == len(chars)] whenever chars are tracked. *)
Definition spans_chars_invariant (v : ProviderOutput) : Prop :=
  match po_chars v with
  | Some cs => length (po_spans v) = length cs
  | None => True
  end.

(** The chars of the merged output, as the three branches give them. *)
Definition merged_chars (a b : option (list (list Char)))
    : option (list (list Char)) :=
  match a, b with
  | Some x, Some y => Some (x ++ y)
  | None, Some y => Some y
  | _, None => a
  end.

(** *** Properties of [merge] *)

Lemma lookup_ext (h ext : heap) k : (h ++ ext) !! (length h + k) = ext !! k.
Proof. rewrite lookup_app_r by lia. f_equal. lia. Qed.

Lemma lookup_old (h ext : heap) l o :
  h !! l = Some o -> (h ++ ext) !! l = Some o.
Proof. apply lookup_app_l_Some. Qed.

Lemma insert_ext (h ext : heap) k o :
  <[length h + k := o]> (h ++ ext) = h ++ <[k := o]> ext.
Proof. apply insert_app_r. Qed.

Lemma view_inv h p v :
  view h p = Some v ->
  exists line spans chars,
    h !! p = Some (OProviderOutput line spans chars)
    /\ h !! line = Some (OLine (po_polygon v) (po_page_id v))
    /\ h !! spans = Some (OSpans (po_spans v))
    /\ match chars with
       | Some cl => exists cs, po_chars v = Some cs /\ h !! cl = Some (OChars cs)
       | None => po_chars v = None
       end.
Proof.
  unfold view. intros H.
  destruct (h !! p) as [[| | |line spans chars]|]; try discriminate.
  exists line, spans, chars. split; [reflexivity|].
  destruct (h !! line) as [[polygon page_id| | |]|]; try discriminate.
  destruct (h !! spans) as [[|items| |]|]; try discriminate.
  destruct chars as [cl|].
  - destruct (h !! cl) as [[| |citems|]|]; try discriminate.
    injection H as <-. simpl. eauto.
  - injection H as <-. simpl. auto.
Qed.

(** The objects that [deepcopy] puts at the end of a heap of size [n],
    and the reference it returns. *)
Definition copy_ext (n : nat) (v : ProviderOutput) : list object :=
  match po_chars v with
  | Some cs =>
      [OLine (po_polygon v) (po_page_id v); OSpans (po_spans v); OChars cs;
       OProviderOutput n (n + 1) (Some (n + 2))]
  | None =>
      [OLine (po_polygon v) (po_page_id v); OSpans (po_spans v);
       OProviderOutput n (n + 1) None]
  end.

Definition copy_loc (n : nat) (v : ProviderOutput) : loc :=
  match po_chars v with
  | Some _ => n + 3
  | None => n + 2
  end.

Lemma deepcopy_view h p v :
  view h p = Some v ->
  deepcopy p h = Some (copy_loc (length h) v, h ++ copy_ext (length h) v).
Proof.
  intros (line & spans & chars & Hp & Hl & Hs & Hc)%view_inv.
  unfold deepcopy, read_output, read_line, read_spans, read_chars, read,
    alloc, bind, ret, copy_loc, copy_ext.
  rewrite Hp, Hl. simpl.
  rewrite (lookup_old _ _ _ _ Hs). simpl.
  destruct chars as [cl|].
  - destruct Hc as (cs & -> & Hcl).
    rewrite (lookup_old _ _ _ _ (lookup_old _ _ _ _ Hcl)). simpl.
    rewrite !length_app. simpl. rewrite <- !app_assoc. simpl.
    rewrite <- !Nat.add_assoc. reflexivity.
  - rewrite Hc. simpl.
    rewrite !length_app. simpl. rewrite <- !app_assoc. simpl.
    rewrite <- !Nat.add_assoc. reflexivity.
Qed.

Lemma view_old h ext p v : view h p = Some v -> view (h ++ ext) p = Some v.
Proof.
  intros (line & spans & chars & Hp & Hl & Hs & Hc)%view_inv.
  unfold view.
  rewrite (lookup_old _ _ _ _ Hp), (lookup_old _ _ _ _ Hl),
    (lookup_old _ _ _ _ Hs).
  destruct v as [polygon page_id items vchars]. simpl in *.
  destruct chars as [cl|].
  - destruct Hc as (cs & -> & Hcl). rewrite (lookup_old _ _ _ _ Hcl).
    reflexivity.
  - rewrite Hc. reflexivity.
Qed.

Lemma read_ext (h ext : heap) k o :
  ext !! k = Some o -> read (length h + k) (h ++ ext) = Some (o, h ++ ext).
Proof. intros H. unfold read. rewrite lookup_ext, H. reflexivity. Qed.

Lemma write_ext (h ext : heap) k o :
  k < length ext ->
  write (length h + k) o (h ++ ext) = Some (tt, h ++ <[k := o]> ext).
Proof.
  intros H. unfold write.
  rewrite decide_True by (rewrite length_app; lia).
  rewrite insert_ext. reflexivity.
Qed.

Lemma read_ext0 (h ext : heap) o :
  ext !! 0 = Some o -> read (length h) (h ++ ext) = Some (o, h ++ ext).
Proof.
  intros H. rewrite <- (Nat.add_0_r (length h)) at 1. apply read_ext, H.
Qed.

Lemma write_ext0 (h ext : heap) o :
  0 < length ext ->
  write (length h) o (h ++ ext) = Some (tt, h ++ <[0 := o]> ext).
Proof.
  intros H. rewrite <- (Nat.add_0_r (length h)) at 1. apply write_ext, H.
Qed.

Lemma lookup_ext0 (h ext : heap) : (h ++ ext) !! length h = ext !! 0.
Proof. rewrite <- (Nat.add_0_r (length h)) at 1. apply lookup_ext. Qed.

Ltac heap_norm :=
  rewrite ?length_app; cbn [length];
  rewrite <- ?app_assoc; cbn [app];
  rewrite <- ?Nat.add_assoc; cbn [Nat.add].

Ltac heap_step :=
  first
    [ erewrite read_ext by reflexivity
    | erewrite read_ext0 by reflexivity
    | rewrite write_ext by (cbn [length]; lia)
    | rewrite write_ext0 by (cbn [length]; lia) ];
  cbn beta iota; cbn [list_insert insert].

Ltac heap_lookup :=
  repeat (first [rewrite lookup_ext | rewrite lookup_ext0];
          cbn [lookup list_lookup]; cbn beta iota).

(** What [merge] returns: a reference to a new object, in a heap that
    extends the old one, standing for the concatenated spans, the chars
    of the three branches and the merged polygon. *)
Lemma merge_view h a b va vb :
  view h a = Some va -> view h b = Some vb ->
  exists r ext,
    merge a b h = Some (r, h ++ ext)
    /\ length h <= r
    /\ view (h ++ ext) r
       = Some (mkProviderOutput
                 (Polygon.merge (po_polygon va) [po_polygon vb])
                 (po_page_id va)
                 (po_spans va ++ po_spans vb)
                 (merged_chars (po_chars va) (po_chars vb))).
Proof.
  intros Ha Hb. unfold merge, bind.
  rewrite (deepcopy_view _ _ _ Ha).
  rewrite (deepcopy_view _ _ _ (view_old _ _ _ _ Hb)).
  destruct va as [pa ga sa [ca|]], vb as [pb gb sb [cb|]];
    unfold copy_loc, copy_ext; cbn [po_chars po_polygon po_page_id po_spans];
    heap_norm;
    unfold read_output, read_line, extend_spans, extend_chars, read_spans,
      read_chars, bind, ret.
  all: repeat heap_step.
  all: eexists _, _; (split; [reflexivity|]); (split; [lia|]).
  all: unfold view; heap_lookup; reflexivity.
Qed.


(** The invariant survives [merge] when both outputs track chars, and
    when the second tracks none and has no span. *)
Lemma merge_invariant_both h a b va vb ca cb :
  view h a = Some va -> view h b = Some vb ->
  po_chars va = Some ca -> po_chars vb = Some cb ->
  spans_chars_invariant va -> spans_chars_invariant vb ->
  exists r h' vr,
    merge a b h = Some (r, h') /\ view h' r = Some vr
    /\ spans_chars_invariant vr.
Proof.
  intros Ha Hb Hca Hcb Ia Ib.
  destruct (merge_view h a b va vb Ha Hb) as (r & ext & Hm & _ & Hv).
  eexists _, _, _. split; [exact Hm|]. split; [exact Hv|].
  unfold spans_chars_invariant in *. rewrite Hca in *. rewrite Hcb in *.
  simpl. rewrite !length_app. lia.
Qed.

(** C8. [a.merge(b)] returns a new object whose spans are the spans of
    [a] followed by those of [b] and whose line polygon is the bbox
    union of the two line polygons; every object of the old heap, and so
    [a] and [b], is as it was. *)
Theorem merge_concat_union_copy (h : heap) (a b : loc) (va vb : ProviderOutput) :
  view h a = Some va ->
  view h b = Some vb ->
  exists r h' vr,
    merge a b h = Some (r, h')
    /\ view h' r = Some vr
    /\ po_spans vr = po_spans va ++ po_spans vb
    /\ bbox (po_polygon vr)
       = bbox_union (bbox (po_polygon va)) (bbox (po_polygon vb))
    /\ length h <= r
    /\ (forall l o, h !! l = Some o -> h' !! l = Some o)
    /\ view h' a = Some va
    /\ view h' b = Some vb.
Proof.
  intros Ha Hb.
  destruct (merge_view h a b va vb Ha Hb) as (r & ext & Hm & Hr & Hv).
  eexists _, _, _. split; [exact Hm|]. split; [exact Hv|].
  split; [reflexivity|]. split; [reflexivity|]. split; [exact Hr|].
  split; [intros l o; apply lookup_old|].
  split; apply view_old; assumption.
Qed.

Definition pbox (x1 y1 x2 y2 : Q) : PolygonBox := mkPolygonBox (mkBox x1 y1 x2 y2).

(** Two outputs of one span each; only the second tracks chars. *)
Definition heap_one_sided : heap :=
  [OLine (pbox 0 0 10 5) 0; OSpans [mkSpan "x"]; OProviderOutput 0 1 None;
   OLine (pbox 8 1 20 6) 0; OSpans [mkSpan "y"]; OChars [[mkChar "y" 0]];
   OProviderOutput 3 4 (Some 5)].

Definition output_x : ProviderOutput :=
  mkProviderOutput (pbox 0 0 10 5) 0 [mkSpan "x"] None.

Definition output_y : ProviderOutput :=
  mkProviderOutput (pbox 8 1 20 6) 0 [mkSpan "y"] (Some [[mkChar "y" 0]]).

(** The merge of the two outputs of [heap_one_sided]. *)
Lemma merge_concat_union_copy_witness :
  exists r h' vr,
    merge 2 6 heap_one_sided = Some (r, h')
    /\ view h' r = Some vr
    /\ po_spans vr = [mkSpan "x"; mkSpan "y"]
    /\ bbox (po_polygon vr)
       = bbox_union (mkBox 0 0 10 5) (mkBox 8 1 20 6)
    /\ view h' 2 = Some output_x
    /\ view h' 6 = Some output_y.
Proof.
  destruct (merge_concat_union_copy heap_one_sided 2 6 output_x output_y
              eq_refl eq_refl)
    as (r & h' & vr & Hm & Hv & Hs & Hp & _ & _ & Ha & Hb).
  exists r, h', vr. repeat split; assumption.
Defined.

(** C5. Merging an output without chars and an output with chars, each
    with one span: both satisfy the invariant, the result has two spans
    and one char list (and in the other order too). *)
Theorem merge_breaks_spans_chars_invariant :
  view heap_one_sided 2 = Some output_x
  /\ view heap_one_sided 6 = Some output_y
  /\ spans_chars_invariant output_x
  /\ spans_chars_invariant output_y
  /\ (exists r h' vr,
        merge 2 6 heap_one_sided = Some (r, h') /\ view h' r = Some vr
        /\ length (po_spans vr) = 2
        /\ (length <$> po_chars vr) = Some 1
        /\ ~ spans_chars_invariant vr)
  /\ (exists r h' vr,
        merge 6 2 heap_one_sided = Some (r, h') /\ view h' r = Some vr
        /\ length (po_spans vr) = 2
        /\ (length <$> po_chars vr) = Some 1
        /\ ~ spans_chars_invariant vr).
Proof.
  split; [reflexivity|]. split; [reflexivity|].
  split; [exact I|]. split; [reflexivity|].
  split; eexists _, _, _;
    (split; [vm_compute; reflexivity|]);
    (split; [vm_compute; reflexivity|]);
    (split; [reflexivity|]); (split; [reflexivity|]);
    vm_compute; discriminate.
Qed.

End Providers.

(** ** marker/renderers/__init__.py *)

Module Renderers.

Import Py.
Local Open Scope string_scope.

(** *** Regular-expression substitution *)

(** The characters that mean something else than themselves in a
    pattern of [re]. *)
Definition regex_meta (c : ascii) : bool :=
  existsb (Ascii.eqb c)
    ["."; "^"; "$"; "*"; "+"; "?"; "{"; "}"; "["; "]"; "\"; "|"; "("; ")"]%char.

Fixpoint literal_pattern (s : string) : bool :=
  match s with
  | EmptyString => true
  | String c s' => negb (regex_meta c) && literal_pattern s'
  end.

(** What a tag name contributes to the pattern: a character that stands
    for itself, or such a character with a question mark after it, which
    matches the character once or, failing that, not at all. *)
Inductive item : Type :=
| Lit (c : ascii)
| Opt (c : ascii).

(** [merge_consecutive_tags] and [merge_consecutive_math] put the tag
    name into their pattern as it is, with no [re.escape]. [parse_tag]
    reads the name as [re] reads that part of the pattern; a name with
    any other use of a character of [regex_meta] is outside of this
    model. *)
Fixpoint parse_tag (s : string) : option (list item) :=
  match s with
  | EmptyString => Some []
  | String c s' =>
      if regex_meta c then None
      else
        match s' with
        | String q s'' =>
            if Ascii.eqb q "?" then cons (Opt c) <$> parse_tag s''
            else cons (Lit c) <$> parse_tag s'
        | EmptyString => Some [Lit c]
        end
  end.

(** A tag name with its reading as a pattern. The callers pass b, i and
    math. *)
Record TagName : Type := mkTagName {
  tag_str :> string;
  tag_items : list item;
  tag_parsed : parse_tag tag_str = Some tag_items
}.

Definition tag_b : TagName := mkTagName "b" [Lit "b"] eq_refl.
Definition tag_i : TagName := mkTagName "i" [Lit "i"] eq_refl.
Definition tag_math : TagName :=
  mkTagName "math" [Lit "m"; Lit "a"; Lit "t"; Lit "h"] eq_refl.

(** The patterns of [merge_consecutive_tags] and [merge_consecutive_math]:
    literal text and the closing tag, a greedy run of whitespace, which
    is group 1, and the opening tag with its attributes. [closing] and
    [opening] are the texts of the two tags, [closing_items] and
    [opening_items] the parts of the pattern made from them. *)
Definition closing (lit : string) (tag : TagName) : string :=
  lit ++ "</" ++ tag ++ ">".
Definition opening (tag : TagName) (attrs : string) : string :=
  "<" ++ tag ++ attrs ++ ">".

Fixpoint lits (s : string) : list item :=
  match s with
  | EmptyString => []
  | String c s' => Lit c :: lits s'
  end.

Definition closing_items (lit : string) (tag : TagName) : list item :=
  (lits lit ++ lits "</" ++ tag_items tag ++ lits ">")%list.
Definition opening_items (tag : TagName) (attrs : string) : list item :=
  (lits "<" ++ tag_items tag ++ lits attrs ++ lits ">")%list.

(** [s] without the prefix [p], if it starts with [p]. *)
Fixpoint strip_prefix (p s : string) : option string :=
  match p, s with
  | EmptyString, _ => Some s
  | String a p', String b s' =>
      if Ascii.eqb a b then strip_prefix p' s' else None
  | String _ _, EmptyString => None
  end.

(** The longest whitespace prefix of [s] and what follows it. *)
Fixpoint span_space (s : string) : string * string :=
  match s with
  | EmptyString => (EmptyString, EmptyString)
  | String c s' =>
      if is_space c then (String c (span_space s').1, (span_space s').2)
      else (EmptyString, s)
  end.

(** [s] without its first character, if that is [c]. *)
Definition match_char (c : ascii) (s : string) : option string :=
  match s with
  | String d s' => if Ascii.eqb c d then Some s' else None
  | EmptyString => None
  end.

(** The ways in which the items match at the start of [s], each given by
    the text after the match, in the order in which [re] tries them. *)
Fixpoint match_items (p : list item) (s : string) : list string :=
  match p with
  | [] => [s]
  | Lit c :: p' =>
      match match_char c s with
      | Some s' => match_items p' s'
      | None => []
      end
  | Opt c :: p' =>
      (match match_char c s with
       | Some s' => match_items p' s'
       | None => []
       end ++ match_items p' s)%list
  end.

(** A match of the pattern at the start of [s]: group 1 and the text
    after the match, for the first way that succeeds. The whitespace run
    is greedy; giving back whitespace cannot help, since the opening tag
    starts with a less-than sign, which is not whitespace. *)
Definition match_here (lit : string) (tag : TagName) (attrs s : string)
    : option (string * string) :=
  head (flat_map
          (fun s1 =>
             map (fun rest => ((span_space s1).1, rest))
                 (match_items (opening_items tag attrs) (span_space s1).2))
          (match_items (closing_items lit tag) s)).

Lemma append_nil (b : string) : "" ++ b = b.
Proof. reflexivity. Qed.

Lemma append_cons c (a b : string) : String c a ++ b = String c (a ++ b).
Proof. reflexivity. Qed.

Lemma length_append (a b : string) :
  String.length (a ++ b) = (String.length a + String.length b)%nat.
Proof.
  induction a as [|c a IH]; [reflexivity|].
  rewrite append_cons. simpl. rewrite IH. reflexivity.
Qed.

Lemma strip_prefix_Some p : forall s r, strip_prefix p s = Some r -> s = p ++ r.
Proof.
  induction p as [|a p IH]; intros s r H; simpl in H.
  - injection H as <-. reflexivity.
  - destruct s as [|b s]; [discriminate|].
    destruct (Ascii.eqb_spec a b) as [<-|]; [|discriminate].
    rewrite append_cons. f_equal. apply IH, H.
Qed.

Lemma span_space_append s : s = (span_space s).1 ++ (span_space s).2.
Proof.
  induction s as [|c s IH]; simpl; [reflexivity|].
  destruct (is_space c); simpl; [|reflexivity].
  rewrite append_cons. f_equal. exact IH.
Qed.

(** The least number of characters that the items match. *)
Fixpoint min_length (p : list item) : nat :=
  match p with
  | [] => 0
  | Lit _ :: p' => S (min_length p')
  | Opt _ :: p' => min_length p'
  end.

Lemma min_length_app p q :
  min_length (p ++ q) = (min_length p + min_length q)%nat.
Proof.
  induction p as [|[c|c] p IH]; simpl; [reflexivity| |exact IH].
  rewrite IH. reflexivity.
Qed.

Lemma min_length_lits s : min_length (lits s) = String.length s.
Proof.
  induction s as [|c s IH]; simpl; [reflexivity|]. rewrite IH. reflexivity.
Qed.

Lemma match_char_Some c s r : match_char c s = Some r -> s = String c r.
Proof.
  destruct s as [|d s]; simpl; [discriminate|].
  destruct (Ascii.eqb_spec c d) as [<-|]; [|discriminate].
  intros H. injection H as <-. reflexivity.
Qed.

Lemma match_items_length p : forall s r,
  In r (match_items p s) ->
  (String.length r + min_length p <= String.length s)%nat.
Proof.
  induction p as [|[c|c] p IH]; intros s r Hin; simpl in *.
  - destruct Hin as [<-|[]]. lia.
  - destruct (match_char c s) as [s'|] eqn:Hc; [|destruct Hin].
    apply match_char_Some in Hc as ->. apply IH in Hin. simpl. lia.
  - apply in_app_or in Hin as [Hin|Hin]; [|apply IH, Hin].
    destruct (match_char c s) as [s'|] eqn:Hc; [|destruct Hin].
    apply match_char_Some in Hc as ->. apply IH in Hin. simpl. lia.
Qed.

Lemma head_In {A} (l : list A) x : head l = Some x -> In x l.
Proof.
  destruct l; simpl; [discriminate|]. intros H. injection H as ->.
  left. reflexivity.
Qed.

(** A match is at least five characters long. *)
Lemma match_here_length lit tag attrs s ws rest :
  match_here lit tag attrs s = Some (ws, rest) ->
  (String.length rest + 5 <= String.length s)%nat.
Proof.
  unfold match_here. intros H%head_In.
  apply in_flat_map in H as (s1 & H1 & H2).
  apply in_map_iff in H2 as (r & Hr & H2).
  apply (f_equal snd) in Hr. simpl in Hr. subst r.
  apply match_items_length in H1, H2.
  unfold closing_items in H1. unfold opening_items in H2.
  rewrite !min_length_app, !min_length_lits in H1, H2. simpl in H1, H2.
  pose proof (f_equal String.length (span_space_append s1)) as Hs.
  rewrite length_append in Hs. lia.
Qed.

(** [re.sub(pattern, repl, s)]: the matches are taken from left to right
    and do not overlap; the text between them is kept. [repl] maps
    group 1 of a match to its replacement. *)
Equations? re_sub (lit : string) (tag : TagName) (attrs : string)
    (repl : string -> string) (s : string) : string
    by wf (String.length s) lt :=
  re_sub lit tag attrs repl EmptyString := EmptyString;
  re_sub lit tag attrs repl (String c s')
    with Equations.Prop.Logic.inspect (match_here lit tag attrs (String c s')) := {
    | exist _ (Some (ws, rest)) _ => repl ws ++ re_sub lit tag attrs repl rest;
    | exist _ None _ => String c (re_sub lit tag attrs repl s') }.
Proof.
  match goal with
  | H : match_here _ _ _ _ = Some _ |- _ =>
      apply match_here_length in H; simpl in H
  end.
  lia.
Qed.

Lemma re_sub_clause lit tag attrs repl c s' o
    (e : match_here lit tag attrs (String c s') = o) :
  re_sub_unfold_clause_2 lit tag attrs repl c s' (exist _ o e)
  = match o with
    | Some (ws, rest) => repl ws ++ re_sub lit tag attrs repl rest
    | None => String c (re_sub lit tag attrs repl s')
    end.
Proof. destruct o as [[ws rest]|]; reflexivity. Qed.

(** One step of the scan. *)
Lemma re_sub_cons lit tag attrs repl c s' :
  re_sub lit tag attrs repl (String c s')
  = match match_here lit tag attrs (String c s') with
    | Some (ws, rest) => repl ws ++ re_sub lit tag attrs repl rest
    | None => String c (re_sub lit tag attrs repl s')
    end.
Proof. rewrite re_sub_equation_2. apply re_sub_clause. Qed.

(** A substitution whose replacements are at most one character long
    leaves the string as it is or makes it shorter. *)
Lemma re_sub_same_or_shorter lit tag attrs repl n :
  (forall ws, (String.length (repl ws) <= 1)%nat) ->
  forall s, (String.length s <= n)%nat ->
  re_sub lit tag attrs repl s = s
  \/ (String.length (re_sub lit tag attrs repl s) < String.length s)%nat.
Proof.
  intros Hrepl. induction n as [|n IH]; intros s Hn.
  - destruct s; [left; reflexivity|simpl in Hn; lia].
  - destruct s as [|c s']; [left; reflexivity|].
    rewrite re_sub_cons.
    destruct (match_here lit tag attrs (String c s')) as [[ws rest]|] eqn:Hm.
    + right. pose proof (match_here_length _ _ _ _ _ _ Hm) as Hlen.
      pose proof (Hrepl ws) as Hws.
      rewrite length_append.
      destruct (IH rest) as [->|Hlt]; [simpl in *; lia|lia|lia].
    + simpl in Hn. destruct (IH s') as [->|Hlt]; [lia|left; reflexivity|].
      right. simpl. lia.
Qed.

(** *** merge_consecutive_tags *)

(** [replace_whitespace]: what a match is replaced with. *)
Definition replace_whitespace (whitespace : string) : string :=
  if Nat.eqb (String.length whitespace) 0 then "" else " ".

Lemma replace_whitespace_length ws :
  (String.length (replace_whitespace ws) <= 1)%nat.
Proof. unfold replace_whitespace. destruct (Nat.eqb _ 0); simpl; lia. Qed.

(** [re.sub(pattern, replace_whitespace, html)] *)
Definition tag_sub (tag : TagName) (html : string) : string :=
  re_sub "" tag "" replace_whitespace html.

(** A substitution that changes the string makes it shorter. *)
Lemma tag_sub_shorter tag s :
  tag_sub tag s <> s ->
  (String.length (tag_sub tag s) < String.length s)%nat.
Proof.
  intros Hne. unfold tag_sub in *.
  destruct (re_sub_same_or_shorter "" tag "" replace_whitespace
              (String.length s) replace_whitespace_length s)
    as [Heq|Hlt]; [lia|contradiction|exact Hlt].
Qed.

(** The loop of [merge_consecutive_tags]: substitute until nothing
    changes. The length of [html] goes down with every turn but the
    last. *)
Equations? merge_loop (tag : TagName) (html : string) : string
    by wf (String.length html) lt :=
  merge_loop tag html
    with Equations.Prop.Logic.inspect (String.eqb (tag_sub tag html) html) := {
    | exist _ true _ => html;
    | exist _ false _ => merge_loop tag (tag_sub tag html) }.
Proof.
  apply tag_sub_shorter. apply String.eqb_neq. assumption.
Qed.

Definition merge_consecutive_tags (html : string) (tag : TagName) : string :=
  if negb (truthy html) then html else merge_loop tag html.

(** *** merge_consecutive_math *)

Definition dquote : string := String "034" EmptyString.

Definition merge_consecutive_math (html : string) (tag : TagName) : string :=
  if negb (truthy html) then html
  else
    let html := re_sub "-" tag "" (fun _ => " ") html in
    re_sub "-" tag (" display=" ++ dquote ++ "inline" ++ dquote)
           (fun _ => " ") html.

(** *** Blocks and output nodes *)

(** Modelled from the spec: the package marker/schema is not among the
    sources. [BlockTypes] is its enumeration of block types, here with
    the members the renderers name and [Text] for a plain block. *)
Inductive BlockTypes : Type :=
| Line | Span | Text | Table | Picture | Figure | Page | Document.

#[global] Instance BlockTypes_eq_dec : EqDecision BlockTypes.
Proof. solve_decision. Defined.

(** Modelled from the spec: a [BlockId] is the triple of block type,
    page id and block id; two ids are equal iff the three fields are. *)
Record BlockId : Type := mkBlockId {
  block_type : BlockTypes;
  page_id : Z;
  block_id : Z
}.

#[global] Instance BlockId_eq_dec : EqDecision BlockId.
Proof. solve_decision. Defined.

(** The markup of a node as BeautifulSoup parses it, in document order:
    [content-ref] elements with their [src], and everything else as
    text. *)
Inductive piece : Type :=
| Markup (s : string)
| ContentRef (src : BlockId).

(** Modelled from the spec: a node of the intermediate output tree
    ([BlockOutput] of marker/schema/blocks) with its id, its markup and
    its child nodes. *)
Inductive BlockOutput : Type :=
| mkBlockOutput (id : BlockId) (html : list piece) (children : list BlockOutput).

Definition output_id (o : BlockOutput) : BlockId :=
  match o with mkBlockOutput id _ _ => id end.

(** A [dict] in insertion order. *)
Definition pydict (K V : Type) : Type := list (K * V).

Fixpoint dict_set {K V : Type} `{EqDecision K} (k : K) (v : V) (d : pydict K V)
    : pydict K V :=
  match d with
  | [] => [(k, v)]
  | (k', v') :: d' =>
      if decide (k' = k) then (k', v) :: d' else (k', v') :: dict_set k v d'
  end.

(** [d.update(other)] *)
Definition dict_update {K V : Type} `{EqDecision K} (d other : pydict K V)
    : pydict K V :=
  foldl (fun d kv => dict_set kv.1 kv.2 d) d other.

Definition in_types (t : BlockTypes) (l : list BlockTypes) : bool :=
  bool_decide (t ∈ l).

(** [for item in children: if item.id == src: ...; break] over the
    children paired with what the recursive call gives for them. *)
Fixpoint find_child {R : Type} (src : BlockId) (resolved : list (BlockId * R))
    : option (BlockId * R) :=
  match resolved with
  | [] => None
  | item :: rest =>
      if decide (item.1 = src) then Some item else find_child src rest
  end.

(** *** HTMLRenderer.extract_html (marker/renderers/html.py) *)

Section html_renderer.

(** The renderer's settings. *)
Context (image_blocks page_blocks : list BlockTypes).
Context (extract_images paginate_output add_block_ids : bool).

(** What the model takes from outside: images and their extraction from
    the document, [BlockId.to_path], the image format in lower case,
    [str] of a page id, the attribute that [insert_block_id] sets with
    BeautifulSoup, and the [textwrap.dedent] of the document template. *)
Context {Image : Type}.
Context (extract_image : BlockId -> Image).
Context (to_path : BlockId -> string) (image_format : string).
Context (str_of_int : Z -> string).
Context (set_data_block_id : string -> BlockId -> string).
Context (html_document : string -> string).

Definition insert_block_id (soup : string) (block_id : BlockId) : string :=
  if in_types (block_type block_id) [Line; Span] then soup
  else if add_block_ids then set_data_block_id soup block_id
  else soup.

(** The state of the loop over the content refs: [ref_block_id],
    [images] and the text of the soup so far. *)
Definition html_state : Type := option BlockId * pydict string Image * string.

(** The body of the loop for one [content-ref]. *)
Definition html_ref (resolved : list (BlockId * result (string * pydict string Image)))
    (st : html_state) (src : BlockId) : result html_state :=
  found ←
    match find_child src resolved with
    | Some (item_id, r) =>
        res ← r; Ok (res.1, dict_update [] res.2, Some item_id)
    | None => Ok ("", [], st.1.1)
    end;
  let content := found.1.1 in
  let sub_images := found.1.2 in
  match found.2 with
  | None => Raise AttributeError
  | Some ref_block_id =>
      if in_types (block_type ref_block_id) image_blocks then
        if extract_images then
          let image := extract_image ref_block_id in
          let image_name := to_path ref_block_id ++ "." ++ image_format in
          let element := "<p>" ++ content ++ "<img src='" ++ image_name ++ "'></p>" in
          Ok (Some ref_block_id, dict_set image_name image st.1.2,
              st.2 ++ insert_block_id element ref_block_id)
        else
          Ok (Some ref_block_id, st.1.2,
              st.2 ++ insert_block_id content ref_block_id)
      else if in_types (block_type ref_block_id) page_blocks then
        let content :=
          if paginate_output then
            "<div class='page' data-page-id='"
            ++ str_of_int (page_id ref_block_id) ++ "'>" ++ content ++ "</div>"
          else content in
        Ok (Some ref_block_id, dict_update st.1.2 sub_images,
            st.2 ++ insert_block_id content ref_block_id)
      else
        Ok (Some ref_block_id, dict_update st.1.2 sub_images,
            st.2 ++ insert_block_id content ref_block_id)
  end.

Definition html_piece (resolved : list (BlockId * result (string * pydict string Image)))
    (st : html_state) (p : piece) : result html_state :=
  match p with
  | Markup s => Ok (st.1, st.2 ++ s)
  | ContentRef src => html_ref resolved st src
  end.

Fixpoint extract_html (document_output : BlockOutput) (level : nat)
    : result (string * pydict string Image) :=
  match document_output with
  | mkBlockOutput _ html children =>
      let resolved :=
        map (fun item => (output_id item, extract_html item (S level))) children in
      st ← for_each (html_piece resolved) (None, [], "") html;
      let output := st.2 in
      let output :=
        if Nat.eqb level 0 then
          html_document
            (merge_consecutive_math
               (merge_consecutive_tags (merge_consecutive_tags output tag_b) tag_i)
               tag_math)
        else output in
      Ok (output, st.1.2)
  end.

End html_renderer.

(** *** BaseRenderer.extract_block_html *)

Section base_renderer.

Context (image_blocks : list BlockTypes) (extract_images : bool).

(** From outside: the base64 text of an extracted image and [str] of a
    [content-ref] element that stays in the soup. *)
Context (extract_image : BlockId -> string).
Context (ref_markup : BlockId -> string).

(** The state of the loop: [ref_block_id], [content] (unbound until a
    child has matched), [images] and the text of the soup so far. *)
Definition base_state : Type :=
  option BlockId * option string * pydict BlockId string * string.

Definition base_ref (resolved : list (BlockId * result (string * pydict BlockId string)))
    (st : base_state) (src : BlockId) : result base_state :=
  found ←
    match find_child src resolved with
    | Some (item_id, r) =>
        res ← r; Ok (Some res.1, dict_update [] res.2, Some item_id)
    | None => Ok (st.1.1.2, [], st.1.1.1)
    end;
  let content := found.1.1 in
  let sub_images := found.1.2 in
  match found.2 with
  | None => Raise AttributeError
  | Some ref_block_id =>
      if (in_types (block_type ref_block_id) image_blocks && extract_images)%bool
      then
        Ok (Some ref_block_id, content,
            dict_set ref_block_id (extract_image ref_block_id) st.1.2,
            st.2 ++ ref_markup src)
      else
        match content with
        | None => Raise UnboundLocalError
        | Some c =>
            Ok (Some ref_block_id, content, dict_update st.1.2 sub_images,
                st.2 ++ c)
        end
  end.

Definition base_piece (resolved : list (BlockId * result (string * pydict BlockId string)))
    (st : base_state) (p : piece) : result base_state :=
  match p with
  | Markup s => Ok (st.1, st.2 ++ s)
  | ContentRef src => base_ref resolved st src
  end.

Fixpoint extract_block_html (block_output : BlockOutput)
    : result (string * pydict BlockId string) :=
  match block_output with
  | mkBlockOutput id html children =>
      let resolved :=
        map (fun item => (output_id item, extract_block_html item)) children in
      st ← for_each (base_piece resolved) (None, None, [], "") html;
      let images :=
        if (in_types (block_type id) image_blocks && extract_images)%bool
        then dict_set id (extract_image id) st.1.2
        else st.1.2 in
      Ok (st.2, images)
  end.

End base_renderer.

(** *** assemble_html_with_images (marker/renderers/chunk.py) *)

(** A node of the JSON tree; [children] is [None] for a leaf block. *)
Inductive JSONBlockOutput : Type :=
| mkJSONBlockOutput (id : BlockId) (block_type : BlockTypes)
    (html : list piece) (children : option (list JSONBlockOutput)).

Definition json_id (b : JSONBlockOutput) : BlockId :=
  match b with mkJSONBlockOutput id _ _ _ => id end.

Section chunk_renderer.

Context (image_blocks : list BlockTypes).

(** From outside: [str] of a block id, [str] of a [content-ref] element
    and [html.unescape]. *)
Context (id_str : BlockId -> string).
Context (ref_markup : BlockId -> string).
Context (unescape : string -> string).

(** The [html] attribute as text. *)
Definition html_text (html : list piece) : string :=
  foldr (fun p acc =>
           match p with
           | Markup s => s ++ acc
           | ContentRef src => ref_markup src ++ acc
           end) "" html.

(** The loop over the content refs: a ref whose [src] is among
    [child_ids] is replaced, any other is left in the soup. *)
Definition assemble_refs (resolved : list (BlockId * string)) (html : list piece)
    : string :=
  foldr (fun p acc =>
           match p with
           | Markup s => s ++ acc
           | ContentRef src_id =>
               match find_child src_id resolved with
               | Some item => item.2 ++ acc
               | None => ref_markup src_id ++ acc
               end
           end) "" html.

Fixpoint assemble_html_with_images (block : JSONBlockOutput) : string :=
  match block with
  | mkJSONBlockOutput id block_type html children =>
      match children with
      | None | Some [] =>
          if in_types block_type image_blocks then
            "<p>" ++ html_text html ++ "<img src='" ++ id_str id ++ "'></p>"
          else html_text html
      | Some cs =>
          let resolved :=
            map (fun child => (json_id child, assemble_html_with_images child)) cs in
          unescape (assemble_refs resolved html)
      end
  end.

End chunk_renderer.

(** A node whose markup refers to a block that is not among its
    children, alone and after a reference that resolves. *)
Definition missing_ref : BlockId := mkBlockId Line 0 7.
Definition child_ref : BlockId := mkBlockId Line 0 1.

Definition node_missing : BlockOutput :=
  mkBlockOutput (mkBlockId Text 0 0)
    [Markup "<p>"; ContentRef missing_ref; Markup "</p>"] [].

Definition node_second_missing : BlockOutput :=
  mkBlockOutput (mkBlockId Text 0 0)
    [Markup "<p>"; ContentRef child_ref; ContentRef missing_ref; Markup "</p>"]
    [mkBlockOutput child_ref [Markup "x"] []].

Definition json_second_missing : JSONBlockOutput :=
  mkJSONBlockOutput (mkBlockId Text 0 0) Text
    [Markup "<p>"; ContentRef child_ref; ContentRef missing_ref; Markup "</p>"]
    (Some [mkJSONBlockOutput child_ref Line [Markup "x"] None]).


(** *** Unresolved content references *)

(** C1. A node whose first content-ref matches no child makes the HTML
    resolver and the base resolver raise [AttributeError]: [ref_block_id]
    is still [None] when its [block_type] is read. After a reference that
    has resolved, a reference without a child is dropped by the HTML
    resolver, is replaced by the content of the previous child by the
    base resolver, and is left in the markup by the chunk resolver. *)
Theorem unresolved_ref_raises :
  (forall image_blocks page_blocks extract_images paginate_output add_block_ids
          (Image : Type) (extract_image : BlockId -> Image) to_path image_format
          str_of_int set_data_block_id html_document level,
     extract_html image_blocks page_blocks extract_images paginate_output
       add_block_ids extract_image to_path image_format str_of_int
       set_data_block_id html_document node_missing level
     = Raise AttributeError)
  /\ (forall image_blocks extract_images extract_image ref_markup,
        extract_block_html image_blocks extract_images extract_image ref_markup
          node_missing
        = Raise AttributeError)
  /\ (forall extract_images paginate_output add_block_ids
             (Image : Type) (extract_image : BlockId -> Image) to_path
             image_format str_of_int set_data_block_id html_document,
        extract_html [Picture; Figure] [Page] extract_images paginate_output
          add_block_ids extract_image to_path image_format str_of_int
          set_data_block_id html_document node_second_missing 1
        = Ok ("<p>x</p>", []))
  /\ (forall extract_images extract_image ref_markup,
        extract_block_html [Picture; Figure] extract_images extract_image
          ref_markup node_second_missing
        = Ok ("<p>xx</p>", []))
  /\ (forall id_str ref_markup unescape,
        assemble_html_with_images [Picture; Figure] id_str ref_markup unescape
          json_second_missing
        = unescape ("<p>" ++ "x" ++ ref_markup missing_ref ++ "</p>")).
Proof.
  split; [reflexivity|].
  split; [reflexivity|].
  split; [reflexivity|].
  split; [reflexivity|].
  reflexivity.
Qed.

(** *** Properties of merge_consecutive_tags *)



Lemma strip_prefix_append p r : strip_prefix p (p ++ r) = Some r.
Proof.
  induction p as [|a p IH]; [destruct r; reflexivity|].
  rewrite append_cons. simpl. rewrite Ascii.eqb_refl. exact IH.
Qed.


(** A tag name that the pattern matches as it is. *)
Lemma parse_tag_literal s :
  literal_pattern s = true -> parse_tag s = Some (lits s).
Proof.
  induction s as [|c s IH]; [reflexivity|].
  intros H. change (negb (regex_meta c) && literal_pattern s = true) in H.
  apply andb_true_iff in H as [Hc Hs].
  apply negb_true_iff in Hc.
  specialize (IH Hs).
  change (parse_tag (String c s)) with
    (if regex_meta c then None
     else match s with
          | String q s'' =>
              if Ascii.eqb q "?" then cons (Opt c) <$> parse_tag s''
              else cons (Lit c) <$> parse_tag s
          | EmptyString => Some [Lit c]
          end).
  rewrite Hc. destruct s as [|q s'']; [reflexivity|].
  destruct (Ascii.eqb_spec q "?") as [->|_].
  - discriminate Hs.
  - rewrite IH. reflexivity.
Qed.

Lemma tag_items_literal (tag : TagName) :
  literal_pattern tag = true -> tag_items tag = lits tag.
Proof.
  intros H%parse_tag_literal. rewrite (tag_parsed tag) in H.
  injection H as ->. reflexivity.
Qed.

Lemma lits_append a b : lits (a ++ b) = (lits a ++ lits b)%list.
Proof.
  induction a as [|c a IH]; [reflexivity|].
  rewrite append_cons. simpl. rewrite IH. reflexivity.
Qed.

Lemma match_items_lits p q : forall s,
  match_items (lits p ++ q) s
  = match strip_prefix p s with
    | Some r => match_items q r
    | None => []
    end.
Proof.
  induction p as [|a p IH]; intros s.
  - destruct s; reflexivity.
  - simpl. destruct s as [|b s]; [reflexivity|]. simpl.
    destruct (Ascii.eqb a b); [apply IH|reflexivity].
Qed.

Lemma match_items_literal p s :
  match_items (lits p) s
  = match strip_prefix p s with Some r => [r] | None => [] end.
Proof. rewrite <- (app_nil_r (lits p)). apply match_items_lits. Qed.

Lemma closing_items_literal lit (tag : TagName) :
  literal_pattern tag = true ->
  closing_items lit tag = lits (closing lit tag).
Proof.
  intros H. unfold closing_items, closing.
  rewrite (tag_items_literal tag H), !lits_append. reflexivity.
Qed.

Lemma opening_items_literal (tag : TagName) attrs :
  literal_pattern tag = true ->
  opening_items tag attrs = lits (opening tag attrs).
Proof.
  intros H. unfold opening_items, opening.
  rewrite (tag_items_literal tag H), !lits_append. reflexivity.
Qed.

(** For such a name the pattern matches the closing tag, whitespace and
    the opening tag themselves. *)
Lemma match_here_literal lit (tag : TagName) attrs s :
  literal_pattern tag = true ->
  match_here lit tag attrs s
  = match strip_prefix (closing lit tag) s with
    | Some s1 =>
        match strip_prefix (opening tag attrs) (span_space s1).2 with
        | Some s2 => Some ((span_space s1).1, s2)
        | None => None
        end
    | None => None
    end.
Proof.
  intros H. unfold match_here.
  rewrite (closing_items_literal lit tag H), (opening_items_literal tag attrs H).
  rewrite match_items_literal.
  destruct (strip_prefix (closing lit tag) s) as [s1|]; [|reflexivity].
  cbn [flat_map]. rewrite app_nil_r, match_items_literal.
  destruct (strip_prefix (opening tag attrs) (span_space s1).2); reflexivity.
Qed.

Lemma match_here_Some lit (tag : TagName) attrs s ws rest :
  literal_pattern tag = true ->
  match_here lit tag attrs s = Some (ws, rest) ->
  s = closing lit tag ++ ws ++ opening tag attrs ++ rest.
Proof.
  intros Hlit. rewrite (match_here_literal _ _ _ _ Hlit). intros H.
  destruct (strip_prefix (closing lit tag) s) as [s1|] eqn:H1; [|discriminate].
  destruct (strip_prefix (opening tag attrs) (span_space s1).2) as [s2|] eqn:H2;
    [|discriminate].
  injection H as <- <-.
  apply strip_prefix_Some in H1, H2.
  rewrite H1. f_equal. rewrite <- H2. apply span_space_append.
Qed.










(** A tag name with a question mark. *)
Definition tag_b_opt : TagName := mkTagName "b?" [Opt "b"] eq_refl.


(** The pattern of the name b? applied to other texts. *)
Example optional_tag_other_texts :
  merge_consecutive_tags "x</b><b>y" tag_b_opt = "xy"
  /\ merge_consecutive_tags "x</>  <b>y" tag_b_opt = "x y"
  /\ merge_consecutive_tags "</bb><b>" tag_b_opt = "</bb><b>".
Proof. repeat split; vm_compute; reflexivity. Qed.



End Renderers.

(** ** marker/util.py: parse_range_str *)

Module Ranges.

Import Py.
Local Open Scope string_scope.

(** [c in s] for a one-character string [c]. *)
Fixpoint contains_char (c : ascii) (s : string) : bool :=
  match s with
  | EmptyString => false
  | String d s' => Ascii.eqb d c || contains_char c s'
  end.

(** [s.split(sep)] for a one-character separator: the pieces between
    the separators, at least one piece. *)
Fixpoint split_char (sep : ascii) (s : string) : list string :=
  match s with
  | EmptyString => [EmptyString]
  | String c s' =>
      if Ascii.eqb c sep then EmptyString :: split_char sep s'
      else
        match split_char sep s' with
        | p :: ps => String c p :: ps
        | [] => [String c EmptyString]
        end
  end.

Definition is_digit (c : ascii) : bool :=
  let n := nat_of_ascii c in ((48 <=? n) && (n <=? 57))%nat.

Definition digit_value (c : ascii) : Z := Z.of_nat (nat_of_ascii c - 48).

(** The digits of a decimal literal: single underscores are allowed
    between digits. [prev_digit] tells whether the character before was
    a digit. *)
Fixpoint parse_digits (acc : Z) (prev_digit : bool) (s : string) : option Z :=
  match s with
  | EmptyString => if prev_digit then Some acc else None
  | String c s' =>
      if is_digit c then parse_digits (10 * acc + digit_value c) true s'
      else if (Ascii.eqb c "_" && prev_digit)%bool then parse_digits acc false s'
      else None
  end.

(** The whitespace that [int] drops around the literal of an ASCII
    string: tab, line feed, vertical tab, form feed, carriage return and
    space. The separators 28 to 31, which [str.strip] drops, are not
    among them. *)
Definition is_int_space (c : ascii) : bool :=
  let n := nat_of_ascii c in
  ((9 <=? n) && (n <=? 13) || (n =? 32))%nat.

Fixpoint int_lstrip (s : string) : string :=
  match s with
  | EmptyString => EmptyString
  | String c s' => if is_int_space c then int_lstrip s' else s
  end.

Fixpoint int_rstrip (s : string) : string :=
  match s with
  | EmptyString => EmptyString
  | String c s' =>
      match int_rstrip s' with
      | EmptyString => if is_int_space c then EmptyString else String c EmptyString
      | r => String c r
      end
  end.

Definition int_strip (s : string) : string := int_rstrip (int_lstrip s).

(** [int(s)] for a string: whitespace around the literal is dropped, a
    sign may come first. [None] stands for the [ValueError] that [int]
    raises. *)
Definition py_int (s : string) : option Z :=
  match int_strip s with
  | String "+" digits => parse_digits 0 false digits
  | String "-" digits => Z.opp <$> parse_digits 0 false digits
  | digits => parse_digits 0 false digits
  end.

(** The pages of one comma-separated piece; [None] is a [ValueError],
    from [int] or from unpacking [i.split("-")] into two names. *)
Definition part_pages (i : string) : option (list Z) :=
  if contains_char "-" i then
    match split_char "-" i with
    | [start; end_] =>
        a ← py_int start;
        b ← py_int end_;
        Some (seqZ a (b + 1 - a))
    | _ => None
    end
  else
    n ← py_int i; Some [n].

(** The loop over [range_lst]. *)
Fixpoint collect_pages (range_lst : list string) (page_lst : list Z)
    : option (list Z) :=
  match range_lst with
  | [] => Some page_lst
  | i :: rest =>
      pages ← part_pages i;
      collect_pages rest (page_lst ++ pages)
  end.

(** [sorted(list(set(page_lst)))] *)
Definition sorted_set (page_lst : list Z) : list Z :=
  merge_sort Z.le (elements (list_to_set page_lst : gset Z)).

Definition parse_range_str (range_str : string) : option (list Z) :=
  page_lst ← collect_pages (split_char "," range_str) [];
  Some (sorted_set page_lst).


Local Open Scope Z_scope.

Lemma contains_int_lstrip c s :
  contains_char c (int_lstrip s) = true -> contains_char c s = true.
Proof.
  induction s as [|d s IH]; simpl; [done|].
  destruct (is_int_space d); simpl; [|done].
  intros H. rewrite IH by done. apply orb_true_r.
Qed.

Lemma contains_int_rstrip c s :
  contains_char c (int_rstrip s) = true -> contains_char c s = true.
Proof.
  induction s as [|d s IH]; simpl; [done|].
  destruct (int_rstrip s) as [|e r] eqn:E.
  - destruct (is_int_space d); simpl; [done|]. rewrite orb_false_r. intros ->. done.
  - simpl in *. intros H. apply orb_true_iff in H as [H|H].
    + rewrite H. done.
    + rewrite IH by done. apply orb_true_r.
Qed.

Lemma contains_int_strip c s :
  contains_char c (int_strip s) = true -> contains_char c s = true.
Proof. intros H. apply contains_int_lstrip, contains_int_rstrip, H. Qed.

(** Every character of the string is in the class. *)
Fixpoint all_chars (cls : ascii -> bool) (s : string) : bool :=
  match s with
  | EmptyString => true
  | String c s' => cls c && all_chars cls s'
  end.

Lemma all_chars_int_lstrip cls s :
  all_chars cls s = true -> all_chars cls (int_lstrip s) = true.
Proof.
  induction s as [|d s IH]; simpl; [done|].
  intros H. apply andb_true_iff in H as [Hd Hs].
  destruct (is_int_space d); [apply IH, Hs|]. simpl. rewrite Hd. exact Hs.
Qed.

Lemma all_chars_int_rstrip cls s :
  all_chars cls s = true -> all_chars cls (int_rstrip s) = true.
Proof.
  induction s as [|d s IH]; simpl; [done|].
  intros H. apply andb_true_iff in H as [Hd Hs]. specialize (IH Hs).
  destruct (int_rstrip s) as [|e r].
  - destruct (is_int_space d); simpl; [done|]. rewrite Hd. done.
  - simpl in *. rewrite Hd. exact IH.
Qed.

Lemma strip_blank_all_space s : strip s = "" -> all_chars is_space s = true.
Proof.
  unfold strip. induction s as [|c s IH]; simpl; [done|].
  destruct (is_space c) eqn:Ec.
  - intros H. simpl. apply IH, H.
  - simpl. destruct (rstrip s); rewrite ?Ec; done.
Qed.

(** A text of whitespace only is no integer literal. *)
Lemma py_int_blank s : all_chars is_space s = true -> py_int s = None.
Proof.
  intros H. unfold py_int.
  pose proof (all_chars_int_rstrip _ _ (all_chars_int_lstrip _ _ H)) as Ht.
  fold (int_strip s) in Ht.
  destruct (int_strip s) as [|c d]; [reflexivity|].
  simpl in Ht. apply andb_true_iff in Ht as [Hc _].
  destruct c as [[] [] [] [] [] [] [] []]; try discriminate Hc; reflexivity.
Qed.

Lemma parse_digits_nonneg s : forall acc p n,
  0 <= acc -> parse_digits acc p s = Some n -> 0 <= n.
Proof.
  induction s as [|c s IH]; simpl; intros acc p n Hacc H.
  - destruct p; congruence.
  - destruct (is_digit c).
    + eapply IH; [|exact H]. unfold digit_value. lia.
    + destruct (Ascii.eqb c "_" && p)%bool; [|done]. eapply IH; eauto.
Qed.

Lemma py_int_nonneg s n :
  contains_char "-" s = false -> py_int s = Some n -> 0 <= n.
Proof.
  intros Hs. unfold py_int.
  assert (Hc : contains_char "-" (int_strip s) = false).
  { destruct (contains_char "-" (int_strip s)) eqn:E; [|done].
    apply contains_int_strip in E. congruence. }
  destruct (int_strip s) as [|c d] eqn:E.
  - simpl. done.
  - simpl in Hc. apply orb_false_iff in Hc as [Hc1 Hc2].
    destruct (Ascii.eqb_spec c "-"); [done|].
    assert (forall m, parse_digits 0 false d = Some m -> 0 <= m) as Hd.
    { intros m. apply parse_digits_nonneg. lia. }
    assert (forall m, parse_digits 0 false (String c d) = Some m -> 0 <= m) as Hcd.
    { intros m. apply parse_digits_nonneg. lia. }
    destruct c as [[] [] [] [] [] [] [] []]; try (intros H; apply Hcd; exact H);
      try (intros H; apply Hd; exact H); try congruence.
Qed.

Lemma split_char_nonempty sep s : split_char sep s <> [].
Proof.
  destruct s as [|c s]; simpl; [done|].
  destruct (Ascii.eqb c sep); [done|]. destruct (split_char sep s); done.
Qed.

Lemma split_char_no_sep sep s :
  Forall (fun p => contains_char sep p = false) (split_char sep s).
Proof.
  induction s as [|c s IH]; simpl.
  - constructor; [done|constructor].
  - destruct (Ascii.eqb c sep) eqn:E.
    + constructor; [done|exact IH].
    + destruct (split_char sep s) as [|p ps]; simpl.
      * constructor; [simpl; rewrite E; done|constructor].
      * inversion IH; subst. constructor; [simpl; rewrite E; done|done].
Qed.

Lemma part_pages_nonneg i ps :
  part_pages i = Some ps -> Forall (fun n => 0 <= n) ps.
Proof.
  unfold part_pages. destruct (contains_char "-" i) eqn:E.
  - pose proof (split_char_no_sep "-" i) as Hno.
    destruct (split_char "-" i) as [|a [|b [|? ?]]]; try done.
    inversion Hno as [|? ? Ha Hb]; subst. inversion Hb as [|? ? Hb' _]; subst.
    destruct (py_int a) as [lo|] eqn:Ea; simpl; [|done].
    destruct (py_int b) as [hi|] eqn:Eb; simpl; [|done].
    intros [= <-]. apply Forall_forall. intros n Hn.
    apply elem_of_seqZ in Hn. apply py_int_nonneg in Ea; [lia|done].
  - destruct (py_int i) as [n|] eqn:En; simpl; [|done].
    intros [= <-]. constructor; [|constructor]. eapply py_int_nonneg; eauto.
Qed.

Lemma collect_pages_spec l : forall acc,
  collect_pages l acc = (pss ← mapM part_pages l; Some (acc ++ concat pss)%list).
Proof.
  induction l as [|i l IH]; intros acc; simpl.
  - rewrite app_nil_r. done.
  - destruct (part_pages i) as [ps|]; simpl; [|done].
    rewrite IH. destruct (mapM part_pages l); simpl; [|done].
    rewrite <- app_assoc. done.
Qed.

Lemma StronglySorted_le_lt (l : list Z) :
  StronglySorted Z.le l -> NoDup l -> StronglySorted Z.lt l.
Proof.
  induction 1 as [|x l Hs IH Hall]; intros Hnd; [constructor|].
  apply NoDup_cons in Hnd as [Hx Hnd]. constructor; [auto|].
  apply Forall_forall. intros y Hy.
  pose proof (proj1 (Forall_forall _ _) Hall y Hy).
  assert (x <> y) by (intros ->; done). lia.
Qed.

Lemma sorted_set_sorted l : StronglySorted Z.lt (sorted_set l).
Proof.
  unfold sorted_set. apply StronglySorted_le_lt.
  - apply StronglySorted_merge_sort.
    + intros x y z; lia.
    + intros x y; lia.
  - rewrite merge_sort_Permutation. apply NoDup_elements.
Qed.

Lemma sorted_set_elem n l : n ∈ sorted_set l <-> n ∈ l.
Proof.
  unfold sorted_set. rewrite merge_sort_Permutation.
  rewrite elem_of_elements, elem_of_list_to_set. done.
Qed.

(** What one piece of the range string stands for: a piece without a
    dash names the page it parses to, a piece [a-b] the pages from [a]
    to [b]. *)
Definition names_page (part : string) (n : Z) : Prop :=
  if contains_char "-" part then
    exists a b lo hi, split_char "-" part = [a; b] /\
      py_int a = Some lo /\ py_int b = Some hi /\ lo <= n <= hi
  else py_int part = Some n.

Lemma part_pages_names part ps n :
  part_pages part = Some ps -> (n ∈ ps <-> names_page part n).
Proof.
  unfold part_pages, names_page. destruct (contains_char "-" part).
  - destruct (split_char "-" part) as [|a [|b [|? ?]]]; try done.
    destruct (py_int a) as [lo|] eqn:Ea; simpl; [|done].
    destruct (py_int b) as [hi|] eqn:Eb; simpl; [|done].
    intros [= <-]. rewrite elem_of_seqZ. split.
    + intros H. exists a, b, lo, hi. repeat split; try done; lia.
    + intros (a' & b' & lo' & hi' & Hab & Ha & Hb & H).
      injection Hab as <- <-.
      rewrite Ea in Ha. rewrite Eb in Hb.
      injection Ha as <-. injection Hb as <-. lia.
  - destruct (py_int part) as [m|]; simpl; [|done].
    intros [= <-]. rewrite list_elem_of_singleton. split; congruence.
Qed.

Lemma parse_range_str_inv s pages :
  parse_range_str s = Some pages ->
  exists pss, Forall2 (fun part ps => part_pages part = Some ps)
                (split_char "," s) pss /\
              pages = sorted_set (concat pss).
Proof.
  unfold parse_range_str. rewrite collect_pages_spec.
  destruct (mapM part_pages (split_char "," s)) as [pss|] eqn:E; simpl; [|done].
  intros [= <-]. exists pss. split; [|done]. apply mapM_Some. exact E.
Qed.

(** X5. [parse_range_str]: a returned page list is strictly increasing,
    so it has no duplicates, and holds no negative page: a piece with a
    minus sign is read as a range, never as a negative number. *)
Theorem parse_range_str_increasing_nonneg (range_str : string) (pages : list Z) :
  parse_range_str range_str = Some pages ->
  StronglySorted Z.lt pages /\ Forall (fun n => 0 <= n) pages.
Proof.
  intros H. apply parse_range_str_inv in H as (pss & Hall & ->). split.
  - apply sorted_set_sorted.
  - apply Forall_forall. intros n Hn. rewrite sorted_set_elem, list_elem_of_In, in_concat in Hn.
    destruct Hn as (ps & Hps & Hn). rewrite <- list_elem_of_In in Hps.
    apply list_elem_of_lookup in Hps as (k & Hk).
    destruct (Forall2_lookup_r _ _ _ _ _ Hall Hk) as (part & _ & Hpart).
    apply part_pages_nonneg in Hpart.
    rewrite <- list_elem_of_In in Hn.
    exact (proj1 (Forall_forall _ _) Hpart n Hn).
Qed.

Lemma parse_range_str_increasing_nonneg_witness :
  parse_range_str " 7,3-5, 4,0_1" = Some [1; 3; 4; 5; 7] /\
  StronglySorted Z.lt [1; 3; 4; 5; 7] /\ Forall (fun n => 0 <= n) [1; 3; 4; 5; 7].
Proof.
  split; [vm_compute; reflexivity|].
  apply (parse_range_str_increasing_nonneg " 7,3-5, 4,0_1"). vm_compute. reflexivity.
Defined.

(** X6. [parse_range_str]: when it returns, a page is in the result
    exactly when one of the comma-separated pieces names it, as a single
    number or inside a range [a-b] with both ends included; a range whose
    end is below its start names no page. *)
Theorem parse_range_str_pages (range_str : string) (pages : list Z) (n : Z) :
  parse_range_str range_str = Some pages ->
  (n ∈ pages <->
   exists part, part ∈ split_char "," range_str /\ names_page part n).
Proof.
  intros H. apply parse_range_str_inv in H as (pss & Hall & ->).
  rewrite sorted_set_elem. split.
  - intros Hn. rewrite list_elem_of_In, in_concat in Hn.
    destruct Hn as (ps & Hps & Hn). rewrite <- list_elem_of_In in Hps. rewrite <- list_elem_of_In in Hn.
    apply list_elem_of_lookup in Hps as (k & Hk).
    destruct (Forall2_lookup_r _ _ _ _ _ Hall Hk) as (part & Hpk & Hpart).
    exists part. split; [eapply list_elem_of_lookup_2; eauto|].
    apply (part_pages_names _ _ n Hpart). exact Hn.
  - intros (part & Hin & Hn).
    apply list_elem_of_lookup in Hin as (k & Hk).
    destruct (Forall2_lookup_l _ _ _ _ _ Hall Hk) as (ps & Hpk & Hpart).
    rewrite list_elem_of_In, in_concat. exists ps. split.
    + rewrite <- list_elem_of_In. eapply list_elem_of_lookup_2; eauto.
    + rewrite <- list_elem_of_In. apply (part_pages_names _ _ n Hpart). exact Hn.
Qed.

Lemma parse_range_str_pages_witness :
  4 ∈ [1; 3; 4; 5; 7] <->
  exists part, part ∈ split_char "," "1,3-5,7" /\ names_page part 4.
Proof.
  apply (parse_range_str_pages "1,3-5,7"). vm_compute. reflexivity.
Defined.

(** X7. [parse_range_str]: a piece that is empty or only whitespace makes
    the whole call raise [ValueError]; so do the empty string, a leading
    or trailing comma and two commas in a row. *)
Theorem parse_range_str_blank_piece_raises (range_str part : string) :
  part ∈ split_char "," range_str -> strip part = "" ->
  parse_range_str range_str = None.
Proof.
  intros Hin Hblank.
  destruct (parse_range_str range_str) as [pages|] eqn:E; [|done].
  apply parse_range_str_inv in E as (pss & Hall & _).
  apply list_elem_of_lookup in Hin as (k & Hk).
  destruct (Forall2_lookup_l _ _ _ _ _ Hall Hk) as (ps & _ & Hpart).
  unfold part_pages in Hpart.
  pose proof (strip_blank_all_space part Hblank) as Hspace.
  assert (Hint : py_int part = None) by (apply py_int_blank, Hspace).
  destruct (contains_char "-" part) eqn:Ed.
  - exfalso. clear -Ed Hspace.
    (* a blank piece has no dash *)
    induction part as [|c s IH]; simpl in *; [done|].
    apply andb_true_iff in Hspace as [Hc Hs].
    apply orb_true_iff in Ed as [Ed|Ed]; [|exact (IH Ed Hs)].
    apply Ascii.eqb_eq in Ed. subst c. discriminate Hc.
  - rewrite Hint in Hpart. done.
Qed.

Lemma parse_range_str_blank_piece_raises_witness :
  parse_range_str "1,2," = None.
Proof.
  apply (parse_range_str_blank_piece_raises "1,2," "").
  - do 2 apply list_elem_of_further. apply list_elem_of_here.
  - reflexivity.
Defined.

End Ranges.

(** ** marker/util.py: get_opening_tag_type, get_closing_tag_type *)

Module Tags.

Import Py.
Local Open Scope string_scope.

Definition TAG_MAPPING : list (string * string) :=
  [("i", "italic"); ("b", "bold"); ("math", "math"); ("mark", "highlight");
   ("sub", "subscript"); ("sup", "superscript"); ("small", "small");
   ("u", "underline"); ("code", "code")].

Fixpoint dict_get (k : string) (d : list (string * string)) : option string :=
  match d with
  | [] => None
  | (k', v) :: d' => if String.eqb k k' then Some v else dict_get k d'
  end.

(** The alternation of the two patterns, in the order it is tried. *)
Definition tag_names : list string := ["math"; "i"; "b"].

(** The first alternative of [names] after which [rest_ok] accepts the
    rest of the text: the name captured as group 1. *)
Fixpoint first_match (names : list string) (rest_ok : string -> bool)
    (s : string) : option string :=
  match names with
  | [] => None
  | name :: names' =>
      match Renderers.strip_prefix name s with
      | Some rest => if rest_ok rest then Some name
                     else first_match names' rest_ok s
      | None => first_match names' rest_ok s
      end
  end.

(** The optional attribute group taken: one whitespace character or more,
    then characters other than the closing bracket, then the bracket. The
    text matches when it starts with whitespace and a bracket comes
    later. *)
Definition attrs_then_close (s : string) : bool :=
  match s with
  | String c s' => is_space c && Ranges.contains_char ">" s'
  | EmptyString => false
  end.

Definition close_here (s : string) : bool :=
  match s with
  | String ">" _ => true
  | _ => false
  end.

(** [OPENING_TAG_REGEX.match(tag)]: group 1 of a match at the start of
    [tag]. *)
Definition opening_match (tag : string) : option string :=
  match tag with
  | String "<" s =>
      first_match tag_names (fun r => attrs_then_close r || close_here r) s
  | _ => None
  end.

(** [CLOSING_TAG_REGEX.match(tag)] *)
Definition closing_match (tag : string) : option string :=
  match tag with
  | String "<" (String "/" s) => first_match tag_names close_here s
  | _ => None
  end.

Definition tag_type_of (m : option string) : bool * option string :=
  match m with
  | Some tag_type =>
      match dict_get tag_type TAG_MAPPING with
      | Some v => (true, Some v)
      | None => (false, None)
      end
  | None => (false, None)
  end.

Definition get_opening_tag_type (tag : string) : bool * option string :=
  tag_type_of (opening_match tag).

Definition get_closing_tag_type (tag : string) : bool * option string :=
  tag_type_of (closing_match tag).

(** The three tags the two patterns know, with the kinds [TAG_MAPPING]
    gives them. *)
Definition known_tags : list (string * string) :=
  [("math", "math"); ("i", "italic"); ("b", "bold")].

Lemma first_match_names rest_ok s name :
  first_match tag_names rest_ok s = Some name ->
  exists rest, In name tag_names /\ s = name ++ rest /\ rest_ok rest = true.
Proof.
  unfold tag_names. cbn [first_match].
  repeat match goal with
  | |- context [Renderers.strip_prefix ?n s] =>
      let E := fresh "E" in let r := fresh "r" in
      destruct (Renderers.strip_prefix n s) as [r|] eqn:E;
      [apply Renderers.strip_prefix_Some in E;
       let Er := fresh "Er" in destruct (rest_ok r) eqn:Er|]
  end; intros H; try discriminate; injection H as <-;
  match goal with
  | Hs : s = (_ ++ ?r)%string |- _ =>
      exists r; split; [simpl; auto|split; assumption]
  end.
Qed.

Lemma first_match_complete rest_ok name rest :
  In name tag_names -> rest_ok rest = true ->
  first_match tag_names rest_ok (name ++ rest) = Some name.
Proof.
  unfold tag_names. simpl.
  intros [<-|[<-|[<-|[]]]] H;
    rewrite ?Renderers.append_cons, ?Renderers.append_nil; simpl;
    rewrite H; reflexivity.
Qed.

Lemma known_tag_kind name :
  In name tag_names ->
  exists kind, In (name, kind) known_tags /\ dict_get name TAG_MAPPING = Some kind.
Proof.
  unfold tag_names, known_tags. simpl.
  intros [<-|[<-|[<-|[]]]]; eexists; (split; [|reflexivity]); auto.
Qed.

Lemma known_tag_name name kind :
  In (name, kind) known_tags ->
  In name tag_names /\ dict_get name TAG_MAPPING = Some kind.
Proof.
  unfold tag_names, known_tags. simpl.
  intros [[= <- <-]|[[= <- <-]|[[= <- <-]|[]]]]; (split; [|reflexivity]); auto.
Qed.

Lemma tag_type_of_true m kind :
  tag_type_of m = (true, Some kind) <->
  exists name, m = Some name /\ dict_get name TAG_MAPPING = Some kind.
Proof.
  unfold tag_type_of. split.
  - destruct m as [name|]; [|discriminate].
    destruct (dict_get name TAG_MAPPING) as [v|] eqn:E; [|discriminate].
    intros [= <-]. eauto.
  - intros (name & -> & ->). reflexivity.
Qed.

Lemma contains_char_split c s :
  Ranges.contains_char c s = true <->
  exists a b, s = a ++ String c b /\ Ranges.contains_char c a = false.
Proof.
  split.
  - induction s as [|d s IH]; simpl; [discriminate|].
    destruct (Ascii.eqb_spec d c) as [->|Hd]; simpl.
    + intros _. exists "", s. split; reflexivity.
    + intros H. destruct (IH H) as (a & b & -> & Ha).
      exists (String d a), b. split; [reflexivity|]. simpl.
      rewrite Ha. destruct (Ascii.eqb_spec d c); [contradiction|reflexivity].
  - intros (a & b & -> & _). induction a as [|d a IH]; simpl.
    + rewrite Ascii.eqb_refl. reflexivity.
    + rewrite IH. apply orb_true_r.
Qed.

(** X8. [get_closing_tag_type] answers [(True, kind)] exactly for a text
    that starts with [</math>], [</i>] or [</b>], whatever follows, and
    the kind is the one of that tag; every other text gets
    [(False, None)]. *)
Theorem get_closing_tag_type_spec (tag : string) :
  (forall kind, get_closing_tag_type tag = (true, Some kind) <->
     exists name rest, In (name, kind) known_tags /\
       tag = "</" ++ name ++ ">" ++ rest) /\
  (get_closing_tag_type tag = (false, None) \/
   exists kind, get_closing_tag_type tag = (true, Some kind)).
Proof.
  split.
  - intros kind. unfold get_closing_tag_type. rewrite tag_type_of_true. split.
    + intros (name & Hm & Hk). unfold closing_match in Hm.
      destruct tag as [|c1 [|c2 s]]; try discriminate;
        destruct c1 as [[] [] [] [] [] [] [] []]; try discriminate.
      destruct c2 as [[] [] [] [] [] [] [] []]; try discriminate.
      apply first_match_names in Hm as (rest & Hin & -> & Hr).
      destruct rest as [|c rest]; [discriminate|].
      destruct c as [[] [] [] [] [] [] [] []]; try discriminate.
      exists name, rest. split; [|reflexivity].
      destruct (known_tag_kind name Hin) as (kind' & Hin' & Hk').
      rewrite Hk in Hk'. injection Hk' as <-. exact Hin'.
    + intros (name & rest & Hin & ->).
      apply known_tag_name in Hin as [Hin Hk].
      exists name. split; [|exact Hk].
      rewrite !Renderers.append_cons, !Renderers.append_nil. unfold closing_match.
      apply first_match_complete; [exact Hin|reflexivity].
  - unfold get_closing_tag_type, tag_type_of.
    destruct (closing_match tag) as [name|]; [|left; reflexivity].
    destruct (dict_get name TAG_MAPPING); eauto.
Qed.

(** X9. [get_opening_tag_type] answers [(True, kind)] exactly for a text
    that starts with [<math], [<i] or [<b], then attributes that are
    empty or begin with whitespace and hold no closing bracket, then the
    bracket, whatever follows; so [<br>] is not taken for bold. *)
Theorem get_opening_tag_type_spec (tag : string) (kind : string) :
  get_opening_tag_type tag = (true, Some kind) <->
  exists name attrs rest, In (name, kind) known_tags /\
    tag = "<" ++ name ++ attrs ++ ">" ++ rest /\
    Ranges.contains_char ">" attrs = false /\
    match attrs with
    | String c _ => is_space c = true
    | EmptyString => True
    end.
Proof.
  unfold get_opening_tag_type. rewrite tag_type_of_true. split.
  - intros (name & Hm & Hk). unfold opening_match in Hm.
    destruct tag as [|c1 s]; try discriminate;
      destruct c1 as [[] [] [] [] [] [] [] []]; try discriminate.
    apply first_match_names in Hm as (r & Hin & -> & Hr).
    destruct (known_tag_kind name Hin) as (kind' & Hin' & Hk').
    rewrite Hk in Hk'. injection Hk' as <-.
    exists name. apply orb_true_iff in Hr as [Hr|Hr].
    + destruct r as [|c r]; [discriminate|]. simpl in Hr.
      apply andb_true_iff in Hr as [Hc Hr].
      apply contains_char_split in Hr as (a & b & -> & Ha).
      exists (String c a), b. repeat split; try assumption.
      simpl. rewrite Ha, orb_false_r.
      destruct (Ascii.eqb_spec c ">") as [->|]; [discriminate|reflexivity].
    + destruct r as [|c r]; [discriminate|].
      destruct c as [[] [] [] [] [] [] [] []]; try discriminate.
      exists "", r. repeat split; assumption.
  - intros (name & attrs & rest & Hin & -> & Hno & Hsp).
    apply known_tag_name in Hin as [Hin Hk].
    exists name. split; [|exact Hk].
    rewrite !Renderers.append_cons, !Renderers.append_nil. unfold opening_match.
    apply first_match_complete; [exact Hin|].
    destruct attrs as [|c a].
    + rewrite Renderers.append_nil. reflexivity.
    + rewrite Renderers.append_cons. cbn [attrs_then_close]. rewrite Hsp.
      apply orb_true_iff. left. apply contains_char_split.
      simpl in Hno. apply orb_false_iff in Hno as [_ Hno]. eauto.
Qed.

(** X10. No text is both an opening and a closing tag. *)
Theorem opening_closing_exclusive (tag : string) :
  ~ ((get_opening_tag_type tag).1 = true /\ (get_closing_tag_type tag).1 = true).
Proof.
  intros [Ho Hc]. unfold get_opening_tag_type, get_closing_tag_type in *.
  destruct (opening_match tag) as [n1|] eqn:E1; [|discriminate].
  destruct (closing_match tag) as [n2|] eqn:E2; [|discriminate].
  unfold opening_match, closing_match in *.
  destruct tag as [|c1 [|c2 s]]; try discriminate;
    destruct c1 as [[] [] [] [] [] [] [] []]; try discriminate.
  destruct c2 as [[] [] [] [] [] [] [] []]; discriminate.
Qed.

End Tags.

(** ** marker/util.py: assign_config *)

From stdpp Require Import strings.

Module Config.

Local Open Scope string_scope.

(** What [hasattr] and [setattr] do with a name of the object.
    - [Data v]: the name can be read, with value [v], and assigning to
      it stores the new value: an instance attribute, or an attribute of
      the class, which the assignment then shadows on the instance.
    - [ReadOnly]: a property without setter; it can be read, assigning
      to it raises [AttributeError].
    - [Special]: any other name that [hasattr] sees, whose assignment
      is more than a store or fails in another way, such as [__dict__],
      which replaces all instance attributes, [__class__], or a property
      with a setter. What the assignment does is outside of the model. *)
Inductive slot (V : Type) : Type :=
| Data (v : V)
| ReadOnly
| Special.

Arguments Data {V} v.
Arguments ReadOnly {V}.
Arguments Special {V}.

(** An object as the map from every name that [hasattr] sees on it to
    the slot of that name: its instance attributes and the attributes,
    methods and properties of its class. *)
Abbreviation object V := (gmap string (slot V)).

(** A name with two underscores at both ends, like [__dict__]. Every
    object has some of these names without declaring them; whatever the
    map says, they all count as [Special]. *)
Definition ends_with_underscores (s : string) : bool :=
  match rev (list_ascii_of_string s) with
  | "_"%char :: "_"%char :: _ => true
  | _ => false
  end.

Definition is_dunder (name : string) : bool :=
  match name with
  | String "_" (String "_" rest) => ends_with_underscores rest
  | _ => false
  end.

Definition slot_of {V} (obj : object V) (name : string) : option (slot V) :=
  if is_dunder name then Some Special else obj !! name.

(** How a call ends: it returns, it raises, or it has reached an
    assignment that the model does not describe. *)
Inductive outcome (A : Type) : Type :=
| Returns (a : A)
| RaisesValueError
| RaisesAttributeError
| Unmodelled.

Arguments Returns {A} a.
Arguments RaisesValueError {A}.
Arguments RaisesAttributeError {A}.
Arguments Unmodelled {A}.

Definition hasattr {V} (obj : object V) (name : string) : bool :=
  bool_decide (is_Some (slot_of obj name)).

Definition setattr {V} (obj : object V) (name : string) (v : V)
    : outcome (object V) :=
  match slot_of obj name with
  | Some ReadOnly => RaisesAttributeError
  | Some Special => Unmodelled
  | Some (Data _) | None => Returns (<[name := Data v]> obj)
  end.

(** [sub in s] *)
Fixpoint is_substring (sub s : string) : bool :=
  match Renderers.strip_prefix sub s with
  | Some _ => true
  | None =>
      match s with
      | EmptyString => false
      | String _ s' => is_substring sub s'
      end
  end.

(** [s.removeprefix(p)] *)
Definition removeprefix (p s : string) : string :=
  match Renderers.strip_prefix p s with
  | Some r => r
  | None => s
  end.

(** The [config] argument. A dict is the list of its items in insertion
    order, with string keys that differ from each other; a Pydantic
    model is given by the dict that [config.dict()] makes of it. *)
Inductive config (V : Type) : Type :=
| ConfigNone
| ConfigModel (dict : list (string * V))
| ConfigDict (dict : list (string * V))
| ConfigOther.

Arguments ConfigNone {V}.
Arguments ConfigModel {V} dict.
Arguments ConfigDict {V} dict.
Arguments ConfigOther {V}.

(** A [for] loop over the items whose body may raise. *)
Fixpoint for_items {V S : Type} (body : S -> string * V -> outcome S) (s : S)
    (d : list (string * V)) : outcome S :=
  match d with
  | [] => Returns s
  | kv :: d' =>
      match body s kv with
      | Returns s' => for_items body s' d'
      | RaisesValueError => RaisesValueError
      | RaisesAttributeError => RaisesAttributeError
      | Unmodelled => Unmodelled
      end
  end.

(** The first loop: keys that are attribute names. *)
Definition assign_direct {V} (cls : object V) (dict_config : list (string * V))
    : outcome (object V) :=
  for_items (fun cls kv =>
               let k := kv.1 in
               if hasattr cls k then setattr cls k kv.2 else Returns cls)
            cls dict_config.

(** The second loop: keys that hold the class name. *)
Definition assign_prefixed {V} (cls_name : string) (cls : object V)
    (dict_config : list (string * V)) : outcome (object V) :=
  for_items (fun cls kv =>
               let k := kv.1 in
               if negb (is_substring cls_name k) then Returns cls
               else
                 let split_k := removeprefix (cls_name ++ "_") k in
                 if hasattr cls split_k then setattr cls split_k kv.2
                 else Returns cls)
            cls dict_config.

(** The object after the call. *)
Definition assign_config {V} (cls_name : string) (cls : object V)
    (cfg : config V) : outcome (object V) :=
  match cfg with
  | ConfigNone => Returns cls
  | ConfigModel dict_config | ConfigDict dict_config =>
      match assign_direct cls dict_config with
      | Returns cls' => assign_prefixed cls_name cls' dict_config
      | RaisesValueError => RaisesValueError
      | RaisesAttributeError => RaisesAttributeError
      | Unmodelled => Unmodelled
      end
  | ConfigOther => RaisesValueError
  end.

(** The items of a dict or model, none for the other arguments. *)
Definition items {V} (cfg : config V) : list (string * V) :=
  match cfg with
  | ConfigModel d | ConfigDict d => d
  | _ => []
  end.

(** *** Both loops as one loop over a choice of target attribute *)

Section assign_loop.
Context {V : Type} (target : string -> option string).

Definition assign_step (cls : object V) (kv : string * V) : outcome (object V) :=
  match target kv.1 with
  | Some a => if hasattr cls a then setattr cls a kv.2 else Returns cls
  | None => Returns cls
  end.

Definition assign_loop (cls : object V) (d : list (string * V))
    : outcome (object V) :=
  for_items assign_step cls d.

(** A step that returns has left the object as it was or has stored the
    value in a data attribute that the object had. *)
Lemma assign_step_returns cls kv cls' :
  assign_step cls kv = Returns cls' ->
  cls' = cls \/
  exists a old, target kv.1 = Some a /\ cls !! a = Some (Data old)
                /\ cls' = <[a := Data kv.2]> cls.
Proof.
  unfold assign_step. destruct (target kv.1) as [a|]; [|intros [= <-]; auto].
  unfold hasattr, setattr, slot_of.
  destruct (is_dunder a).
  { rewrite bool_decide_eq_true_2 by eauto. discriminate. }
  destruct (cls !! a) as [[old| |]|] eqn:E.
  - rewrite bool_decide_eq_true_2 by eauto. intros [= <-]. right. eauto.
  - rewrite bool_decide_eq_true_2 by eauto. discriminate.
  - rewrite bool_decide_eq_true_2 by eauto. discriminate.
  - rewrite bool_decide_eq_false_2 by (intros [x Hx]; discriminate).
    intros [= <-]. auto.
Qed.

Lemma assign_step_dom cls kv cls' a :
  assign_step cls kv = Returns cls' ->
  (is_Some (cls' !! a) <-> is_Some (cls !! a)).
Proof.
  intros H. apply assign_step_returns in H as [->|(t & old & _ & Ht & ->)];
    [reflexivity|].
  destruct (decide (t = a)) as [->|Hne].
  - rewrite lookup_insert_eq, Ht. split; eauto.
  - rewrite lookup_insert_ne by done. reflexivity.
Qed.

Lemma assign_loop_dom d : forall cls cls' a,
  assign_loop cls d = Returns cls' ->
  (is_Some (cls' !! a) <-> is_Some (cls !! a)).
Proof.
  unfold assign_loop.
  induction d as [|kv d IH]; intros cls cls' a; simpl.
  - intros [= <-]. reflexivity.
  - destruct (assign_step cls kv) as [cls1| | |] eqn:E; try discriminate.
    intros H. rewrite (IH cls1 cls' a H). eapply assign_step_dom, E.
Qed.

Lemma assign_step_other cls kv cls' a :
  target kv.1 <> Some a -> assign_step cls kv = Returns cls' ->
  cls' !! a = cls !! a.
Proof.
  intros Hne H. apply assign_step_returns in H as [->|(t & old & Ht & _ & ->)];
    [reflexivity|].
  rewrite lookup_insert_ne; [reflexivity|]. congruence.
Qed.

Lemma assign_loop_other d : forall cls cls' a,
  Forall (fun kv => target kv.1 <> Some a) d ->
  assign_loop cls d = Returns cls' ->
  cls' !! a = cls !! a.
Proof.
  unfold assign_loop.
  induction d as [|kv d IH]; intros cls cls' a Hall; simpl.
  - intros [= <-]. reflexivity.
  - inversion Hall; subst.
    destruct (assign_step cls kv) as [cls1| | |] eqn:E; try discriminate.
    intros H. rewrite (IH cls1 cls' a) by assumption.
    eapply assign_step_other; eassumption.
Qed.

Lemma for_items_app {S : Type} (body : S -> string * V -> outcome S) d1 d2 :
  forall s s',
  for_items body s (d1 ++ d2) = Returns s' ->
  exists s1, for_items body s d1 = Returns s1 /\ for_items body s1 d2 = Returns s'.
Proof.
  induction d1 as [|kv d1 IH]; intros s s'; simpl.
  - intros H. exists s. auto.
  - destruct (body s kv) as [s1| | |]; try discriminate. apply IH.
Qed.

Lemma assign_loop_last d1 kv d2 cls cls' a :
  target kv.1 = Some a -> is_Some (cls !! a) ->
  Forall (fun kv' => target kv'.1 <> Some a) d2 ->
  assign_loop cls (d1 ++ kv :: d2) = Returns cls' ->
  cls' !! a = Some (Data kv.2).
Proof.
  intros Ht Ha Hall Hrun. unfold assign_loop in Hrun.
  apply for_items_app in Hrun as (cls1 & H1 & H2). simpl in H2.
  destruct (assign_step cls1 kv) as [cls2| | |] eqn:E; try discriminate.
  rewrite (assign_loop_other d2 cls2 cls' a Hall H2).
  assert (Ha1 : is_Some (cls1 !! a)) by (eapply assign_loop_dom; eassumption).
  unfold assign_step in E. rewrite Ht in E. unfold hasattr, setattr, slot_of in E.
  destruct (is_dunder a).
  { rewrite bool_decide_eq_true_2 in E by eauto. discriminate. }
  rewrite bool_decide_eq_true_2 in E by exact Ha1.
  destruct (cls1 !! a) as [[old| |]|]; try discriminate.
  - injection E as <-. apply lookup_insert_eq.
  - destruct Ha1 as [x Hx]. discriminate.
Qed.

End assign_loop.

Definition direct_target (k : string) : option string := Some k.

Definition prefixed_target (cls_name k : string) : option string :=
  if is_substring cls_name k then Some (removeprefix (cls_name ++ "_") k)
  else None.

Lemma assign_direct_loop {V} (cls : object V) d :
  assign_direct cls d = assign_loop direct_target cls d.
Proof. reflexivity. Qed.

Lemma assign_prefixed_loop {V} cls_name (cls : object V) d :
  assign_prefixed cls_name cls d = assign_loop (prefixed_target cls_name) cls d.
Proof.
  unfold assign_prefixed, assign_loop. revert cls.
  induction d as [|kv d IH]; intros cls; simpl; [reflexivity|].
  assert (Hstep : (if negb (is_substring cls_name kv.1) then Returns cls
                   else if hasattr cls (removeprefix (cls_name ++ "_") kv.1)
                        then setattr cls (removeprefix (cls_name ++ "_") kv.1) kv.2
                        else Returns cls)
                  = assign_step (prefixed_target cls_name) cls kv).
  { unfold assign_step, prefixed_target.
    destruct (is_substring cls_name kv.1); reflexivity. }
  rewrite Hstep. destruct (assign_step _ cls kv); try reflexivity. apply IH.
Qed.

Lemma is_substring_prefix p r : is_substring p (p ++ r) = true.
Proof.
  destruct (p ++ r) as [|c s] eqn:E; simpl;
    rewrite <- E, Renderers.strip_prefix_append; reflexivity.
Qed.

Lemma append_assoc (a b c : string) : (a ++ b) ++ c = a ++ b ++ c.
Proof.
  induction a as [|x a IH]; rewrite ?Renderers.append_nil; [reflexivity|].
  rewrite !Renderers.append_cons. f_equal. exact IH.
Qed.

(** A key aims at the attribute [a] in the second loop only if it is the
    prefixed name of [a], or [a] itself with the class name inside. *)
Lemma prefixed_target_inv cls_name k a :
  prefixed_target cls_name k = Some a ->
  k = cls_name ++ "_" ++ a \/ (k = a /\ is_substring cls_name a = true).
Proof.
  unfold prefixed_target, removeprefix.
  destruct (is_substring cls_name k) eqn:Es; [|discriminate].
  destruct (Renderers.strip_prefix (cls_name ++ "_") k) as [r|] eqn:E.
  - intros [= ->]. left. apply Renderers.strip_prefix_Some in E.
    rewrite E. apply append_assoc.
  - intros [= ->]. right. split; [reflexivity|exact Es].
Qed.

Lemma prefixed_target_prefixed cls_name a :
  prefixed_target cls_name (cls_name ++ "_" ++ a) = Some a.
Proof.
  unfold prefixed_target, removeprefix.
  rewrite is_substring_prefix, <- append_assoc, Renderers.strip_prefix_append.
  reflexivity.
Qed.

Lemma assign_config_items {V} cls_name (cls cls' : object V) cfg :
  assign_config cls_name cls cfg = Returns cls' ->
  exists cls1,
    assign_loop direct_target cls (items cfg) = Returns cls1
    /\ assign_loop (prefixed_target cls_name) cls1 (items cfg) = Returns cls'.
Proof.
  destruct cfg as [|d|d|]; simpl; try discriminate.
  - intros [= <-]. exists cls. split; reflexivity.
  - rewrite assign_direct_loop.
    destruct (assign_loop direct_target cls d) as [cls1| | |]; try discriminate.
    rewrite assign_prefixed_loop. eauto.
  - rewrite assign_direct_loop.
    destruct (assign_loop direct_target cls d) as [cls1| | |]; try discriminate.
    rewrite assign_prefixed_loop. eauto.
Qed.

(** An object with two data attributes and a read-only property. *)
Definition renderer_ex : object nat :=
  <["height" := Data 1%nat]> (<["debug" := Data 0%nat]>
    (<["md_cls" := ReadOnly]> ∅)).

Definition config_ex : config nat :=
  ConfigDict [("Renderer_height", 7%nat); ("height", 5%nat); ("color", 3%nat)].

Definition renderer_after : object nat :=
  <["height" := Data 7%nat]> (<["height" := Data 5%nat]> renderer_ex).

(** X11. When [assign_config] returns, having assigned to data
    attributes only, it has neither created nor removed an attribute:
    the object has the same attribute names after the call. A key that
    names a read-only property makes it raise, and a key like [__dict__]
    leads out of the model; in both cases it does not return here. *)
Theorem assign_config_same_attributes {V} cls_name (cls cls' : object V) cfg a :
  assign_config cls_name cls cfg = Returns cls' ->
  (is_Some (cls' !! a) <-> is_Some (cls !! a)).
Proof.
  intros H. apply assign_config_items in H as (cls1 & H1 & H2).
  rewrite (assign_loop_dom _ _ _ _ a H2). exact (assign_loop_dom _ _ _ _ a H1).
Qed.

Lemma assign_config_same_attributes_witness :
  is_Some (renderer_after !! "color") <-> is_Some (renderer_ex !! "color").
Proof.
  apply (assign_config_same_attributes "Renderer" renderer_ex renderer_after
           config_ex).
  vm_compute. reflexivity.
Defined.

(** X12. When [assign_config] returns, having assigned to data
    attributes only, an attribute is as it was if the configuration
    holds neither its name nor its name behind the class name and an
    underscore. *)
Theorem assign_config_untouched {V} cls_name (cls cls' : object V) cfg a :
  assign_config cls_name cls cfg = Returns cls' ->
  a ∉ (items cfg).*1 -> (cls_name ++ "_" ++ a) ∉ (items cfg).*1 ->
  cls' !! a = cls !! a.
Proof.
  intros H Ha Hpa. apply assign_config_items in H as (cls1 & H1 & H2).
  rewrite (assign_loop_other (prefixed_target cls_name) (items cfg) cls1 cls' a);
    [| |exact H2].
  - apply (assign_loop_other direct_target (items cfg) cls cls1 a); [|exact H1].
    apply Forall_forall. intros kv Hkv [= Hk]. apply Ha.
    rewrite <- Hk. apply list_elem_of_fmap. eauto.
  - apply Forall_forall. intros kv Hkv Hk.
    assert (Hin : kv.1 ∈ (items cfg).*1) by (apply list_elem_of_fmap; eauto).
    apply prefixed_target_inv in Hk as [Hk|[Hk _]]; rewrite Hk in Hin; tauto.
Qed.

Lemma assign_config_untouched_witness :
  renderer_after !! "debug" = renderer_ex !! "debug".
Proof.
  apply (assign_config_untouched "Renderer" renderer_ex renderer_after config_ex).
  - vm_compute. reflexivity.
  - apply (bool_decide_unpack _). vm_compute. exact I.
  - apply (bool_decide_unpack _). vm_compute. exact I.
Defined.

(** X13. When [assign_config] returns, having assigned to data
    attributes only: a key made of the class name, an underscore and the
    name of an attribute the object has has set that attribute, and has
    won over the plain key of the same attribute wherever the two stand
    in the configuration; this needs the attribute's own name not to hold
    the class name, or not to be a key. *)
Theorem assign_config_prefixed_wins {V} cls_name (cls cls' : object V) cfg a v :
  assign_config cls_name cls cfg = Returns cls' ->
  NoDup (items cfg).*1 ->
  (cls_name ++ "_" ++ a, v) ∈ items cfg ->
  is_Some (cls !! a) ->
  is_substring cls_name a = false \/ a ∉ (items cfg).*1 ->
  cls' !! a = Some (Data v).
Proof.
  intros H Hnd Hin Ha Hside. apply assign_config_items in H as (cls1 & H1 & H2).
  assert (Ha1 : is_Some (cls1 !! a)) by (eapply assign_loop_dom; eassumption).
  apply list_elem_of_split in Hin as (d1 & d2 & Hd).
  rewrite Hd in H2, Hnd, Hside. clear H1 Hd.
  apply (assign_loop_last (prefixed_target cls_name) d1
           (cls_name ++ "_" ++ a, v) d2 cls1 cls' a);
    [apply prefixed_target_prefixed|exact Ha1| |exact H2].
  rewrite fmap_app, fmap_cons in Hnd.
  apply NoDup_app in Hnd as (_ & Hd1 & Hnd). apply NoDup_cons in Hnd as [Hk _].
  apply Forall_forall. intros kv Hkv Ht.
  assert (Hin2 : kv.1 ∈ d2.*1) by (apply list_elem_of_fmap; eauto).
  apply prefixed_target_inv in Ht as [Hk2|[Hk2 Hs]].
  - apply Hk. simpl. rewrite <- Hk2. exact Hin2.
  - destruct Hside as [Hside|Hside]; [congruence|].
    apply Hside. rewrite fmap_app, fmap_cons, <- Hk2.
    apply elem_of_app. right. apply list_elem_of_further. exact Hin2.
Qed.

Lemma assign_config_prefixed_wins_witness :
  renderer_after !! "height" = Some (Data 7%nat).
Proof.
  apply (assign_config_prefixed_wins "Renderer" renderer_ex renderer_after
           config_ex).
  - vm_compute. reflexivity.
  - apply (bool_decide_unpack _). vm_compute. exact I.
  - apply list_elem_of_here.
  - exists (Data 1%nat). vm_compute. reflexivity.
  - left. vm_compute. reflexivity.
Defined.

(** A key that names a read-only property makes the call raise
    [AttributeError], and the key [__dict__] leads out of the model. *)
Example assign_config_special_keys :
  assign_config "Renderer" renderer_ex (ConfigDict [("md_cls", 1%nat)])
  = RaisesAttributeError
  /\ assign_config "Renderer" renderer_ex (ConfigDict [("__dict__", 1%nat)])
     = Unmodelled.
Proof. split; vm_compute; reflexivity. Qed.

End Config.

(** ** marker/providers/pdf.py *)

Module Pdf.

Local Open Scope string_scope.
Local Open Scope Z_scope.

Definition flag_map : list (Z * string) :=
  [(1, "FixedPitch"); (2, "Serif"); (3, "Symbolic"); (4, "Script");
   (6, "Nonsymbolic"); (7, "Italic"); (17, "AllCap"); (18, "SmallCap");
   (19, "ForceBold"); (20, "UseExternAttr")].

(** The loop over [flag_map]: the names of the flags whose bit is set. *)
Definition collect_flags (flags : Z) : gset string :=
  foldl (fun set_flags (entry : Z * string) =>
           if Z.land flags (Z.shiftl 1 (entry.1 - 1)) =? 0 then set_flags
           else set_flags ∪ {[entry.2]})
        ∅ flag_map.

(** Truth value of a set: it has an element. *)
Definition nonempty (s : gset string) : bool := negb (bool_decide (s = ∅)).

(** The function after the loop over [flag_map]. *)
Definition formats_of (set_flags : gset string) : gset string :=
  let set_flags :=
    if nonempty set_flags then set_flags else set_flags ∪ {["Plain"]} in
  if bool_decide (set_flags = {["Symbolic"; "Italic"]})
     || bool_decide (set_flags = {["Symbolic"; "Italic"; "UseExternAttr"]})
  then {["plain"]}
  else if bool_decide (set_flags = {["UseExternAttr"]}) then {["plain"]}
  else if bool_decide (set_flags = {["Plain"]}) then {["plain"]}
  else
    let formats : gset string := ∅ in
    let formats :=
      if nonempty (set_flags ∩ {["Italic"]}) then formats ∪ {["italic"]}
      else formats in
    let formats :=
      if nonempty (set_flags ∩ {["ForceBold"]}) then formats ∪ {["bold"]}
      else formats in
    let formats :=
      if nonempty (set_flags ∩ {["FixedPitch"; "Serif"; "Script"; "Nonsymbolic";
                                 "AllCap"; "SmallCap"; "UseExternAttr"]})
      then formats ∪ {["plain"]}
      else formats in
    formats.

Definition font_flags_to_format (flags : option Z) : gset string :=
  match flags with
  | None => {["plain"]}
  | Some flags => formats_of (collect_flags flags)
  end.

Lemma land_bit (flags n : Z) :
  0 <= n -> (Z.land flags (Z.shiftl 1 n) =? 0) = negb (Z.testbit flags n).
Proof.
  intros Hn.
  assert (H : Z.land flags (Z.shiftl 1 n) =
              if Z.testbit flags n then Z.shiftl 1 n else 0).
  { apply Z.bits_inj'. intros k Hk. rewrite Z.land_spec, Z.shiftl_spec by lia.
    destruct (Z.eq_dec k n) as [->|Hne].
    - rewrite Z.sub_diag. simpl (Z.testbit 1 0). rewrite andb_true_r.
      destruct (Z.testbit flags n); [|rewrite Z.bits_0; reflexivity].
      rewrite Z.shiftl_spec, Z.sub_diag by lia. reflexivity.
    - assert (Z.testbit 1 (k - n) = false) as ->.
      { destruct (Z.ltb_spec k n).
        - apply Z.testbit_neg_r. lia.
        - apply (Z.bits_above_log2 1 (k - n)); simpl; lia. }
      rewrite andb_false_r. destruct (Z.testbit flags n); [|rewrite Z.bits_0; reflexivity].
      rewrite Z.shiftl_spec by lia.
      destruct (Z.ltb_spec k n).
      + symmetry. apply Z.testbit_neg_r. lia.
      + symmetry. apply (Z.bits_above_log2 1 (k - n)); simpl; lia. }
  rewrite H. destruct (Z.testbit flags n); [|reflexivity].
  apply Z.eqb_neq. rewrite Z.shiftl_1_l. apply Z.pow_nonzero; lia.
Qed.

Lemma elem_of_collect_loop (flags : Z) (name : string) l : forall acc : gset string,
  Forall (fun entry : Z * string => 1 <= entry.1) l ->
  name ∈ foldl (fun set_flags (entry : Z * string) =>
                  if Z.land flags (Z.shiftl 1 (entry.1 - 1)) =? 0 then set_flags
                  else set_flags ∪ {[entry.2]}) acc l <->
  name ∈ acc \/
  exists pos, (pos, name) ∈ l /\ Z.testbit flags (pos - 1) = true.
Proof.
  induction l as [|[p n] l IH]; intros acc Hpos; simpl.
  - split; [auto|]. intros [Hacc|(pos & Hin & _)]; [exact Hacc|].
    apply elem_of_nil in Hin. contradiction.
  - apply Forall_cons in Hpos as [Hp Hpos]. simpl in Hp.
    rewrite (IH _ Hpos), land_bit by lia.
    destruct (Z.testbit flags (p - 1)) eqn:Eb; simpl.
    + rewrite elem_of_union, elem_of_singleton. split.
      * intros [[Hacc| ->]|(pos & Hin & Hb)]; [auto| |].
        -- right. exists p. split; [apply list_elem_of_here|exact Eb].
        -- right. exists pos. split; [apply list_elem_of_further, Hin|exact Hb].
      * intros [Hacc|(pos & Hin & Hb)]; [auto|].
        apply elem_of_cons in Hin as [[= -> ->]|Hin]; [auto|eauto].
    + split.
      * intros [Hacc|(pos & Hin & Hb)]; [auto|].
        right. exists pos. split; [apply list_elem_of_further, Hin|exact Hb].
      * intros [Hacc|(pos & Hin & Hb)]; [auto|].
        apply elem_of_cons in Hin as [[= -> ->]|Hin]; [congruence|eauto].
Qed.

Lemma elem_of_collect_flags (flags : Z) (name : string) :
  name ∈ collect_flags flags <->
  exists pos, (pos, name) ∈ flag_map /\ Z.testbit flags (pos - 1) = true.
Proof.
  unfold collect_flags. rewrite elem_of_collect_loop.
  - rewrite elem_of_empty. tauto.
  - unfold flag_map. repeat constructor; simpl; lia.
Qed.

(** The ten names of [flag_map]. *)
Definition flag_names : gset string :=
  {["FixedPitch"; "Serif"; "Symbolic"; "Script"; "Nonsymbolic"; "Italic";
    "AllCap"; "SmallCap"; "ForceBold"; "UseExternAttr"]}.

Lemma collect_flags_names (flags : Z) : collect_flags flags ⊆ flag_names.
Proof.
  intros name Hin. apply elem_of_collect_flags in Hin as (pos & Hin & _).
  unfold flag_map in Hin. rewrite !elem_of_cons, elem_of_nil in Hin.
  unfold flag_names.
  rewrite !elem_of_union, !elem_of_singleton.
  repeat (destruct Hin as [Hin|Hin]; [injection Hin as -> ->; tauto|]).
  contradiction.
Qed.

(** The flag set the branches look at: [Plain] stands in for no flag. *)
Definition with_plain (set_flags : gset string) : gset string :=
  if nonempty set_flags then set_flags else set_flags ∪ {["Plain"]}.

(** The three tests that give [plain] alone. *)
Definition plain_only (s : gset string) : Prop :=
  s = {["Symbolic"; "Italic"]} \/ s = {["Symbolic"; "Italic"; "UseExternAttr"]}
  \/ s = {["UseExternAttr"]} \/ s = {["Plain"]}.

Definition plain_flags : gset string :=
  {["FixedPitch"; "Serif"; "Script"; "Nonsymbolic"; "AllCap"; "SmallCap";
    "UseExternAttr"]}.

Lemma nonempty_true (s : gset string) : nonempty s = true <-> exists x, x ∈ s.
Proof.
  unfold nonempty. rewrite negb_true_iff, bool_decide_eq_false. split.
  - intros H. apply set_choose_L. exact H.
  - intros [x Hx] ->. apply elem_of_empty in Hx. exact Hx.
Qed.

Lemma nonempty_inter (s t : gset string) :
  nonempty (s ∩ t) = true <-> exists x, x ∈ s /\ x ∈ t.
Proof.
  rewrite nonempty_true. split; intros [x Hx]; exists x;
    apply elem_of_intersection; exact Hx.
Qed.

Lemma nonempty_inter_singleton (s : gset string) (name : string) :
  nonempty (s ∩ {[name]}) = true <-> name ∈ s.
Proof.
  rewrite nonempty_inter. split.
  - intros (x & Hx & Hn). apply elem_of_singleton in Hn as ->. exact Hx.
  - intros H. exists name. split; [exact H|]. apply elem_of_singleton. reflexivity.
Qed.

(** The formats, one membership at a time. *)
Lemma elem_of_formats_of (S : gset string) (x : string) :
  x ∈ formats_of S <->
  (plain_only (with_plain S) /\ x = "plain") \/
  (~ plain_only (with_plain S) /\
   ((x = "italic" /\ "Italic" ∈ with_plain S) \/
    (x = "bold" /\ "ForceBold" ∈ with_plain S) \/
    (x = "plain" /\ exists n, n ∈ with_plain S /\ n ∈ plain_flags))).
Proof.
  unfold formats_of. fold (with_plain S). fold plain_flags.
  generalize (with_plain S). clear S. intros s. unfold plain_only.
  destruct (bool_decide_reflect (s = {["Symbolic"; "Italic"]})) as [E1|E1];
    [cbn [orb]; rewrite elem_of_singleton; tauto|].
  destruct (bool_decide_reflect (s = {["Symbolic"; "Italic"; "UseExternAttr"]}))
    as [E2|E2]; [cbn [orb]; rewrite elem_of_singleton; tauto|].
  cbn [orb].
  destruct (bool_decide_reflect (s = {["UseExternAttr"]})) as [E3|E3];
    [rewrite elem_of_singleton; tauto|].
  destruct (bool_decide_reflect (s = {["Plain"]})) as [E4|E4];
    [rewrite elem_of_singleton; tauto|].
  pose proof (nonempty_inter_singleton s "Italic") as Hi.
  pose proof (nonempty_inter_singleton s "ForceBold") as Hb.
  pose proof (nonempty_inter s plain_flags) as Hp.
  destruct (nonempty (s ∩ {["Italic"]})), (nonempty (s ∩ {["ForceBold"]})),
    (nonempty (s ∩ plain_flags));
    rewrite ?elem_of_union, ?elem_of_singleton, ?elem_of_empty;
    intuition (try discriminate; try congruence).
Qed.


Ltac small_set H :=
  rewrite ?elem_of_union, ?elem_of_singleton in H;
  intuition (try discriminate; try congruence).

Lemma elem_of_with_plain (S : gset string) (x : string) :
  x ∈ with_plain S <-> x ∈ S \/ (S = ∅ /\ x = "Plain").
Proof.
  unfold with_plain, nonempty.
  destruct (bool_decide_reflect (S = ∅)) as [->|Hne]; cbn [negb].
  - rewrite elem_of_union, elem_of_singleton. tauto.
  - tauto.
Qed.

Lemma with_plain_inhabited (S : gset string) (x : string) :
  x ∈ S -> with_plain S = S.
Proof.
  intros Hx. unfold with_plain, nonempty.
  destruct (bool_decide_reflect (S = ∅)) as [->|Hne]; [|reflexivity].
  apply elem_of_empty in Hx. contradiction.
Qed.

Lemma with_plain_empty : with_plain ∅ = {["Plain"]}.
Proof.
  unfold with_plain, nonempty. rewrite bool_decide_eq_true_2 by reflexivity.
  cbn [negb]. apply set_eq. intros x.
  rewrite elem_of_union, elem_of_empty. tauto.
Qed.

Lemma formats_of_bold (S : gset string) :
  "bold" ∈ formats_of S <-> "ForceBold" ∈ S.
Proof.
  rewrite elem_of_formats_of. split.
  - intros [[_ H]|[_ [[H _]|[[_ H]|[H _]]]]]; try discriminate.
    apply elem_of_with_plain in H as [H|[_ H]]; [exact H|discriminate].
  - intros H. right. rewrite (with_plain_inhabited S _ H).
    split; [|tauto].
    intros [E|[E|[E|E]]]; rewrite E in H; small_set H.
Qed.

Lemma formats_of_italic (S : gset string) :
  "italic" ∈ formats_of S <->
  "Italic" ∈ S /\ S <> {["Symbolic"; "Italic"]}
  /\ S <> {["Symbolic"; "Italic"; "UseExternAttr"]}.
Proof.
  rewrite elem_of_formats_of. split.
  - intros [[_ H]|[Hn [[_ H]|[[H _]|[H _]]]]]; try discriminate.
    apply elem_of_with_plain in H as [H|[_ H]]; [|discriminate].
    rewrite (with_plain_inhabited S _ H) in Hn. unfold plain_only in Hn. tauto.
  - intros (H & H1 & H2). right. rewrite (with_plain_inhabited S _ H).
    split; [|tauto].
    intros [E|[E|[E|E]]]; try contradiction; rewrite E in H; small_set H.
Qed.

Lemma formats_of_range (S : gset string) :
  formats_of S ⊆ {["plain"; "italic"; "bold"]}.
Proof.
  intros x Hx. apply elem_of_formats_of in Hx.
  rewrite !elem_of_union, !elem_of_singleton. tauto.
Qed.

Lemma formats_of_empty (S : gset string) :
  S ⊆ flag_names -> (formats_of S = ∅ <-> S = {["Symbolic"]}).
Proof.
  intros Hsub. split.
  - intros Hempty.
    assert (Hnone : forall x, ~ x ∈ formats_of S).
    { intros x Hx. rewrite Hempty in Hx. apply elem_of_empty in Hx. exact Hx. }
    assert (Hne : S <> ∅).
    { intros ->. apply (Hnone "plain"), elem_of_formats_of.
      left. split; [|reflexivity]. rewrite with_plain_empty.
      unfold plain_only. tauto. }
    apply set_choose_L in Hne as [y Hy].
    pose proof (with_plain_inhabited S y Hy) as Hw.
    assert (Hnp : ~ plain_only S).
    { intros Hp. apply (Hnone "plain"), elem_of_formats_of.
      left. rewrite Hw. tauto. }
    assert (Hsym : forall x, x ∈ S -> x = "Symbolic").
    { intros x Hx. pose proof (Hsub x Hx) as Hk. unfold flag_names in Hk.
      rewrite !elem_of_union, !elem_of_singleton in Hk.
      assert (Hi : ~ "Italic" ∈ S).
      { intros H. apply (Hnone "italic"), elem_of_formats_of.
        right. rewrite Hw. tauto. }
      assert (Hb : ~ "ForceBold" ∈ S).
      { intros H. apply (Hnone "bold"), elem_of_formats_of.
        right. rewrite Hw. tauto. }
      assert (Hpl : ~ x ∈ plain_flags).
      { intros H. apply (Hnone "plain"), elem_of_formats_of.
        right. rewrite Hw. split; [exact Hnp|]. right. right. eauto. }
      unfold plain_flags in Hpl.
      rewrite !elem_of_union, !elem_of_singleton in Hpl.
      destruct Hk as [[[[[[[[[Hk|Hk]|Hk]|Hk]|Hk]|Hk]|Hk]|Hk]|Hk]|Hk];
        try (exfalso; tauto); try exact Hk; subst x; contradiction. }
    apply set_eq. intros x. rewrite elem_of_singleton. split; [apply Hsym|].
    intros ->. rewrite <- (Hsym y Hy). exact Hy.
  - intros ->. apply set_eq. intros x. rewrite elem_of_empty.
    split; [|contradiction]. intros Hx. apply elem_of_formats_of in Hx.
    assert (Hs : "Symbolic" ∈ ({["Symbolic"]} : gset string))
      by (apply elem_of_singleton; reflexivity).
    rewrite (with_plain_inhabited _ _ Hs) in Hx.
    assert (Hin : forall n, n ∈ ({["Symbolic"]} : gset string) -> n = "Symbolic")
      by (intros n Hn; apply elem_of_singleton in Hn; exact Hn).
    destruct Hx as [[Hp _]|[_ [[_ H]|[[_ H]|[_ (n & Hn & H)]]]]].
    + destruct Hp as [E|[E|[E|E]]].
      * assert (H : "Italic" ∈ ({["Symbolic"]} : gset string))
          by (rewrite E, !elem_of_union, !elem_of_singleton; tauto).
        apply Hin in H. discriminate.
      * assert (H : "Italic" ∈ ({["Symbolic"]} : gset string))
          by (rewrite E, !elem_of_union, !elem_of_singleton; tauto).
        apply Hin in H. discriminate.
      * rewrite E in Hs. small_set Hs.
      * rewrite E in Hs. small_set Hs.
    + apply Hin in H. discriminate.
    + apply Hin in H. discriminate.
    + apply Hin in Hn. subst n. unfold plain_flags in H. small_set H.
Qed.

Lemma collect_flags_bit (flags pos : Z) (name : string) :
  (pos, name) ∈ flag_map ->
  (name ∈ collect_flags flags <-> Z.testbit flags (pos - 1) = true).
Proof.
  intros Hin. rewrite elem_of_collect_flags. split; [|eauto].
  intros (p & Hp & Hb). unfold flag_map in Hin, Hp.
  rewrite !elem_of_cons, elem_of_nil in Hin.
  rewrite !elem_of_cons, elem_of_nil in Hp.
  repeat (destruct Hin as [Hin|Hin]; [injection Hin as -> ->|]);
    try contradiction;
    repeat (destruct Hp as [Hp|Hp]; [inversion Hp; subst; exact Hb|]);
    contradiction.
Qed.

(** X14. [font_flags_to_format]: the format [bold] is given exactly when
    bit 19 (ForceBold) of the flags is set; [italic] exactly when bit 7
    (Italic) is set and the flags of the map that are set are not just
    Symbolic and Italic, with or without UseExternAttr. *)
Theorem font_flags_to_format_bold_italic (flags : Z) :
  ("bold" ∈ font_flags_to_format (Some flags) <-> Z.testbit flags 18 = true) /\
  ("italic" ∈ font_flags_to_format (Some flags) <->
     Z.testbit flags 6 = true
     /\ collect_flags flags <> {["Symbolic"; "Italic"]}
     /\ collect_flags flags <> {["Symbolic"; "Italic"; "UseExternAttr"]}).
Proof.
  simpl. rewrite formats_of_bold, formats_of_italic.
  rewrite (collect_flags_bit flags 19 "ForceBold"), (collect_flags_bit flags 7 "Italic");
    [tauto| |]; unfold flag_map; rewrite !elem_of_cons; tauto.
Qed.

(** X15. [font_flags_to_format] returns only the formats [plain],
    [italic] and [bold]; it returns no format at all exactly when
    Symbolic is the only flag of the map that is set, although missing
    flags and flags without a known bit both give [plain]. *)
Theorem font_flags_to_format_range_empty (flags : option Z) :
  font_flags_to_format flags ⊆ {["plain"; "italic"; "bold"]} /\
  (font_flags_to_format flags = ∅ <->
   exists f, flags = Some f /\ collect_flags f = {["Symbolic"]}).
Proof.
  destruct flags as [f|]; simpl.
  - split; [apply formats_of_range|].
    rewrite (formats_of_empty _ (collect_flags_names f)). split.
    + intros H. eauto.
    + intros (f' & [= <-] & H). exact H.
  - split.
    + intros x Hx. rewrite !elem_of_union. tauto.
    + split.
      * intros H. exfalso.
        assert (Hp : "plain" ∈ ({["plain"]} : gset string))
          by (apply elem_of_singleton; reflexivity).
        rewrite H in Hp. apply elem_of_empty in Hp. exact Hp.
      * intros (f & Hf & _). discriminate.
Qed.

(** X16. [font_flags_to_format] looks at the ten bits of [flag_map] only:
    two flag words that agree on them get the same formats. *)
Theorem font_flags_to_format_unknown_bits (f g : Z) :
  Forall (fun entry : Z * string =>
            Z.testbit f (entry.1 - 1) = Z.testbit g (entry.1 - 1)) flag_map ->
  font_flags_to_format (Some f) = font_flags_to_format (Some g).
Proof.
  intros H. simpl. f_equal. apply set_eq. intros name.
  rewrite !elem_of_collect_flags.
  split; intros (pos & Hin & Hb); exists pos; (split; [exact Hin|]);
    pose proof (proj1 (Forall_forall _ _) H _ Hin) as E; simpl in E; congruence.
Qed.

Lemma font_flags_to_format_unknown_bits_witness :
  font_flags_to_format (Some 80) = font_flags_to_format (Some 64).
Proof.
  apply font_flags_to_format_unknown_bits. repeat constructor.
Defined.

(** *** check_line_spans and detect_bad_ocr *)

(** [len(re.findall(p, text))] for a pattern [p] that is one character
    class repeated once or more: the number of maximal runs of
    characters of the class. [in_run] tells whether the character
    before was in the class. *)
Fixpoint count_runs (cls : ascii -> bool) (in_run : bool) (s : string) : nat :=
  match s with
  | EmptyString => 0
  | String c s' =>
      if cls c then ((if in_run then 0 else 1) + count_runs cls true s')%nat
      else count_runs cls false s'
  end.

(** [len(re.sub(p, "", text))] for such a pattern: the number of
    characters outside the class. *)
Fixpoint count_outside (cls : ascii -> bool) (s : string) : nat :=
  match s with
  | EmptyString => 0
  | String c s' =>
      if cls c then count_outside cls s' else S (count_outside cls s')
  end.

Definition is_newline (c : ascii) : bool := Ascii.eqb c "010".

(** [a / b] on two lengths. *)
Definition true_div (a b : nat) : result Q :=
  match b with
  | O => Raise ZeroDivisionError
  | S _ => Ok (Z.of_nat a # Pos.of_nat b)
  end.

Definition Qlt_bool (a b : Q) : bool := negb (Qle_bool b a).

(** [len([c for c in text if c in chars])] *)
Fixpoint count_in (chars : list ascii) (s : string) : nat :=
  match s with
  | EmptyString => 0
  | String c s' =>
      if existsb (Ascii.eqb c) chars then S (count_in chars s')
      else count_in chars s'
  end.

(** Whether some character of [s] is not whitespace. *)
Fixpoint has_text (s : string) : bool :=
  match s with
  | EmptyString => false
  | String c s' => negb (Py.is_space c) || has_text s'
  end.

Section ocr_check.

(** The attributes of the provider that the checks read, and
    [alphanum_ratio] of [marker.providers.utils]. *)
Variables ocr_space_threshold ocr_newline_threshold ocr_alphanum_threshold : Q.
Variable ocr_invalid_chars : list ascii.
Variable alphanum_ratio : string -> result Q.

Definition detect_bad_ocr (text : string) : result bool :=
  if (String.length text =? 0)%nat then Ok true
  else
    let spaces := count_runs Py.is_space false text in
    let alpha_chars := count_outside Py.is_space text in
    space_ratio ← true_div spaces (alpha_chars + spaces);
    if Qlt_bool ocr_space_threshold space_ratio then Ok true
    else
      let newlines := count_runs is_newline false text in
      let non_newlines := count_outside is_newline text in
      newline_ratio ← true_div newlines (newlines + non_newlines);
      if Qlt_bool ocr_newline_threshold newline_ratio then Ok true
      else
        ratio ← alphanum_ratio text;
        if Qlt_bool ratio ocr_alphanum_threshold then Ok true
        else
          let invalid_chars := count_in ocr_invalid_chars text in
          if Qlt_bool
               (Qmax 6 (inject_Z (Z.of_nat (String.length text)) * (3 # 100)))
               (inject_Z (Z.of_nat invalid_chars))
          then Ok true
          else Ok false.

Definition check_line_spans (page_lines : list Providers.ProviderOutput)
    : result bool :=
  let page_spans := concat (map Providers.po_spans page_lines) in
  if (length page_spans =? 0)%nat then Ok false
  else
    let text :=
      foldl (fun text span =>
               ((text ++ " " ++ Providers.span_text span) ++ String "010" "")%string)
            ""%string page_spans in
    if (String.length (Py.strip text) =? 0)%nat then Ok false
    else
      bad ← detect_bad_ocr text;
      if (bad : bool) then Ok false else Ok true.

Lemma count_runs_outside_pos cls (text : string) :
  text <> ""%string ->
  (0 < count_outside cls text + count_runs cls false text)%nat.
Proof.
  destruct text as [|c s]; [congruence|]. intros _. simpl.
  destruct (cls c); lia.
Qed.

Lemma true_div_Ok (a b : nat) : (0 < b)%nat -> true_div a b = Ok (Z.of_nat a # Pos.of_nat b).
Proof. destruct b; [lia|reflexivity]. Qed.

Lemma length_zero (s : string) : (String.length s =? 0)%nat = true <-> s = ""%string.
Proof. destruct s; simpl; split; congruence. Qed.

(** X17. [detect_bad_ocr] never divides by zero: on every text the two
    ratios have a positive denominator, so the only exception it can
    raise is one that [alphanum_ratio] raises. *)
Theorem detect_bad_ocr_no_zero_division (text : string) (e : exn) :
  detect_bad_ocr text = Raise e -> alphanum_ratio text = Raise e.
Proof.
  unfold detect_bad_ocr.
  destruct (String.length text =? 0)%nat eqn:El; [discriminate|].
  assert (Hne : text <> ""%string).
  { intros ->. discriminate. }
  rewrite (true_div_Ok (count_runs Py.is_space false text))
    by (apply count_runs_outside_pos; exact Hne).
  cbn [mbind result_bind].
  destruct (Qlt_bool ocr_space_threshold _); [discriminate|].
  rewrite (true_div_Ok (count_runs is_newline false text))
    by (pose proof (count_runs_outside_pos is_newline text Hne); lia).
  cbn [mbind result_bind].
  destruct (Qlt_bool ocr_newline_threshold _); [discriminate|].
  destruct (alphanum_ratio text) as [r|e']; cbn [mbind result_bind].
  - destruct (Qlt_bool r ocr_alphanum_threshold); [discriminate|].
    destruct (Qlt_bool _ _); discriminate.
  - intros [= ->]. reflexivity.
Qed.

Lemma blank_counts (text : string) :
  has_text text = false -> text <> ""%string ->
  count_outside Py.is_space text = 0%nat /\
  forall in_run, count_runs Py.is_space in_run text = if in_run then 0%nat else 1%nat.
Proof.
  induction text as [|c s IH]; [congruence|]. simpl. intros Hc _.
  apply orb_false_iff in Hc as [Hc Hs]. apply negb_false_iff in Hc. rewrite Hc.
  destruct s as [|d s'].
  - simpl. split; [reflexivity|]. intros []; reflexivity.
  - destruct (IH Hs ltac:(congruence)) as [IH1 IH2]. split; [exact IH1|].
    intros in_run. rewrite IH2. destruct in_run; reflexivity.
Qed.

(** X18. [detect_bad_ocr] reports text made of whitespace only as bad
    whenever the space threshold is below one whole, the empty text for
    every threshold. *)
Theorem detect_bad_ocr_blank (text : string) :
  has_text text = false ->
  text = ""%string \/ (ocr_space_threshold < 1)%Q ->
  detect_bad_ocr text = Ok true.
Proof.
  intros Hblank Hcase. unfold detect_bad_ocr.
  destruct (String.length text =? 0)%nat eqn:El; [reflexivity|].
  assert (Hne : text <> ""%string) by (intros ->; discriminate).
  destruct Hcase as [->|Hlt]; [congruence|].
  destruct (blank_counts text Hblank Hne) as [H0 H1].
  rewrite H0, (H1 false). cbn [true_div plus mbind result_bind].
  assert (Hb : Qlt_bool ocr_space_threshold (Z.of_nat 1 # Pos.of_nat 1) = true).
  { unfold Qlt_bool. apply negb_true_iff.
    destruct (Qle_bool (Z.of_nat 1 # Pos.of_nat 1) ocr_space_threshold) eqn:E;
      [|reflexivity].
    apply Qle_bool_iff in E. exfalso.
    apply (Qlt_irrefl 1). eapply Qle_lt_trans; [|exact Hlt]. exact E. }
  rewrite Hb. reflexivity.
Qed.

Lemma has_text_append (a b : string) :
  has_text (a ++ b) = has_text a || has_text b.
Proof.
  induction a as [|c a IH]; [rewrite Renderers.append_nil; reflexivity|].
  rewrite Renderers.append_cons. simpl. rewrite IH, orb_assoc. reflexivity.
Qed.

Lemma lstrip_blank (s : string) : has_text s = false -> Py.lstrip s = ""%string.
Proof.
  induction s as [|c s IH]; [reflexivity|]. simpl. intros H.
  apply orb_false_iff in H as [Hc Hs]. apply negb_false_iff in Hc.
  rewrite Hc. apply IH, Hs.
Qed.

Lemma strip_blank (s : string) : has_text s = false -> Py.strip s = ""%string.
Proof. intros H. unfold Py.strip. rewrite (lstrip_blank s H). reflexivity. Qed.

Lemma has_text_joined (spans : list Providers.Span) : forall text : string,
  has_text (foldl (fun text span =>
               ((text ++ " " ++ Providers.span_text span) ++ String "010" "")%string)
            text spans) =
  has_text text || existsb (fun span => has_text (Providers.span_text span)) spans.
Proof.
  induction spans as [|sp spans IH]; intros text; simpl.
  - rewrite orb_false_r. reflexivity.
  - rewrite IH, !has_text_append. simpl. rewrite !orb_false_r, orb_assoc.
    reflexivity.
Qed.

(** X19. [check_line_spans] accepts a page only if one of its spans has
    a character that is not whitespace: a page without spans or with
    blank spans only is refused before [detect_bad_ocr] is asked. *)
Theorem check_line_spans_needs_text (page_lines : list Providers.ProviderOutput) :
  check_line_spans page_lines = Ok true ->
  exists line span,
    line ∈ page_lines /\ span ∈ Providers.po_spans line /\
    has_text (Providers.span_text span) = true.
Proof.
  unfold check_line_spans. cbv zeta.
  destruct (length _ =? 0)%nat; [discriminate|].
  match goal with
  | |- context [Py.strip ?t] => set (text := t); destruct (has_text text) eqn:Ht
  end.
  - intros _. unfold text in Ht. rewrite has_text_joined in Ht. simpl in Ht.
    apply existsb_exists in Ht as (span & Hin & Hs).
    apply in_concat in Hin as (spans & Hspans & Hin).
    apply in_map_iff in Hspans as (line & <- & Hline).
    exists line, span. rewrite !list_elem_of_In. auto.
  - rewrite (strip_blank text Ht). simpl. discriminate.
Qed.

End ocr_check.

(** *** pdftext_extraction: the spans and chars of one line *)

Record RawSpan : Type := mkRawSpan {
  raw_text : string;
  raw_chars : list Providers.Char;
  raw_superscript : bool;
  raw_subscript : bool
}.

Section extraction.

(** [normalize_spaces(fix_text(text))] *)
Variable clean_text : string -> string.
Variable keep_chars : bool.

(** The body of the loop over [line["spans"]]: a span with an empty
    text is passed over, every other one adds a span and a list of
    chars. *)
Definition add_span (acc : list Providers.Span * list (list Providers.Char))
    (span : RawSpan) : list Providers.Span * list (list Providers.Char) :=
  if negb (Py.truthy (raw_text span)) then acc
  else
    let text := clean_text (raw_text span) in
    let text :=
      if raw_superscript span || raw_subscript span
      then Py.strip text else text in
    ((acc.1 ++ [Providers.mkSpan text])%list,
     (acc.2 ++ [if keep_chars then raw_chars span else []])%list).

Definition line_spans_chars (raw : list RawSpan)
    : list Providers.Span * list (list Providers.Char) :=
  foldl add_span ([], []) raw.

(** The output built for the line; [None] when the assertion on the two
    lengths fails. *)
Definition line_output (polygon : Polygon.PolygonBox) (page_id : Z)
    (raw : list RawSpan) : option Providers.ProviderOutput :=
  let (spans, chars) := line_spans_chars raw in
  if (length spans =? length chars)%nat
  then Some (Providers.mkProviderOutput polygon page_id spans (Some chars))
  else None.

Lemma line_spans_chars_lengths (raw : list RawSpan) :
  forall acc : list Providers.Span * list (list Providers.Char),
  length acc.1 = length acc.2 ->
  length (foldl add_span acc raw).1 = length (foldl add_span acc raw).2 /\
  length (foldl add_span acc raw).1 =
    (length acc.1 +
     length (filter (fun span => Py.truthy (raw_text span) = true) raw))%nat.
Proof.
  induction raw as [|span raw IH]; intros acc Hacc; cbn [foldl].
  - split; [exact Hacc|]. rewrite filter_nil. simpl. lia.
  - rewrite filter_cons.
    destruct (IH (add_span acc span)) as [H1 H2].
    + unfold add_span. destruct (Py.truthy (raw_text span)); cbn [negb];
        [|exact Hacc].
      cbn [fst snd]. rewrite !length_app. simpl. lia.
    + split; [exact H1|]. rewrite H2. unfold add_span.
      destruct (decide (Py.truthy (raw_text span) = true)) as [Et|Et].
      * rewrite Et. cbn [negb fst]. rewrite length_app. simpl. lia.
      * apply not_true_is_false in Et. rewrite Et. reflexivity.
Qed.

(** X20. The assertion on the lengths of spans and chars in
    [pdftext_extraction] never fails: every line gets an output, with one
    span and one list of chars for each raw span whose text is not empty,
    and the output has the same number of spans and char lists as
    [merge] expects. *)
Theorem line_output_invariant (polygon : Polygon.PolygonBox) (page_id : Z)
    (raw : list RawSpan) :
  exists out,
    line_output polygon page_id raw = Some out /\
    Providers.spans_chars_invariant out /\
    length (Providers.po_spans out) =
      length (filter (fun span => Py.truthy (raw_text span) = true) raw).
Proof.
  unfold line_output, line_spans_chars.
  pose proof (line_spans_chars_lengths raw ([], []) eq_refl) as [H1 H2].
  simpl in H1, H2.
  destruct (foldl add_span ([], []) raw) as [spans chars].
  simpl in H1, H2. rewrite H1, Nat.eqb_refl.
  eexists. split; [reflexivity|]. split; [exact (eq_sym (eq_sym H1))|exact H2].
Qed.

End extraction.

Lemma detect_bad_ocr_no_zero_division_witness :
  (fun _ : string => Raise ZeroDivisionError : result Q) "a"%string =
  Raise ZeroDivisionError.
Proof.
  apply (detect_bad_ocr_no_zero_division (7 # 10) (6 # 10) (3 # 10) []
           (fun _ => Raise ZeroDivisionError) "a").
  vm_compute. reflexivity.
Defined.

Lemma detect_bad_ocr_blank_witness :
  detect_bad_ocr (7 # 10) (6 # 10) (3 # 10) [] (fun _ => Ok 1%Q)
    (String " " (String "010" "")) = Ok true.
Proof.
  apply detect_bad_ocr_blank.
  - reflexivity.
  - right. reflexivity.
Defined.

Definition page_ex : list Providers.ProviderOutput :=
  [Providers.mkProviderOutput (Providers.pbox 0 0 10 5) 0
     [Providers.mkSpan " "; Providers.mkSpan "ab"] None].

Lemma check_line_spans_needs_text_witness :
  exists line span,
    line ∈ page_ex /\ span ∈ Providers.po_spans line /\
    has_text (Providers.span_text span) = true.
Proof.
  apply (check_line_spans_needs_text (7 # 10) (6 # 10) (3 # 10) []
           (fun _ => Ok 1%Q) page_ex).
  vm_compute. reflexivity.
Defined.

End Pdf.

(** ** marker/renderers/markdown.py: the text table as a whole *)

Module TableText.

Import Py Markdown.

(** What [widen] leaves in [col_widths] when the index is in range. *)
Definition widened (col_widths : list nat) (i : nat) (entry : option string)
    : list nat :=
  match entry with
  | Some cell =>
      <[i := Nat.max (default 0 (col_widths !! i)) (String.length cell)]> col_widths
  | None => col_widths
  end.

Lemma widen_value col_widths i entry :
  i < length col_widths ->
  widen col_widths (i, entry) = Ok (widened col_widths i entry).
Proof.
  intros Hi. unfold widen, widened. cbn [fst snd].
  destruct entry as [cell|]; [|reflexivity].
  unfold list_get, list_set.
  destruct (col_widths !! i) as [w0|] eqn:Hw.
  2:{ apply lookup_ge_None in Hw. lia. }
  rewrite bind_Ok, decide_True by lia. reflexivity.
Qed.

(** [w'] has the columns of [w], none of them narrower. *)
Definition not_narrower (w w' : list nat) : Prop :=
  length w' = length w /\
  forall c a, w !! c = Some a -> exists b, w' !! c = Some b /\ a <= b.

Lemma not_narrower_refl w : not_narrower w w.
Proof. split; [reflexivity|]. intros c a H. exists a. split; [exact H|lia]. Qed.

Lemma not_narrower_trans w1 w2 w3 :
  not_narrower w1 w2 -> not_narrower w2 w3 -> not_narrower w1 w3.
Proof.
  intros [L1 H1] [L2 H2]. split; [lia|]. intros c a Ha.
  destruct (H1 c a Ha) as (b & Hb & Hab).
  destruct (H2 c b Hb) as (d & Hd & Hbd). exists d. split; [exact Hd|lia].
Qed.

Lemma widened_not_narrower w i entry : not_narrower w (widened w i entry).
Proof.
  unfold widened. destruct entry as [cell|]; [|apply not_narrower_refl].
  split; [apply length_insert|]. intros c a Ha.
  destruct (decide (i = c)) as [->|Hne].
  - rewrite list_lookup_insert_eq by (apply lookup_lt_Some in Ha; exact Ha).
    eexists. split; [reflexivity|]. rewrite Ha. simpl. lia.
  - rewrite list_lookup_insert_ne by exact Hne. exists a. split; [exact Ha|lia].
Qed.

Lemma widened_covers w i cell :
  i < length w ->
  exists b, widened w i (Some cell) !! i = Some b /\ String.length cell <= b.
Proof.
  intros Hi. unfold widened. rewrite list_lookup_insert_eq by exact Hi.
  eexists. split; [reflexivity|lia].
Qed.

(** One row of the width loop. *)
Lemma widen_row row : forall w k w',
  k + length row <= length w ->
  for_each widen w (imap (fun i x => ((k + i)%nat, x)) row) = Ok w' ->
  not_narrower w w' /\
  forall c cell, row !! c = Some (Some cell) ->
    exists b, w' !! (k + c) = Some b /\ String.length cell <= b.
Proof.
  induction row as [|x row IH]; intros w k w' Hk Hrun.
  - injection Hrun as <-. split; [apply not_narrower_refl|].
    intros c cell Hc. rewrite lookup_nil in Hc. discriminate.
  - simpl in Hk. rewrite imap_cons, for_each_cons in Hrun.
    rewrite (imap_ext _ (fun i x => ((S k + i)%nat, x))) in Hrun
      by (intros; simpl; f_equal; lia).
    rewrite widen_value, bind_Ok in Hrun by lia.
    destruct (IH (widened w (k + 0) x) (S k) w') as [Hmono Hcov].
    + pose proof (widened_not_narrower w (k + 0) x) as [Hl _]. lia.
    + exact Hrun.
    + pose proof (widened_not_narrower w (k + 0) x) as Hstep.
      split; [eapply not_narrower_trans; eassumption|].
      intros [|c] cell Hc.
      * simpl in Hc. injection Hc as ->.
        destruct (widened_covers w (k + 0) cell) as (b & Hb & Hle); [lia|].
        destruct Hmono as [_ Hmono].
        destruct (Hmono _ _ Hb) as (b' & Hb' & Hle').
        exists b'. split; [exact Hb'|lia].
      * simpl in Hc. destruct (Hcov c cell Hc) as (b & Hb & Hle).
        exists b. split; [|exact Hle].
        replace (k + S c) with (S k + c) by lia. exact Hb.
Qed.

(** The width loop over the grid: every column is at least as wide as
    each of its entries. *)
Lemma widths_cover m grid : forall w0 w,
  length w0 = m ->
  Forall (fun row : list (option string) => length row = m) grid ->
  for_each (fun w row => for_each widen w (enumerate row)) w0 grid = Ok w ->
  not_narrower w0 w /\
  forall row c cell, row ∈ grid -> row !! c = Some (Some cell) ->
    exists b, w !! c = Some b /\ String.length cell <= b.
Proof.
  induction grid as [|row grid IH]; intros w0 w Hw0 Hm Hrun.
  - injection Hrun as <-. split; [apply not_narrower_refl|].
    intros row c cell Hin. apply elem_of_nil in Hin. contradiction.
  - apply Forall_cons in Hm as [Hrow Hm].
    rewrite for_each_cons, enumerate_from_zero in Hrun.
    destruct (widen_ok row w0 0) as (w1 & Hw1 & Hlen1); [lia|].
    rewrite Hw1, bind_Ok in Hrun.
    destruct (widen_row row w0 0 w1) as [Hmono1 Hcov1]; [lia|exact Hw1|].
    destruct (IH w1 w) as [Hmono Hcov]; [lia|exact Hm|exact Hrun|].
    split; [eapply not_narrower_trans; eassumption|].
    intros r c cell Hin Hc. apply elem_of_cons in Hin as [->|Hin].
    + destruct (Hcov1 c cell Hc) as (b & Hb & Hle). simpl in Hb.
      destruct Hmono as [_ Hmono].
      destruct (Hmono _ _ Hb) as (b' & Hb' & Hle').
      exists b'. split; [exact Hb'|lia].
    + eapply Hcov; eassumption.
Qed.

(** *** Lengths of the lines *)

Lemma length_repeat_char c n : String.length (repeat_char c n) = n.
Proof. induction n as [|n IH]; simpl; [reflexivity|]. rewrite IH. reflexivity. Qed.

Lemma length_join_pointwise sep (l1 : list string) : forall l2 : list string,
  String.length <$> l1 = String.length <$> l2 ->
  String.length (join sep l1) = String.length (join sep l2).
Proof.
  unfold join.
  induction l1 as [|a l1 IH]; intros [|b l2] H; try discriminate; [reflexivity|].
  rewrite !fmap_cons in H. injection H as Hab H.
  destruct l1 as [|a' l1], l2 as [|b' l2]; try discriminate.
  - simpl. exact Hab.
  - change (String.length (a ++ sep ++ String.concat sep (a' :: l1))%string
            = String.length (b ++ sep ++ String.concat sep (b' :: l2))%string).
    rewrite !Renderers.length_append, Hab, (IH (b' :: l2) H). reflexivity.
Qed.

Lemma length_cell_text w i entry wi :
  w !! i = Some wi ->
  String.length (default ""%string entry) <= wi ->
  String.length (cell_text w i entry) = wi + 2.
Proof.
  intros Hw Hle. unfold cell_text. rewrite Hw. cbn [default].
  rewrite !Renderers.length_append, length_repeat_char. simpl. lia.
Qed.

Lemma lengths_row w : forall (row : list (option string)) k,
  k + length row = length w ->
  (forall c cell, row !! c = Some (Some cell) ->
     exists b, w !! (k + c) = Some b /\ String.length cell <= b) ->
  String.length <$> imap (fun i x => cell_text w (k + i) x) row
  = (fun width => width + 2) <$> drop k w.
Proof.
  induction row as [|x row IH]; intros k Hk Hcov.
  - simpl in Hk. rewrite drop_ge by lia. reflexivity.
  - simpl in Hk.
    destruct (w !! k) as [wk|] eqn:Hwk.
    2:{ apply lookup_ge_None in Hwk. lia. }
    rewrite (drop_S _ _ _ Hwk), imap_cons, !fmap_cons.
    f_equal.
    + apply length_cell_text.
      * rewrite Nat.add_0_r. exact Hwk.
      * destruct x as [cell|]; simpl; [|lia].
        destruct (Hcov 0 cell eq_refl) as (b & Hb & Hle).
        rewrite Nat.add_0_r, Hwk in Hb. injection Hb as <-. exact Hle.
    + rewrite (imap_ext _ (fun i x => cell_text w (S k + i) x))
        by (intros; simpl; f_equal; lia).
      apply IH; [lia|].
      intros c cell Hc. destruct (Hcov (S c) cell Hc) as (b & Hb & Hle).
      exists b. split; [|exact Hle].
      replace (S k + c) with (k + S c) by lia. exact Hb.
Qed.

Lemma length_row_text w (row : list (option string)) :
  length row = length w ->
  (forall c cell, row !! c = Some (Some cell) ->
     exists b, w !! c = Some b /\ String.length cell <= b) ->
  String.length (row_text w row) = String.length (header_line w).
Proof.
  intros Hlen Hcov. unfold row_text, header_line.
  rewrite !Renderers.length_append. f_equal. f_equal.
  apply length_join_pointwise.
  rewrite (imap_ext _ (fun i x => cell_text w (0 + i) x)) by reflexivity.
  rewrite (lengths_row w row 0 Hlen Hcov).
  rewrite drop_0, <- list_fmap_compose. apply list_fmap_ext.
  intros i width _. simpl. rewrite length_repeat_char. reflexivity.
Qed.

Lemma skip_blank_subset (grid : Grid) row : row ∈ skip_blank grid -> row ∈ grid.
Proof.
  induction grid as [|r grid IH]; simpl; [auto|].
  destruct (is_empty_line r).
  - intros H. apply list_elem_of_further, IH, H.
  - auto.
Qed.

Lemma emitted_lines_rows w (grid : Grid) line :
  line ∈ emitted_lines w grid ->
  line = header_line w \/ exists row, row ∈ grid /\ line = row_text w row.
Proof.
  unfold emitted_lines.
  destruct (skip_blank grid) as [|row rest] eqn:E.
  - intros H. apply elem_of_nil in H. contradiction.
  - intros H. apply elem_of_cons in H as [->|H].
    + right. exists row. split; [|reflexivity].
      apply skip_blank_subset. rewrite E. apply list_elem_of_here.
    + apply elem_of_cons in H as [->|H]; [left; reflexivity|].
      apply list_elem_of_fmap in H as (r & -> & Hr).
      right. exists r. split; [|reflexivity].
      apply skip_blank_subset. rewrite E. apply list_elem_of_further, Hr.
Qed.

(** X21. [convert_table] never raises on a table whose rowspan and
    colspan attributes are missing or at least 1, with either setting
    of [html_tables_in_markdown]: every index it uses is in range or
    under the [try]. *)
Theorem convert_table_never_raises (html_tables_in_markdown : bool) (el : Table) :
  Forall (Forall wf_cell) (find_all_tr el) ->
  exists text, convert_table html_tables_in_markdown el = Ok text.
Proof.
  intros Hwf. unfold convert_table.
  destruct html_tables_in_markdown; [eauto|].
  destruct (fill_grid_total (total_cols_of (find_all_tr el)) _ Hwf)
    as (grid & -> & Hshape & _).
  rewrite bind_Ok.
  destruct (markdown_lines_spec _ _ _ Hshape) as (w & _ & _ & ->).
  rewrite bind_Ok. eauto.
Qed.

Lemma convert_table_never_raises_witness :
  exists text,
    convert_table false (mkTable ""%string [[td_span "A"%string 2 1]; [td "B"%string; td "C"%string]])
    = Ok text.
Proof.
  apply convert_table_never_raises. simpl.
  repeat constructor; simpl; lia.
Defined.

(** X22. The lines [markdown_lines] that [convert_table] builds for the
    text table all have the same length: every cell is padded to the
    width of its column and the separator line has that width too. *)
Theorem convert_table_lines_aligned (el : Table) :
  Forall (Forall wf_cell) (find_all_tr el) ->
  exists grid markdown_lines n,
    fill_grid (total_cols_of (find_all_tr el)) (find_all_tr el) = Ok grid
    /\ markdown_lines_of (length (find_all_tr el))
         (total_cols_of (find_all_tr el)) grid = Ok markdown_lines
    /\ convert_table false el
       = Ok (nl ++ nl ++ join nl markdown_lines ++ nl ++ nl)%string
    /\ Forall (fun line => String.length line = n) markdown_lines.
Proof.
  intros Hwf. unfold convert_table.
  destruct (fill_grid_total (total_cols_of (find_all_tr el)) _ Hwf)
    as (grid & Hgrid & Hshape & _).
  destruct (markdown_lines_spec _ _ _ Hshape) as (w & Hw & Hlen & Hlines).
  eexists grid, _, (String.length (header_line w)).
  split; [exact Hgrid|]. split; [exact Hlines|].
  split; [rewrite Hgrid, bind_Ok, Hlines, bind_Ok; reflexivity|].
  destruct Hshape as [_ Hm].
  unfold compute_col_widths in Hw.
  destruct (widths_cover _ grid _ w (length_replicate _ _) Hm Hw) as [_ Hcov].
  apply Forall_forall. intros line Hin.
  apply elem_of_app in Hin as [Hin|Hin].
  - apply emitted_lines_rows in Hin as [->|(row & Hrow & ->)]; [reflexivity|].
    apply length_row_text.
    + rewrite Hlen. exact (proj1 (Forall_forall _ _) Hm row Hrow).
    + intros c cell Hc. eapply Hcov; eassumption.
  - destruct (Nat.eqb _ 1).
    + apply list_elem_of_singleton in Hin as ->. reflexivity.
    + apply elem_of_nil in Hin. contradiction.
Qed.

Definition table_ex : Table :=
  mkTable ""%string
    [[td "a"%string; td "long"%string]; [td "bb"%string; td ""%string]].

Lemma convert_table_lines_aligned_witness :
  exists grid markdown_lines n,
    fill_grid (total_cols_of (find_all_tr table_ex)) (find_all_tr table_ex) = Ok grid
    /\ markdown_lines_of (length (find_all_tr table_ex))
         (total_cols_of (find_all_tr table_ex)) grid = Ok markdown_lines
    /\ convert_table false table_ex
       = Ok (nl ++ nl ++ join nl markdown_lines ++ nl ++ nl)%string
    /\ Forall (fun line => String.length line = n) markdown_lines.
Proof.
  apply convert_table_lines_aligned. simpl.
  repeat constructor; simpl; lia.
Defined.

Lemma rows_cols_small_rowspans rows : forall i pushed,
  (forall k, i <= k -> pushed k = 0%Z) ->
  Forall (Forall (fun cell => (int_attr (rowspan cell) <= 2)%Z)) rows ->
  rows_cols i rows pushed = own_cols <$> rows.
Proof.
  induction rows as [|row rows IH]; intros i pushed Hp Hrs; [reflexivity|].
  apply Forall_cons in Hrs as [Hrow Hrs]. simpl. f_equal.
  - rewrite Hp by lia. lia.
  - apply IH; [|exact Hrs]. intros k Hk. rewrite Hp by lia.
    clear -Hrow Hk. induction Hrow as [|cell row Hc Hrow IHr]; simpl; [reflexivity|].
    rewrite bool_decide_eq_false_2 by lia. exact IHr.
Qed.

(** X23. The column count of [convert_table] is the largest sum of
    colspans over the rows, 0 for no rows, whenever no cell has a
    rowspan above 2: a rowspan of 2 adds nothing to the row below. *)
Theorem total_cols_small_rowspans (rows : list (list Cell)) :
  Forall (Forall (fun cell => (int_attr (rowspan cell) <= 2)%Z)) rows ->
  total_cols_of rows = max_or_zero (own_cols <$> rows).
Proof.
  intros H. rewrite total_cols_of_closed_form.
  rewrite (rows_cols_small_rowspans rows 0 (fun _ => 0%Z)); auto.
Qed.

Lemma total_cols_small_rowspans_witness :
  total_cols_of [[td_span "A"%string 2 1]; [td "B"%string; td "C"%string]]
  = max_or_zero (own_cols <$> [[td_span "A"%string 2 1]; [td "B"%string; td "C"%string]]).
Proof.
  apply total_cols_small_rowspans. repeat constructor; simpl; lia.
Defined.

(** *** get_formatted_table_text *)

(** [text.replace("$", r"\$")] *)
Fixpoint escape_dollars (text : string) : string :=
  match text with
  | EmptyString => EmptyString
  | String c rest =>
      if Ascii.eqb c "$" then String "\" (String "$" (escape_dollars rest))
      else String c (escape_dollars rest)
  end.

(** One entry of [element.contents]: [None], a text node, a [br] or
    [math] element with its text, or another element with its markup
    [str(content)]. *)
Inductive Content : Type :=
| NoContent
| NavigableString (s : string)
| BrTag
| MathTag (text : string)
| OtherTag (markup : string).

Definition br : string := "<br>"%string.

(** The first loop: the list [text]. *)
Definition content_items (contents : list Content) : list string :=
  foldl (fun text content =>
           match content with
           | NoContent => text
           | NavigableString s =>
               let stripped := strip s in
               if truthy stripped then text ++ [escape_dollars stripped] else text
           | BrTag => text ++ [br]
           | MathTag t => text ++ [("$" ++ t ++ "$")%string]
           | OtherTag markup => text ++ [escape_dollars markup]
           end)
        [] contents.

(** The second loop; [prev] is [text[i - 1]], [None] for [i = 0]. *)
Fixpoint join_items (prev : option string) (full_text : string)
    (text : list string) : string :=
  match text with
  | [] => full_text
  | t :: rest =>
      let full_text :=
        if String.eqb t br then (full_text ++ t)%string
        else
          match prev with
          | Some p =>
              if negb (String.eqb p br) then (full_text ++ " " ++ t)%string
              else (full_text ++ t)%string
          | None => (full_text ++ t)%string
          end in
      join_items (Some t) full_text rest
  end.

Definition get_formatted_table_text (contents : list Content) : string :=
  join_items None ""%string (content_items contents).

(** Every dollar sign of the text comes right after a backslash. *)
Fixpoint dollars_escaped (after_backslash : bool) (s : string) : bool :=
  match s with
  | EmptyString => true
  | String c rest =>
      (negb (Ascii.eqb c "$") || after_backslash)
      && dollars_escaped (Ascii.eqb c "\") rest
  end.

(** X24. [escape_dollars] leaves no dollar sign without a backslash
    right before it, and returns a text without dollar signs as it
    is. *)
Theorem escape_dollars_escapes (text : string) :
  dollars_escaped false (escape_dollars text) = true /\
  (Ranges.contains_char "$" text = false -> escape_dollars text = text).
Proof.
  split.
  - generalize false. induction text as [|c rest IH]; intros b; [reflexivity|].
    simpl. destruct (Ascii.eqb_spec c "$") as [->|Hne].
    + simpl. apply IH.
    + simpl. apply Ascii.eqb_neq in Hne. rewrite Hne. simpl. apply IH.
  - induction text as [|c rest IH]; [reflexivity|]. simpl.
    intros H. apply orb_false_iff in H as [Hc Hrest]. rewrite Hc.
    f_equal. apply IH, Hrest.
Qed.

Lemma content_items_strings (ss : list string) : forall acc,
  foldl (fun text content =>
           match content with
           | NoContent => text
           | NavigableString s =>
               let stripped := strip s in
               if truthy stripped then text ++ [escape_dollars stripped] else text
           | BrTag => text ++ [br]
           | MathTag t => text ++ [("$" ++ t ++ "$")%string]
           | OtherTag markup => text ++ [escape_dollars markup]
           end)
        acc (NavigableString <$> ss)
  = acc ++ (escape_dollars <$> filter (fun s => truthy s = true) (strip <$> ss)).
Proof.
  induction ss as [|s ss IH]; intros acc.
  - simpl. rewrite app_nil_r. reflexivity.
  - rewrite !fmap_cons, filter_cons. cbn [foldl]. rewrite IH.
    destruct (decide (truthy (strip s) = true)) as [E|E].
    + rewrite E, <- app_assoc. reflexivity.
    + apply not_true_is_false in E. rewrite E. reflexivity.
Qed.

Lemma append_nil_r (s : string) : (s ++ "")%string = s.
Proof.
  induction s as [|c s IH]; [reflexivity|].
  rewrite Renderers.append_cons, IH. reflexivity.
Qed.

(** The items, each after one space. *)
Definition spaced (text : list string) : string :=
  foldr (fun t acc => (" " ++ t ++ acc)%string) ""%string text.

Lemma join_spaced (text : list string) : forall t,
  join " "%string (t :: text) = (t ++ spaced text)%string.
Proof.
  unfold join. induction text as [|u text IH]; intros t.
  - simpl. rewrite append_nil_r. reflexivity.
  - change (String.concat " "%string (t :: u :: text))
      with (t ++ " " ++ String.concat " "%string (u :: text))%string.
    rewrite IH. reflexivity.
Qed.

Lemma join_items_no_br (text : list string) : forall p full_text,
  Forall (fun t => t <> br) (p :: text) ->
  join_items (Some p) full_text text = (full_text ++ spaced text)%string.
Proof.
  induction text as [|t text IH]; intros p full_text Hall.
  - simpl. rewrite append_nil_r. reflexivity.
  - apply Forall_cons in Hall as [Hp Hall].
    pose proof (Forall_inv Hall) as Ht.
    cbn [join_items]. apply String.eqb_neq in Hp, Ht. rewrite Hp, Ht. cbn [negb].
    rewrite (IH t) by exact Hall. cbn [spaced foldr].
    rewrite !Config.append_assoc. reflexivity.
Qed.

(** X25. [get_formatted_table_text] on a cell that holds text nodes
    only, none of them the text of a [br] tag after stripping: the
    result is the stripped, dollar-escaped texts that are not empty,
    joined by single spaces. *)
Theorem get_formatted_table_text_plain (ss : list string) :
  Forall (fun s => escape_dollars (strip s) <> br) ss ->
  get_formatted_table_text (NavigableString <$> ss)
  = join " "%string
      (escape_dollars <$> filter (fun s => truthy s = true) (strip <$> ss)).
Proof.
  intros Hbr. unfold get_formatted_table_text, content_items.
  rewrite content_items_strings, app_nil_l.
  assert (Hall : Forall (fun t => t <> br)
            (escape_dollars <$> filter (fun s => truthy s = true) (strip <$> ss))).
  { apply Forall_forall. intros t Ht.
    apply list_elem_of_fmap in Ht as (u & -> & Hu).
    apply list_elem_of_filter in Hu as [_ Hu].
    apply list_elem_of_fmap in Hu as (s & -> & Hs).
    exact (proj1 (Forall_forall _ _) Hbr s Hs). }
  destruct (escape_dollars <$> filter _ (strip <$> ss)) as [|t text]; [reflexivity|].
  cbn [join_items]. pose proof (Forall_inv Hall) as Ht.
  apply String.eqb_neq in Ht. rewrite Ht, Renderers.append_nil.
  rewrite (join_items_no_br text t t Hall), join_spaced. reflexivity.
Qed.

Lemma get_formatted_table_text_plain_witness :
  get_formatted_table_text
    (NavigableString <$> [" a $1 "%string; "  "%string; "b"%string])
  = join " "%string
      (escape_dollars <$> filter (fun s => truthy s = true)
         (strip <$> [" a $1 "%string; "  "%string; "b"%string])).
Proof.
  apply get_formatted_table_text_plain.
  repeat constructor; vm_compute; discriminate.
Defined.

End TableText.

(** ** marker/providers/__init__.py: raw_text, and merge once more *)

Module ProviderText.

Import Py Providers.

(** [raw_text]: ["".join(span.text for span in self.spans)] *)
Definition raw_text (v : ProviderOutput) : string :=
  join ""%string (span_text <$> po_spans v).

Lemma join_empty_cons (t : string) (l : list string) :
  join ""%string (t :: l) = (t ++ join ""%string l)%string.
Proof.
  unfold join. destruct l as [|u l].
  - simpl. rewrite TableText.append_nil_r. reflexivity.
  - change (String.concat ""%string (t :: u :: l))
      with (t ++ "" ++ String.concat ""%string (u :: l))%string.
    rewrite Renderers.append_nil. reflexivity.
Qed.

Lemma join_empty_app (l1 l2 : list string) :
  join ""%string (l1 ++ l2) = (join ""%string l1 ++ join ""%string l2)%string.
Proof.
  induction l1 as [|t l1 IH].
  - simpl. rewrite Renderers.append_nil. reflexivity.
  - rewrite <- app_comm_cons, !join_empty_cons, IH, Config.append_assoc.
    reflexivity.
Qed.

(** X26. The raw text of [a.merge(b)] is the raw text of [a] followed
    by the raw text of [b]. *)
Theorem merge_raw_text (h : heap) (a b : loc) (va vb : ProviderOutput) :
  view h a = Some va ->
  view h b = Some vb ->
  exists r h' vr,
    merge a b h = Some (r, h') /\ view h' r = Some vr /\
    raw_text vr = (raw_text va ++ raw_text vb)%string.
Proof.
  intros Ha Hb.
  destruct (merge_view h a b va vb Ha Hb) as (r & ext & Hm & _ & Hv).
  eexists _, _, _. split; [exact Hm|]. split; [exact Hv|].
  unfold raw_text. cbn [po_spans]. rewrite fmap_app. apply join_empty_app.
Qed.

Lemma merge_raw_text_witness :
  exists r h' vr,
    merge 2 6 heap_one_sided = Some (r, h') /\ view h' r = Some vr /\
    raw_text vr = (raw_text output_x ++ raw_text output_y)%string.
Proof.
  apply merge_raw_text; reflexivity.
Defined.

(** X27. When both outputs have as many char lists as spans, the
    merged output has too exactly in these cases: both track chars or
    neither does, or the one that does not track chars has no spans. *)
Theorem merge_invariant_iff (h : heap) (a b : loc) (va vb : ProviderOutput) :
  view h a = Some va ->
  view h b = Some vb ->
  spans_chars_invariant va -> spans_chars_invariant vb ->
  exists r h' vr,
    merge a b h = Some (r, h') /\ view h' r = Some vr /\
    (spans_chars_invariant vr <->
     match po_chars va, po_chars vb with
     | None, Some _ => po_spans va = []
     | Some _, None => po_spans vb = []
     | _, _ => True
     end).
Proof.
  intros Ha Hb Ia Ib.
  destruct (merge_view h a b va vb Ha Hb) as (r & ext & Hm & _ & Hv).
  eexists _, _, _. split; [exact Hm|]. split; [exact Hv|].
  unfold spans_chars_invariant in *. cbn [po_chars po_spans].
  destruct (po_chars va) as [ca|], (po_chars vb) as [cb|]; cbn [merged_chars].
  - rewrite !length_app. split; [auto|lia].
  - rewrite length_app. split.
    + intros H. apply length_zero_iff_nil. lia.
    + intros ->. simpl. lia.
  - rewrite length_app. split.
    + intros H. apply length_zero_iff_nil. lia.
    + intros ->. simpl. lia.
  - tauto.
Qed.

Lemma merge_invariant_iff_witness :
  exists r h' vr,
    merge 2 6 heap_one_sided = Some (r, h') /\ view h' r = Some vr /\
    (spans_chars_invariant vr <->
     match po_chars output_x, po_chars output_y with
     | None, Some _ => po_spans output_x = []
     | Some _, None => po_spans output_y = []
     | _, _ => True
     end).
Proof.
  apply merge_invariant_iff; [reflexivity|reflexivity|exact I|reflexivity].
Defined.

End ProviderText.

(** ** Renderers on trees whose references all resolve *)

Module RenderClosed.

Import Py Renderers.

(** Every [content-ref] of every node names one of the node's
    children. *)
Fixpoint closed (o : BlockOutput) : Prop :=
  match o with
  | mkBlockOutput _ html children =>
      (forall src, In (ContentRef src) html ->
         exists child, In child children /\ output_id child = src)
      /\ (fix all (l : list BlockOutput) : Prop :=
            match l with
            | [] => True
            | c :: l' => closed c /\ all l'
            end) children
  end.

Lemma closed_children id html children :
  closed (mkBlockOutput id html children) -> Forall closed children.
Proof.
  intros [_ H]. induction children as [|c l IH]; constructor.
  - exact (proj1 H).
  - apply IH. exact (proj2 H).
Qed.

(** Induction over the tree, with the property known for all children. *)
Fixpoint BlockOutput_tree_ind (P : BlockOutput -> Prop)
    (step : forall id html children,
        Forall P children -> P (mkBlockOutput id html children))
    (o : BlockOutput) : P o :=
  match o with
  | mkBlockOutput id html children =>
      step id html children
        ((fix all (l : list BlockOutput) : Forall P l :=
            match l with
            | [] => @List.Forall_nil _ P
            | c :: l' =>
                @List.Forall_cons _ P c l' (BlockOutput_tree_ind P step c) (all l')
            end) children)
  end.

Lemma find_child_resolved {R : Type} (f : BlockOutput -> result R)
    (children : list BlockOutput) (src : BlockId) :
  (exists child, In child children /\ output_id child = src) ->
  Forall (fun c => exists r, f c = Ok r) children ->
  exists r, find_child src (map (fun item => (output_id item, f item)) children)
            = Some (src, Ok r).
Proof.
  intros (child & Hin & Hid) Hall.
  induction children as [|c l IH]; [contradiction|].
  apply Forall_cons in Hall as [[r Hc] Hall]. simpl.
  destruct (decide (output_id c = src)) as [E|E].
  - exists r. rewrite E, Hc. reflexivity.
  - destruct Hin as [->|Hin]; [contradiction|]. apply IH; assumption.
Qed.

Lemma for_each_pieces {S : Type} (body : S -> piece -> result S)
    (html : list piece) :
  (forall st p, In p html -> exists st', body st p = Ok st') ->
  forall st, exists st', for_each body st html = Ok st'.
Proof.
  induction html as [|p html IH]; intros Hbody st; [eexists; reflexivity|].
  destruct (Hbody st p (or_introl eq_refl)) as [st1 H1].
  simpl. rewrite H1. cbn [mbind result_bind].
  apply IH. intros st2 q Hq. apply Hbody. right. exact Hq.
Qed.

Section html.

Context (image_blocks page_blocks : list BlockTypes).
Context (extract_images paginate_output add_block_ids : bool).
Context {Image : Type}.
Context (extract_image : BlockId -> Image).
Context (to_path : BlockId -> string) (image_format : string).
Context (str_of_int : Z -> string).
Context (set_data_block_id : string -> BlockId -> string).
Context (html_document : string -> string).

Lemma html_ref_resolved resolved st src res :
  find_child src resolved = Some (src, Ok res) ->
  exists st',
    html_ref image_blocks page_blocks extract_images paginate_output
      add_block_ids extract_image to_path image_format str_of_int
      set_data_block_id resolved st src = Ok st'.
Proof.
  intros H. unfold html_ref. rewrite H. cbn [mbind result_bind snd fst].
  destruct (in_types (block_type src) image_blocks).
  - destruct extract_images; eexists; reflexivity.
  - destruct (in_types (block_type src) page_blocks); eexists; reflexivity.
Qed.

(** X28. [HTMLRenderer.extract_html] returns, at every level, on a tree
    in which every [content-ref] names a child of its node: the
    [AttributeError] of an unresolved first reference cannot occur. *)
Theorem extract_html_closed (document_output : BlockOutput) :
  closed document_output ->
  forall level, exists r,
    extract_html image_blocks page_blocks extract_images paginate_output
      add_block_ids extract_image to_path image_format str_of_int
      set_data_block_id html_document document_output level = Ok r.
Proof.
  induction document_output as [id html children IH] using BlockOutput_tree_ind.
  intros Hclosed level. pose proof (closed_children _ _ _ Hclosed) as Hch.
  destruct Hclosed as [Hrefs _]. cbn [extract_html].
  match goal with
  | |- context [for_each ?body ?st0 html] =>
      assert (Hloop : exists st', for_each body st0 html = Ok st');
        [apply for_each_pieces|destruct Hloop as [st' Hst]]
  end.
  - intros st [s|src] Hin; [eexists; reflexivity|].
    cbn [html_piece].
    destruct (find_child_resolved
                (fun item => extract_html image_blocks page_blocks extract_images
                   paginate_output add_block_ids extract_image to_path
                   image_format str_of_int set_data_block_id html_document
                   item (S level))
                children src (Hrefs src Hin)) as [res Hres].
    + apply Forall_forall. intros c Hc.
      apply (proj1 (Forall_forall _ _) IH c Hc).
      exact (proj1 (Forall_forall _ _) Hch c Hc).
    + eapply html_ref_resolved. exact Hres.
  - rewrite Hst. cbn [mbind result_bind]. eexists. reflexivity.
Qed.

End html.

Section base.

Context (image_blocks : list BlockTypes) (extract_images : bool).
Context (extract_image : BlockId -> string).
Context (ref_markup : BlockId -> string).

Lemma base_ref_resolved resolved st src res :
  find_child src resolved = Some (src, Ok res) ->
  exists st',
    base_ref image_blocks extract_images extract_image ref_markup
      resolved st src = Ok st'.
Proof.
  intros H. unfold base_ref. rewrite H. cbn [mbind result_bind snd fst].
  destruct (in_types (block_type src) image_blocks && extract_images)%bool;
    eexists; reflexivity.
Qed.

(** X29. [BaseRenderer.extract_block_html] returns on a tree in which
    every [content-ref] names a child of its node: neither the
    [AttributeError] nor the unbound [content] can occur. *)
Theorem extract_block_html_closed (block_output : BlockOutput) :
  closed block_output ->
  exists r,
    extract_block_html image_blocks extract_images extract_image ref_markup
      block_output = Ok r.
Proof.
  induction block_output as [id html children IH] using BlockOutput_tree_ind.
  intros Hclosed. pose proof (closed_children _ _ _ Hclosed) as Hch.
  destruct Hclosed as [Hrefs _]. cbn [extract_block_html].
  match goal with
  | |- context [for_each ?body ?st0 html] =>
      assert (Hloop : exists st', for_each body st0 html = Ok st');
        [apply for_each_pieces|destruct Hloop as [st' Hst]]
  end.
  - intros st [s|src] Hin; [eexists; reflexivity|].
    cbn [base_piece].
    destruct (find_child_resolved
                (extract_block_html image_blocks extract_images extract_image
                   ref_markup)
                children src (Hrefs src Hin)) as [res Hres].
    + apply Forall_forall. intros c Hc.
      apply (proj1 (Forall_forall _ _) IH c Hc).
      exact (proj1 (Forall_forall _ _) Hch c Hc).
    + eapply base_ref_resolved. exact Hres.
  - rewrite Hst. cbn [mbind result_bind]. eexists. reflexivity.
Qed.

End base.

(** A page that refers to its one text block. *)
Definition text_id : BlockId := mkBlockId Text 0 1.

Definition page_tree : BlockOutput :=
  mkBlockOutput (mkBlockId Page 0 0)
    [Markup "<div>"%string; ContentRef text_id; Markup "</div>"%string]
    [mkBlockOutput text_id [Markup "<p>x</p>"%string] []].

Lemma page_tree_closed : closed page_tree.
Proof.
  simpl. split.
  - intros src [H|[H|[H|[]]]]; try discriminate.
    injection H as <-. eexists. split; [left; reflexivity|reflexivity].
  - split; [|exact I]. split; [|exact I].
    intros src [H|[]]. discriminate.
Defined.

Lemma extract_html_closed_witness :
  exists r,
    extract_html [Picture; Figure] [Page] true false false
      (fun _ : BlockId => ""%string) (fun _ => "img"%string) "png"%string
      (fun _ => "0"%string) (fun soup _ => soup) (fun s => s)
      page_tree 0 = Ok r.
Proof.
  apply (extract_html_closed [Picture; Figure] [Page] true false false
           (fun _ : BlockId => ""%string) (fun _ => "img"%string) "png"%string
           (fun _ => "0"%string) (fun soup _ => soup) (fun s => s)
           page_tree page_tree_closed 0).
Defined.

Lemma extract_block_html_closed_witness :
  exists r,
    extract_block_html [Picture; Figure] true (fun _ => ""%string)
      (fun _ => "<content-ref>"%string) page_tree = Ok r.
Proof.
  apply extract_block_html_closed. exact page_tree_closed.
Defined.

End RenderClosed.
